(** * Spectral models of the photon simulator

    A shallow embedding of
    [yt/analysis_modules/photon_simulator/spectral_models.py]:
    the energy grid of [SpectralModel], the table-driven emission model
    [TableApecModel] and the table-driven absorption model
    [TableAbsorbModel].

    Numbers.  The program computes with IEEE doubles held in numpy arrays.
    Every finite double is a rational, so arrays are [list Q] and the
    arithmetic is exact rational arithmetic: rounding, infinities and NaN are
    idealised away, and numeric results are compared with [==] ([Qeq]).
    Division by zero, which numpy answers with [inf], is [0] in [Q]; the
    theorems that depend on a quotient carry the hypothesis that keeps the
    divisor away from zero.  Where a line lands is stated on its computed
    energy [hc/lambda*scale_factor] as it is: nothing is derived from the
    exactness of that quotient.  The exponential of the absorption model is the
    real exponential, so that model returns a [list R].

    Units.  [YTQuantity] and [YTArray] attach a unit to a value and do not
    change it; they are the identity here.

    Errors.  A Python exception is a value of [exn]; a call that may raise
    returns a [result].  Methods that read or write attributes of [self] run
    in a state-and-error monad over the object. *)

From Stdlib Require Import Ascii String.
From Stdlib Require Import ZArith QArith Qreals Qminmax Reals Lia Psatz.
From Stdlib Require Import List Bool Sorting.Sorted Setoid Morphisms.
Import ListNotations.

Local Open Scope Z_scope.
Local Open Scope Q_scope.

(** ** Exceptions and results *)

Inductive exn : Type :=
| ValueError
| IndexError
| KeyError
| AttributeError
| ZeroDivisionError
| IOError (msg : string).

Inductive result (A : Type) : Type :=
| Ok (a : A)
| Raise (e : exn).

Arguments Ok {A} a.
Arguments Raise {A} e.

Definition rbind {A B} (r : result A) (k : A -> result B) : result B :=
  match r with
  | Ok a => k a
  | Raise e => Raise e
  end.

Declare Scope result_scope.
Delimit Scope result_scope with result.
Notation "x <-? r ; k" := (rbind r (fun x => k))
  (at level 61, r at next level, right associativity) : result_scope.

(** ** Python sequences *)

(** [a[i]] for an integer [i]: a negative index counts from the end, an index
    outside [-n, n) raises [IndexError]. *)
Definition py_index (n : nat) (i : Z) : option nat :=
  if ((0 <=? i) && (i <? Z.of_nat n))%Z then Some (Z.to_nat i)
  else if ((- Z.of_nat n <=? i) && (i <? 0))%Z then Some (Z.to_nat (Z.of_nat n + i))
  else None.

Definition getitem {A} (a : list A) (i : Z) : result A :=
  match py_index (length a) i with
  | Some k => match nth_error a k with
              | Some x => Ok x
              | None => Raise IndexError
              end
  | None => Raise IndexError
  end.

(** [a[:n]]: the first [n] items, or all but the last [-n] when [n] is
    negative. *)
Definition slice_to {A} (a : list A) (n : Z) : list A :=
  if (0 <=? n)%Z then firstn (Z.to_nat n) a
  else firstn (length a - Z.to_nat (- n)) a.

(** ** numpy arrays *)

Definition Qltb (x y : Q) : bool := negb (Qle_bool y x).

Fixpoint map2 {A B C} (f : A -> B -> C) (a : list A) (b : list B) : list C :=
  match a, b with
  | x :: a', y :: b' => f x y :: map2 f a' b'
  | _, _ => []
  end.

Definition vadd (a b : list Q) : list Q := map2 Qplus a b.
Definition vsub (a b : list Q) : list Q := map2 Qminus a b.
Definition vmul (a b : list Q) : list Q := map2 Qmult a b.
Definition vscale (a : list Q) (c : Q) : list Q := map (fun x => x * c) a.

(** [np.zeros(n)]. *)
Definition np_zeros (n : Z) : result (list Q) :=
  if (n <? 0)%Z then Raise ValueError else Ok (repeat 0 (Z.to_nat n)).

(** [np.linspace(start, stop, num)] with the default [endpoint=True]:
    [num] samples [start + i*step], [step = (stop-start)/(num-1)], the last
    one set to [stop]; a negative [num] raises [ValueError]. *)
Definition np_linspace (start stop : Q) (num : Z) : result (list Q) :=
  if (num <? 0)%Z then Raise ValueError
  else match Z.to_nat num with
       | O => Ok []
       | S O => Ok [start]
       | S div =>
           let step := (stop - start) / inject_Z (Z.of_nat div) in
           Ok (map (fun i => inject_Z (Z.of_nat i) * step + start) (seq 0 div)
                 ++ [stop])
       end.

(** [np.diff(a)] is [a[1:] - a[:-1]]. *)
Definition np_diff (a : list Q) : list Q := vsub (tl a) (removelast a).

(** [a.min()] and [a.max()]; an empty array raises [ValueError]. *)
Definition np_min (a : list Q) : result Q :=
  match a with
  | [] => Raise ValueError
  | x :: t => Ok (fold_left (fun m y => if Qltb y m then y else m) t x)
  end.

Definition np_max (a : list Q) : result Q :=
  match a with
  | [] => Raise ValueError
  | x :: t => Ok (fold_left (fun m y => if Qltb m y then y else m) t x)
  end.

(** [np.searchsorted] is a binary search: the loop
    [while lo < hi: mid = lo + (hi-lo)//2; if less(a[mid], v): lo = mid+1
    else: hi = mid], with [less] the strict order for [side='left'] and
    [<=] for [side='right'].  [go_right i] is [less(a[i], v)].  The interval
    shrinks at every turn, so [hi - lo] turns are always enough. *)
Fixpoint bsearch (go_right : nat -> bool) (fuel lo hi : nat) : nat :=
  match fuel with
  | O => lo
  | S fuel' =>
      if (lo <? hi)%nat then
        let mid := (lo + (hi - lo) / 2)%nat in
        if go_right mid then bsearch go_right fuel' (S mid) hi
        else bsearch go_right fuel' lo mid
      else lo
  end.

Definition searchsorted_left (a : list Q) (v : Q) : Z :=
  Z.of_nat (bsearch (fun i => Qltb (nth i a 0) v) (length a) 0 (length a)).

Definition searchsorted_right (a : list Q) (v : Q) : Z :=
  Z.of_nat (bsearch (fun i => Qle_bool (nth i a 0) v) (length a) 0 (length a)).

(** [np.interp(x, xp, fp)]: piecewise linear through the points
    [(xp[j], fp[j])], constant [fp[0]] to the left and [fp[-1]] to the
    right; empty or unequal sample arrays raise [ValueError].  numpy asks
    for an increasing [xp] and promises nothing otherwise; [interp1] is the
    interpolant on an increasing [xp], and what is proved of its values
    assumes that order. *)
Definition interp1 (xp fp : list Q) (x : Q) : Q :=
  let n := length xp in
  let j := searchsorted_right xp x in
  if (j =? 0)%Z then nth 0 fp 0
  else if (Z.of_nat n <=? j)%Z then nth (n - 1) fp 0
  else
    let k := Z.to_nat (j - 1) in
    let slope := (nth (S k) fp 0 - nth k fp 0) / (nth (S k) xp 0 - nth k xp 0) in
    slope * (x - nth k xp 0) + nth k fp 0.

Definition np_interp (x xp fp : list Q) : result (list Q) :=
  if (length xp =? 0)%nat then Raise ValueError
  else if negb (length xp =? length fp)%nat then Raise ValueError
  else Ok (map (interp1 xp fp) x).

(** ** SpectralModel: the energy grid *)

Record SpectralModel : Type := {
  emin : Q;
  emax : Q;
  nchan : Z;
  ebins : list Q;
  de : list Q;
  emid : list Q
}.

(** [SpectralModel.__init__]. *)
Definition SpectralModel_init (emin0 emax0 : Q) (nchan0 : Z) : result SpectralModel :=
  (eb <-? np_linspace emin0 emax0 (nchan0 + 1) ;
   Ok {| emin := emin0;
         emax := emax0;
         nchan := nchan0;
         ebins := eb;
         de := np_diff eb;
         emid := map (fun s => (1 # 2) * s) (vadd (tl eb) (removelast eb)) |})%result.

(** ** Table files *)

(** A row of a line block: the columns [element], [lambda], [epsilon]. *)
Record LineRow : Type := {
  element : Z;
  lambda : Q;
  epsilon : Q
}.

(** A row of a continuum block. *)
Record CocoRow : Type := {
  coco_Z : Z;
  rmJ : Z;
  N_Cont : Z;
  E_Cont : list Q;
  Continuum : list Q;
  N_Pseudo : Z;
  E_Pseudo : list Q;
  Pseudo : list Q
}.

(** The blocks of a FITS file: block 0 carries no table, block 1 of the line
    file is the temperature grid, the blocks from 2 on are the tables. *)
Inductive HDU : Type :=
| PrimaryHDU
| ParameterHDU (kT : list Q)
| LineHDU (rows : list LineRow)
| CocoHDU (rows : list CocoRow).

Definition HDUList : Type := list HDU.

Inductive File : Type :=
| FitsFile (hdus : HDUList)
| H5File (energy cross_section : list Q).

Definition FileSystem : Type := string -> option File.

(** [hdu.data.field(name)]: the primary block has no data, a table without
    the column raises [KeyError]. *)
Definition field_kT (h : HDU) : result (list Q) :=
  match h with
  | ParameterHDU kT => Ok kT
  | PrimaryHDU => Raise AttributeError
  | _ => Raise KeyError
  end.

Definition line_rows (h : HDU) : result (list LineRow) :=
  match h with
  | LineHDU rows => Ok rows
  | PrimaryHDU => Raise AttributeError
  | _ => Raise KeyError
  end.

Definition coco_rows (h : HDU) : result (list CocoRow) :=
  match h with
  | CocoHDU rows => Ok rows
  | PrimaryHDU => Raise AttributeError
  | _ => Raise KeyError
  end.

(** [_astropy.pyfits.open(path)]. *)
Definition pyfits_open (fs : FileSystem) (path : string) : result HDUList :=
  match fs path with
  | Some (FitsFile hdus) => Ok hdus
  | _ => Raise (IOError path)
  end.

(** [os.path.join(a, b)] on POSIX paths. *)
Fixpoint ends_with_slash (s : string) : bool :=
  match s with
  | EmptyString => false
  | String c EmptyString => Ascii.eqb c "/"%char
  | String _ t => ends_with_slash t
  end.

Definition path_join (a b : string) : string :=
  if String.prefix "/"%string b then b
  else if (String.length a =? 0)%nat || ends_with_slash a then (a ++ b)%string
  else (a ++ "/" ++ b)%string.

(** ** Module constants

    [hc], [cl] and the two conversion factors come from
    [yt.utilities.physical_constants], and the thermal branch calls
    [np.sqrt] and [scipy.stats.norm(E, sig).cdf]; none of them is part of
    these sources, so the models take them as parameters. *)
Record Globals : Type := {
  hc : Q;
  cl : Q;
  erg_per_keV : Q;
  amu_cgs : Q;
  np_sqrt : Q -> Q;
  norm_cdf : Q -> Q -> Q -> Q
}.

(** ** TableApecModel *)

Module TableApecModel.

(** The object: the attributes set by [__init__] are plain fields, those set
    by [prepare_spectrum] are absent ([None]) until it assigns them. *)
Record t : Type := {
  apec_root : string;
  apec_prefix : string;
  cocofile : string;
  linefile : string;
  base : SpectralModel;
  wvbins : list Q;
  cosmic_elem : list Z;
  metal_elem : list Z;
  thermal_broad : bool;
  A : list Q;
  line_handle : option HDUList;
  coco_handle : option HDUList;
  Tvals : option (list Q);
  dTvals : option (list Q);
  minlam : option Q;
  maxlam : option Q;
  scale_factor : option Q
}.

(** What a method runs on: the object and the log of [mylog]. *)
Record State : Type := {
  self : t;
  mylog : list string
}.

Definition M (X : Type) : Type := State -> result X * State.

Definition ret {X} (x : X) : M X := fun s => (Ok x, s).

Definition bind {X Y} (m : M X) (k : X -> M Y) : M Y :=
  fun s => match m s with
           | (Ok x, s') => k x s'
           | (Raise e, s') => (Raise e, s')
           end.

Definition raise {X} (e : exn) : M X := fun s => (Raise e, s).

Definition lift {X} (r : result X) : M X := fun s => (r, s).

(** Reading an attribute that [__init__] set. *)
Definition gets {X} (f : t -> X) : M X := fun s => (Ok (f (self s)), s).

(** Reading an attribute that may not have been assigned yet. *)
Definition attr {X} (f : t -> option X) : M X :=
  fun s => match f (self s) with
           | Some x => (Ok x, s)
           | None => (Raise AttributeError, s)
           end.

Definition modify (f : t -> t) : M unit :=
  fun s => (Ok tt, {| self := f (self s); mylog := mylog s |}).

Definition log_error (msg : string) : M unit :=
  fun s => (Ok tt, {| self := self s; mylog := mylog s ++ [msg] |}).

Declare Scope apec_scope.
Delimit Scope apec_scope with apec.
Notation "x <- m ;; k" := (bind m (fun x => k))
  (at level 61, m at next level, right associativity) : apec_scope.
Notation "m ;; k" := (bind m (fun _ => k))
  (at level 61, right associativity) : apec_scope.

Definition set_line_handle (h : HDUList) (o : t) : t :=
  {| apec_root := apec_root o; apec_prefix := apec_prefix o;
     cocofile := cocofile o; linefile := linefile o; base := base o;
     wvbins := wvbins o; cosmic_elem := cosmic_elem o;
     metal_elem := metal_elem o; thermal_broad := thermal_broad o; A := A o;
     line_handle := Some h; coco_handle := coco_handle o;
     Tvals := Tvals o; dTvals := dTvals o; minlam := minlam o;
     maxlam := maxlam o; scale_factor := scale_factor o |}.

Definition set_coco_handle (h : HDUList) (o : t) : t :=
  {| apec_root := apec_root o; apec_prefix := apec_prefix o;
     cocofile := cocofile o; linefile := linefile o; base := base o;
     wvbins := wvbins o; cosmic_elem := cosmic_elem o;
     metal_elem := metal_elem o; thermal_broad := thermal_broad o; A := A o;
     line_handle := line_handle o; coco_handle := Some h;
     Tvals := Tvals o; dTvals := dTvals o; minlam := minlam o;
     maxlam := maxlam o; scale_factor := scale_factor o |}.

Definition set_Tvals (v : list Q) (o : t) : t :=
  {| apec_root := apec_root o; apec_prefix := apec_prefix o;
     cocofile := cocofile o; linefile := linefile o; base := base o;
     wvbins := wvbins o; cosmic_elem := cosmic_elem o;
     metal_elem := metal_elem o; thermal_broad := thermal_broad o; A := A o;
     line_handle := line_handle o; coco_handle := coco_handle o;
     Tvals := Some v; dTvals := dTvals o; minlam := minlam o;
     maxlam := maxlam o; scale_factor := scale_factor o |}.

Definition set_dTvals (v : list Q) (o : t) : t :=
  {| apec_root := apec_root o; apec_prefix := apec_prefix o;
     cocofile := cocofile o; linefile := linefile o; base := base o;
     wvbins := wvbins o; cosmic_elem := cosmic_elem o;
     metal_elem := metal_elem o; thermal_broad := thermal_broad o; A := A o;
     line_handle := line_handle o; coco_handle := coco_handle o;
     Tvals := Tvals o; dTvals := Some v; minlam := minlam o;
     maxlam := maxlam o; scale_factor := scale_factor o |}.

Definition set_minlam (v : Q) (o : t) : t :=
  {| apec_root := apec_root o; apec_prefix := apec_prefix o;
     cocofile := cocofile o; linefile := linefile o; base := base o;
     wvbins := wvbins o; cosmic_elem := cosmic_elem o;
     metal_elem := metal_elem o; thermal_broad := thermal_broad o; A := A o;
     line_handle := line_handle o; coco_handle := coco_handle o;
     Tvals := Tvals o; dTvals := dTvals o; minlam := Some v;
     maxlam := maxlam o; scale_factor := scale_factor o |}.

Definition set_maxlam (v : Q) (o : t) : t :=
  {| apec_root := apec_root o; apec_prefix := apec_prefix o;
     cocofile := cocofile o; linefile := linefile o; base := base o;
     wvbins := wvbins o; cosmic_elem := cosmic_elem o;
     metal_elem := metal_elem o; thermal_broad := thermal_broad o; A := A o;
     line_handle := line_handle o; coco_handle := coco_handle o;
     Tvals := Tvals o; dTvals := dTvals o; minlam := minlam o;
     maxlam := Some v; scale_factor := scale_factor o |}.

Definition set_scale_factor (v : Q) (o : t) : t :=
  {| apec_root := apec_root o; apec_prefix := apec_prefix o;
     cocofile := cocofile o; linefile := linefile o; base := base o;
     wvbins := wvbins o; cosmic_elem := cosmic_elem o;
     metal_elem := metal_elem o; thermal_broad := thermal_broad o; A := A o;
     line_handle := line_handle o; coco_handle := coco_handle o;
     Tvals := Tvals o; dTvals := dTvals o; minlam := minlam o;
     maxlam := maxlam o; scale_factor := Some v |}.

(** The atomic masses of [self.A]. *)
Definition atomic_masses : list Q :=
  [0; 100794 # 100000; 400262 # 100000; 6941 # 1000; 9012182 # 1000000;
   10811 # 1000; 120107 # 10000; 140067 # 10000; 159994 # 10000;
   189984 # 10000; 201797 # 10000; 229898 # 10000; 243050 # 10000;
   269815 # 10000; 280855 # 10000; 309738 # 10000; 320650 # 10000;
   354530 # 10000; 399480 # 10000; 390983 # 10000; 400780 # 10000;
   449559 # 10000; 478670 # 10000; 509415 # 10000; 519961 # 10000;
   549380 # 10000; 558450 # 10000; 589332 # 10000; 586934 # 10000;
   635460 # 10000; 653800 # 10000].

Section WithGlobals.

Variable g : Globals.
Variable fs : FileSystem.

Local Open Scope apec_scope.

(** [TableApecModel.__init__]. *)
Definition init (apec_root0 : string) (emin0 emax0 : Q) (nchan0 : Z)
    (apec_vers : string) (thermal_broad0 : bool) : result t :=
  let prefix := ("apec_v" ++ apec_vers)%string in
  (b <-? SpectralModel_init emin0 emax0 nchan0 ;
   Ok {| apec_root := apec_root0;
         apec_prefix := prefix;
         cocofile := path_join apec_root0 (prefix ++ "_coco.fits")%string;
         linefile := path_join apec_root0 (prefix ++ "_line.fits")%string;
         base := b;
         wvbins := map (fun e => hc g / e) (rev (ebins b));
         cosmic_elem := [1; 2; 3; 4; 5; 9; 11; 15; 17; 19; 21; 22; 23; 24; 25;
                         27; 29; 30]%Z;
         metal_elem := [6; 7; 8; 10; 12; 13; 14; 16; 18; 20; 26; 28]%Z;
         thermal_broad := thermal_broad0;
         A := atomic_masses;
         line_handle := None; coco_handle := None;
         Tvals := None; dTvals := None;
         minlam := None; maxlam := None; scale_factor := None |})%result.

(** [try: handle = pyfits.open(path) except IOError: log and re-raise]. *)
Definition open_table (label path : string) : M HDUList :=
  match pyfits_open fs path with
  | Ok h => ret h
  | Raise (IOError _) =>
      let msg := (label ++ " file " ++ path ++ " does not exist")%string in
      log_error msg ;; raise (IOError msg)
  | Raise e => raise e
  end.

(** [TableApecModel.prepare_spectrum]. *)
Definition prepare_spectrum (zobs : Q) : M unit :=
  lf <- gets linefile ;;
  lh <- open_table "LINE" lf ;;
  modify (set_line_handle lh) ;;
  cf <- gets cocofile ;;
  ch <- open_table "COCO" cf ;;
  modify (set_coco_handle ch) ;;
  lh' <- attr line_handle ;;
  h1 <- lift (getitem lh' 1) ;;
  kT <- lift (field_kT h1) ;;
  modify (set_Tvals kT) ;;
  tv <- attr Tvals ;;
  modify (set_dTvals (np_diff tv)) ;;
  wv <- gets wvbins ;;
  mn <- lift (np_min wv) ;;
  modify (set_minlam mn) ;;
  wv' <- gets wvbins ;;
  mx <- lift (np_max wv') ;;
  modify (set_maxlam mx) ;;
  if Qeq_bool (1 + zobs) 0 then raise ZeroDivisionError
  else modify (set_scale_factor (1 / (1 + zobs))).

(** The rows that [np.where] keeps: the lines of [elem] whose rest
    wavelength is strictly between [minlam] and [maxlam]. *)
Definition select_lines (elem : Z) (lo hi : Q) (rows : list LineRow)
    : list LineRow :=
  filter (fun r => (element r =? elem)%Z && Qltb lo (lambda r)
                   && Qltb (lambda r) hi) rows.

(** [E0 = hc/lambda*scale_factor], the observed energy of a line. *)
Definition line_energy (sf : Q) (r : LineRow) : Q := hc g / lambda r * sf.

(** [np.searchsorted(ebins, E0, side='right') - 1]. *)
Definition channel_of (edges : list Q) (E0 : Q) : Z :=
  (searchsorted_right edges E0 - 1)%Z.

(** [vec[i] += a]. *)
Fixpoint add_at (k : nat) (a : Q) (vec : list Q) : list Q :=
  match vec, k with
  | [], _ => []
  | x :: rest, O => (x + a) :: rest
  | x :: rest, S k' => x :: add_at k' a rest
  end.

Definition iadd_item (vec : list Q) (i : Z) (a : Q) : result (list Q) :=
  match py_index (length vec) i with
  | Some k => Ok (add_at k a vec)
  | None => Raise IndexError
  end.

(** [for i, a in zip(ie, amp): vec[i] += a]. *)
Fixpoint deposit (vec : list Q) (ie : list Z) (amp : list Q)
    : result (list Q) :=
  match ie, amp with
  | i :: ie', a :: amp' =>
      (vec' <-? iadd_item vec i a ; deposit vec' ie' amp')%result
  | _, _ => Ok vec
  end.

(** [for E, sig, a in zip(E0, sigma, amp): vec += np.diff(cdf(ebins))*a]. *)
Fixpoint broaden (vec edges : list Q) (E0 sig amp : list Q) : list Q :=
  match E0, sig, amp with
  | E :: E0', s :: sig', a :: amp' =>
      let cdf := map (norm_cdf g E s) edges in
      broaden (vadd vec (vscale (np_diff cdf) a)) edges E0' sig' amp'
  | _, _, _ => vec
  end.

(** The line part of [_make_spectrum]: the array [vec] after either loop. *)
Definition line_spectrum (elem tindex : Z) : M (list Q) :=
  n <- gets (fun o => nchan (base o)) ;;
  lh <- attr line_handle ;;
  hdu <- lift (getitem lh tindex) ;;
  rows <- lift (line_rows hdu) ;;
  lo <- attr minlam ;;
  hi <- attr maxlam ;;
  let i := select_lines elem lo hi rows in
  vec <- lift (np_zeros n) ;;
  sf <- attr scale_factor ;;
  let E0 := map (line_energy sf) i in
  let amp := map epsilon i in
  edges <- gets (fun o => ebins (base o)) ;;
  tb <- gets thermal_broad ;;
  if tb then
    vec' <- lift (np_zeros n) ;;
    tv <- attr Tvals ;;
    T <- lift (getitem tv tindex) ;;
    masses <- gets A ;;
    Ael <- lift (getitem masses elem) ;;
    let w := np_sqrt g (T * erg_per_keV g / (Ael * amu_cgs g)) in
    let sigma := map (fun E => E * w / cl g) E0 in
    ret (broaden vec' edges E0 sigma amp)
  else
    let ie := map (channel_of edges) E0 in
    lift (deposit vec ie amp).

(** One tabulated curve laid on the grid:
    [np.interp(emid, e[:n]*scale_factor, c[:n]) * de]. *)
Definition curve_on_grid (n : Z) (e c : list Q) : M (list Q) :=
  sf <- attr scale_factor ;;
  let e' := vscale (slice_to e n) sf in
  let c' := slice_to c n in
  mid <- gets (fun o => emid (base o)) ;;
  y <- lift (np_interp mid e' c') ;;
  w <- gets (fun o => de (base o)) ;;
  ret (vmul y w).

(** [TableApecModel._make_spectrum]. *)
Definition _make_spectrum (elem tindex : Z) : M (list Q) :=
  n <- gets (fun o => nchan (base o)) ;;
  tmpspec <- lift (np_zeros n) ;;
  vec <- line_spectrum elem tindex ;;
  let tmpspec := vadd tmpspec vec in
  ch <- attr coco_handle ;;
  chdu <- lift (getitem ch tindex) ;;
  crows <- lift (coco_rows chdu) ;;
  match find (fun r => (coco_Z r =? elem)%Z && (rmJ r =? 0)%Z) crows with
  | None => ret tmpspec
  | Some row =>
      cont <- curve_on_grid (N_Cont row) (E_Cont row) (Continuum row) ;;
      let tmpspec := vadd tmpspec cont in
      pseudo <- curve_on_grid (N_Pseudo row) (E_Pseudo row) (Pseudo row) ;;
      ret (vadd tmpspec pseudo)
  end.

(** One of the two loops of [get_spectrum]:
    [for elem in elems: l += make(elem, tindex+2); r += make(elem, tindex+3)]. *)
Fixpoint accumulate (elems : list Z) (tindex : Z) (l r : list Q)
    : M (list Q * list Q) :=
  match elems with
  | [] => ret (l, r)
  | elem :: rest =>
      sl <- _make_spectrum elem (tindex + 2) ;;
      sr <- _make_spectrum elem (tindex + 3) ;;
      accumulate rest tindex (vadd l sl) (vadd r sr)
  end.

(** [left*(1.-dT) + right*dT]. *)
Definition blend (l r : list Q) (dT : Q) : list Q :=
  vadd (vscale l (1 - dT)) (vscale r dT).

(** [np.searchsorted(self.Tvals, kT) - 1]. *)
Definition temperature_index (tv : list Q) (kT : Q) : Z :=
  (searchsorted_left tv kT - 1)%Z.

(** [TableApecModel.get_spectrum]. *)
Definition get_spectrum (kT : Q) : M (list Q * list Q) :=
  n <- gets (fun o => nchan (base o)) ;;
  cspec_l <- lift (np_zeros n) ;;
  mspec_l <- lift (np_zeros n) ;;
  cspec_r <- lift (np_zeros n) ;;
  mspec_r <- lift (np_zeros n) ;;
  tv <- attr Tvals ;;
  let tindex := temperature_index tv kT in
  if (tindex >=? Z.of_nat (length tv) - 1)%Z || (tindex <? 0)%Z then
    ret (cspec_l, mspec_l)
  else
    Ti <- lift (getitem tv tindex) ;;
    dtv <- attr dTvals ;;
    dTi <- lift (getitem dtv tindex) ;;
    let dT := (kT - Ti) / dTi in
    ce <- gets cosmic_elem ;;
    c <- accumulate ce tindex cspec_l cspec_r ;;
    me <- gets metal_elem ;;
    m <- accumulate me tindex mspec_l mspec_r ;;
    ret (blend (fst c) (snd c) dT, blend (fst m) (snd m) dT).

End WithGlobals.

End TableApecModel.

(** ** TableAbsorbModel *)

Module TableAbsorbModel.

Record t : Type := {
  base : SpectralModel;
  filename : string;
  sigma : list Q;
  nH : Q
}.

(** [TableAbsorbModel.__init__]: the file is looked for, opened and read
    here; [1.0e22] is the integer [10^22]. *)
Definition init (fs : FileSystem) (filename0 : string) (nH0 : Q) : result t :=
  match fs filename0 with
  | None => Raise (IOError ("File does not exist: " ++ filename0 ++ ".")%string)
  | Some (FitsFile _) => Raise (IOError filename0)
  | Some (H5File energy cross_section) =>
      (emin0 <-? np_min energy ;
       emax0 <-? np_max energy ;
       let nchan0 := Z.of_nat (length cross_section) in
       b <-? SpectralModel_init emin0 emax0 nchan0 ;
       Ok {| base := b;
             filename := filename0;
             sigma := cross_section;
             nH := nH0 * inject_Z (10 ^ 22) |})%result
  end.

(** [TableAbsorbModel.prepare_spectrum] is [pass]. *)
Definition prepare_spectrum (o : t) : result unit * t := (Ok tt, o).

(** [TableAbsorbModel.get_spectrum]: [np.exp(-self.sigma*self.nH)]. *)
Definition get_spectrum (o : t) : list R :=
  map (fun s => exp (Q2R (- s * nH o))) (sigma o).

End TableAbsorbModel.

(** * Specification vocabulary *)

(** A grid in increasing order, as the temperature grid and the bin edges
    are meant to be. *)
Definition increasing (a : list Q) : Prop :=
  forall i j, (i <= j < length a)%nat -> nth i a 0 <= nth j a 0.

Import TableApecModel.

(** The states the claims quantify over: an object built by [__init__] on
    which [prepare_spectrum] has returned. *)
Definition Prepared (g : Globals) (fs : FileSystem) (zobs : Q) (s : State)
    : Prop :=
  exists root emin0 emax0 nchan0 vers tb o log,
    init g root emin0 emax0 nchan0 vers tb = Ok o /\
    prepare_spectrum fs zobs {| self := o; mylog := log |} = (Ok tt, s).

(** A method call that leaves the object and the log as they were. *)
Definition readonly {X} (m : M X) : Prop := forall s, snd (m s) = s.

(** The sum of [_make_spectrum] over an element set at one table block,
    accumulated from [acc] in the order of the set. *)
Fixpoint sum_spectra (g : Globals) (elems : list Z) (block : Z)
    (acc : list Q) (s : State) : result (list Q) :=
  match elems with
  | [] => Ok acc
  | elem :: rest =>
      match fst (_make_spectrum g elem block s) with
      | Ok v => sum_spectra g rest block (vadd acc v) s
      | Raise e => Raise e
      end
  end.

(** The total amplitude of the lines among [sel] that fall in channel [j]
    of an array of [n] channels, given the index [chan r] computed for each
    line. *)
Definition amplitude_in (n : nat) (chan : LineRow -> Z) (j : nat)
    (sel : list LineRow) : Q :=
  fold_right Qplus 0
    (map epsilon
       (filter (fun r => match py_index n (chan r) with
                         | Some k => (k =? j)%nat
                         | None => false
                         end) sel)).

(** ** A small table set

    Three temperatures, hence three line blocks (2, 3 and 4), on a grid of
    four channels from 1 to 5 keV.  The thermal branch is not exercised, so
    [np_sqrt] and [norm_cdf] are placeholders. *)
Definition example_globals : Globals :=
  {| hc := 123984193 # 10000000;
     cl := 29979245800;
     erg_per_keV := 1602176565 # 1000000000000000000;
     amu_cgs := 1660538921 # 1000000000000000000000000000000000;
     np_sqrt := fun x => x;
     norm_cdf := fun _ _ x => x |}.

Definition example_wavelength (E : Q) : Q := hc example_globals / E.

Definition example_line_file : HDUList :=
  [ PrimaryHDU;
    ParameterHDU [1; 2; 3];
    LineHDU [ {| element := 1; lambda := example_wavelength (5 # 2); epsilon := 7 |} ];
    LineHDU [ {| element := 1; lambda := example_wavelength (7 # 2); epsilon := 5 |};
              {| element := 26; lambda := example_wavelength (9 # 2); epsilon := 3 |} ];
    LineHDU [ {| element := 1; lambda := example_wavelength (3 # 2); epsilon := 2 |} ] ].

Definition example_coco_file : HDUList :=
  [ PrimaryHDU;
    ParameterHDU [1; 2; 3];
    CocoHDU [ {| coco_Z := 2; rmJ := 0;
                 N_Cont := 2; E_Cont := [0; 10; 20]; Continuum := [1; 1; 9];
                 N_Pseudo := 2; E_Pseudo := [0; 10]; Pseudo := [0; 0] |} ];
    CocoHDU [];
    CocoHDU [] ].

Definition example_fs : FileSystem :=
  fun path =>
    if String.eqb path "/atomdb/apec_v2.0.2_line.fits" then
      Some (FitsFile example_line_file)
    else if String.eqb path "/atomdb/apec_v2.0.2_coco.fits" then
      Some (FitsFile example_coco_file)
    else if String.eqb path "/atomdb/abs_table.h5" then
      Some (H5File [1; 2; 3] [1; 2; 3])
    else if String.eqb path "/atomdb/bad_table.h5" then
      Some (H5File [1; 2] [-1 # 1])
    else None.

(** A file system holding the line table only. *)
Definition line_only_fs : FileSystem :=
  fun path =>
    if String.eqb path "/atomdb/apec_v2.0.2_line.fits" then
      Some (FitsFile example_line_file)
    else None.

Definition no_files : FileSystem := fun _ => None.

(** An object with nothing in it, the value of [example_object] had its
    constructor failed; it does not fail. *)
Definition blank_object : t :=
  {| apec_root := ""; apec_prefix := ""; cocofile := ""; linefile := "";
     base := {| emin := 0; emax := 0; nchan := 0;
                ebins := []; de := []; emid := [] |};
     wvbins := []; cosmic_elem := []; metal_elem := [];
     thermal_broad := false; A := [];
     line_handle := None; coco_handle := None; Tvals := None;
     dTvals := None; minlam := None; maxlam := None; scale_factor := None |}.

(** [TableApecModel("/atomdb", 1, 5, 4)], not yet prepared. *)
Definition example_object : t :=
  match init example_globals "/atomdb" 1 5 4 "2.0.2" false with
  | Ok o => o
  | Raise _ => blank_object
  end.

(** The outcome of [prepare_spectrum(zobs)] on the example object under the
    file system [fs], and the state it leaves. *)
Definition example_run (fs : FileSystem) (zobs : Q) : result unit * State :=
  prepare_spectrum fs zobs {| self := example_object; mylog := [] |}.

Definition example_state (zobs : Q) : State := snd (example_run example_fs zobs).

(** A checker for [increasing]: each entry at most the next. *)
Fixpoint increasingb (a : list Q) : bool :=
  match a with
  | x :: (y :: _) as rest => Qle_bool x y && increasingb rest
  | _ => true
  end.

(** What [Prepared] amounts to, attribute by attribute. *)
Record PreparedView (g : Globals) (fs : FileSystem) (zobs : Q) (s : State)
    (lh ch : HDUList) (tv : list Q) (lo hi : Q) : Prop := {
  pv_grid : exists emin0 emax0 nchan0,
      SpectralModel_init emin0 emax0 nchan0 = Ok (base (self s));
  pv_wvbins :
      wvbins (self s) = map (fun e => hc g / e) (rev (ebins (base (self s))));
  pv_cosmic :
      cosmic_elem (self s)
      = [1; 2; 3; 4; 5; 9; 11; 15; 17; 19; 21; 22; 23; 24; 25; 27; 29; 30]%Z;
  pv_metal :
      metal_elem (self s) = [6; 7; 8; 10; 12; 13; 14; 16; 18; 20; 26; 28]%Z;
  pv_masses : A (self s) = atomic_masses;
  pv_line_file : fs (linefile (self s)) = Some (FitsFile lh);
  pv_coco_file : fs (cocofile (self s)) = Some (FitsFile ch);
  pv_line_handle : line_handle (self s) = Some lh;
  pv_coco_handle : coco_handle (self s) = Some ch;
  pv_grid_block : getitem lh 1 = Ok (ParameterHDU tv);
  pv_Tvals : Tvals (self s) = Some tv;
  pv_dTvals : dTvals (self s) = Some (np_diff tv);
  pv_minlam : minlam (self s) = Some lo;
  pv_min : np_min (wvbins (self s)) = Ok lo;
  pv_maxlam : maxlam (self s) = Some hi;
  pv_max : np_max (wvbins (self s)) = Ok hi;
  pv_redshift : ~ 1 + zobs == 0;
  pv_scale_factor : scale_factor (self s) = Some (1 / (1 + zobs))
}.

(** The sum of [_make_spectrum] over [elems] at [block] on the example
    tables at redshift [zobs] (empty had a call raised). *)
Definition example_sum (zobs : Q) (elems : list Z) (block : Z) : list Q :=
  match sum_spectra example_globals elems block (repeat 0 4)
          (example_state zobs) with
  | Ok v => v
  | Raise _ => []
  end.

(** The sum of the entries of an array, [vec.sum()]. *)
Definition vsum (a : list Q) : Q := fold_right Qplus 0 a.

(** What a broadened line adds to the array in total: its amplitude times
    the mass of its profile between the first and the last edge; [E0],
    [sig] and [amp] are read in step, as [zip] does. *)
Fixpoint profile_mass (g : Globals) (first last : Q) (E0 sig amp : list Q)
    : Q :=
  match E0, sig, amp with
  | E :: E0', s :: sig', a :: amp' =>
      a * (norm_cdf g E s last - norm_cdf g E s first)
      + profile_mass g first last E0' sig' amp'
  | _, _, _ => 0
  end.

(** ** The example tables with thermal broadening

    The profile is a stand-in with the shape of a distribution function:
    0 up to [E - s], 1 from [E + s] on, linear between. *)
Definition ramp_cdf (E s x : Q) : Q :=
  if Qle_bool x (E - s) then 0
  else if Qle_bool (E + s) x then 1
  else (x - (E - s)) / (2 * s).

Definition broad_globals : Globals :=
  {| hc := 123984193 # 10000000;
     cl := 1;
     erg_per_keV := 1;
     amu_cgs := 1;
     np_sqrt := fun x => 1 # 4;
     norm_cdf := ramp_cdf |}.

(** [TableApecModel("/atomdb", 1, 5, 4, thermal_broad=True)]. *)
Definition broad_object : t :=
  match init broad_globals "/atomdb" 1 5 4 "2.0.2" true with
  | Ok o => o
  | Raise _ => blank_object
  end.

Definition broad_state : State :=
  snd (prepare_spectrum example_fs 0 {| self := broad_object; mylog := [] |}).

(** [x] lies between [a] and [b], whichever of the two is the larger. *)
Definition between (a b x : Q) : Prop :=
  (a <= b -> a <= x /\ x <= b) /\ (b <= a -> b <= x /\ x <= a).

(** ** A continuum table with an empty record

    The record of hydrogen in block 2 announces no continuum point. *)
Definition sparse_coco_file : HDUList :=
  [ PrimaryHDU;
    ParameterHDU [1; 2; 3];
    CocoHDU [ {| coco_Z := 1; rmJ := 0;
                 N_Cont := 0; E_Cont := [0; 0]; Continuum := [0; 0];
                 N_Pseudo := 2; E_Pseudo := [0; 10]; Pseudo := [1; 1] |};
              {| coco_Z := 2; rmJ := 0;
                 N_Cont := 2; E_Cont := [0; 10]; Continuum := [1; 1];
                 N_Pseudo := 0; E_Pseudo := [0; 0]; Pseudo := [0; 0] |} ];
    CocoHDU [];
    CocoHDU [] ].

Definition sparse_fs : FileSystem :=
  fun path =>
    if String.eqb path "/atomdb/apec_v2.0.2_line.fits" then
      Some (FitsFile example_line_file)
    else if String.eqb path "/atomdb/apec_v2.0.2_coco.fits" then
      Some (FitsFile sparse_coco_file)
    else None.

Definition sparse_state : State :=
  snd (prepare_spectrum sparse_fs 0 {| self := example_object; mylog := [] |}).

(** An array without a negative entry. *)
Definition nonneg (a : list Q) : Prop := Forall (fun x => 0 <= x) a.

(** A line file and a continuum file without a negative amplitude. *)
Definition nonneg_lines (lh : HDUList) : Prop :=
  forall rows r, In (LineHDU rows) lh -> In r rows -> 0 <= epsilon r.

Definition nonneg_curves (ch : HDUList) : Prop :=
  forall rows r, In (CocoHDU rows) ch -> In r rows ->
    nonneg (Continuum r) /\ nonneg (Pseudo r).

(** A continuum file whose sample energies, the first [N_Cont] of [E_Cont]
    and the first [N_Pseudo] of [E_Pseudo], are in increasing order, as
    [np.interp] asks of its [xp]. *)
Definition increasing_samples (ch : HDUList) : Prop :=
  forall rows r, In (CocoHDU rows) ch -> In r rows ->
    increasing (slice_to (E_Cont r) (N_Cont r)) /\
    increasing (slice_to (E_Pseudo r) (N_Pseudo r)).

(** * Properties *)

(** ** Arrays *)

Lemma map2_length {A B C} (f : A -> B -> C) (a : list A) (b : list B) :
  length (map2 f a b) = Nat.min (length a) (length b).
Proof.
  revert b; induction a as [|x a IH]; intros [|y b]; simpl; auto.
Qed.

Lemma nth_map2 {A B C} (f : A -> B -> C) (a : list A) (b : list B) i da db dc :
  (i < length a)%nat -> (i < length b)%nat ->
  nth i (map2 f a b) dc = f (nth i a da) (nth i b db).
Proof.
  revert b i; induction a as [|x a IH]; intros [|y b] [|i]; simpl; intros;
    try lia; auto.
  apply IH; lia.
Qed.

Lemma tl_length {A} (l : list A) : length (tl l) = (length l - 1)%nat.
Proof. destruct l; simpl; lia. Qed.

Lemma nth_tl {A} (l : list A) i d : nth i (tl l) d = nth (S i) l d.
Proof. destruct l; simpl; auto. destruct i; auto. Qed.

Lemma removelast_len {A} (l : list A) :
  length (removelast l) = (length l - 1)%nat.
Proof.
  induction l as [|x [|y l] IH]; simpl in *; auto. lia.
Qed.

Lemma nth_removelast {A} (l : list A) i d :
  (S i < length l)%nat -> nth i (removelast l) d = nth i l d.
Proof.
  revert i; induction l as [|x [|y l] IH]; intros i H; simpl in *; try lia.
  destruct i; auto. apply IH. lia.
Qed.

Lemma np_diff_length a : length (np_diff a) = (length a - 1)%nat.
Proof.
  unfold np_diff, vsub. rewrite map2_length, tl_length, removelast_len. lia.
Qed.

Lemma nth_np_diff a i :
  (S i < length a)%nat -> nth i (np_diff a) 0 = nth (S i) a 0 - nth i a 0.
Proof.
  intros H. unfold np_diff, vsub.
  rewrite (nth_map2 Qminus _ _ i 0 0 0).
  - now rewrite nth_tl, nth_removelast.
  - rewrite tl_length; lia.
  - rewrite removelast_len; lia.
Qed.

Lemma np_zeros_ok n : (0 <= n)%Z -> np_zeros n = Ok (repeat 0 (Z.to_nat n)).
Proof.
  intros H. unfold np_zeros. destruct (Z.ltb_spec n 0); auto. lia.
Qed.

(** ** The energy grid *)

Lemma linspace_many start stop (n : nat) :
  np_linspace start stop (Z.of_nat (S (S n))) =
  Ok (map (fun i => inject_Z (Z.of_nat i)
                    * ((stop - start) / inject_Z (Z.of_nat (S n))) + start)
          (seq 0 (S n)) ++ [stop]).
Proof.
  unfold np_linspace.
  destruct (Z.ltb_spec (Z.of_nat (S (S n))) 0); [lia|].
  now rewrite Nat2Z.id.
Qed.

Lemma nth_linspace_inner (stop : Q) (n i : nat) (f : nat -> Q) :
  (i < n)%nat -> nth i (map f (seq 0 n) ++ [stop]) 0 = f i.
Proof.
  intros H. rewrite app_nth1 by now rewrite length_map, length_seq.
  rewrite (nth_indep _ 0 (f 0%nat)) by now rewrite length_map, length_seq.
  now rewrite map_nth, seq_nth.
Qed.

Lemma nth_linspace_last (stop : Q) (n : nat) (f : nat -> Q) :
  nth n (map f (seq 0 n) ++ [stop]) 0 = stop.
Proof.
  rewrite app_nth2 by (rewrite length_map, length_seq; lia).
  rewrite length_map, length_seq, Nat.sub_diag. reflexivity.
Qed.

Lemma inject_Z_pos (k : nat) : 0 < inject_Z (Z.of_nat (S k)).
Proof.
  replace 0 with (inject_Z 0) by reflexivity. rewrite <- Zlt_Qlt. lia.
Qed.

(** The grid that [__init__] builds for a positive channel count. *)
Lemma SpectralModel_init_pos emin0 emax0 (k : nat) :
  SpectralModel_init emin0 emax0 (Z.of_nat (S k)) =
  let eb := map (fun i => inject_Z (Z.of_nat i)
                          * ((emax0 - emin0) / inject_Z (Z.of_nat (S k)))
                          + emin0) (seq 0 (S k)) ++ [emax0] in
  Ok {| emin := emin0; emax := emax0; nchan := Z.of_nat (S k);
        ebins := eb; de := np_diff eb;
        emid := map (fun s => (1 # 2) * s) (vadd (tl eb) (removelast eb)) |}.
Proof.
  unfold SpectralModel_init.
  replace (Z.of_nat (S k) + 1)%Z with (Z.of_nat (S (S k))) by lia.
  rewrite linspace_many. reflexivity.
Qed.

Lemma grid_edge_formula emin0 emax0 (k i : nat) :
  (i <= S k)%nat ->
  nth i (map (fun i => inject_Z (Z.of_nat i)
                       * ((emax0 - emin0) / inject_Z (Z.of_nat (S k)))
                       + emin0) (seq 0 (S k)) ++ [emax0]) 0
  == emin0 + inject_Z (Z.of_nat i)
             * ((emax0 - emin0) / inject_Z (Z.of_nat (S k))).
Proof.
  intros H. destruct (Nat.eq_dec i (S k)) as [->|Hne].
  - rewrite nth_linspace_last. pose proof (inject_Z_pos k). field. lra.
  - rewrite nth_linspace_inner by lia. ring.
Qed.

Lemma grid_edge_lt emin0 emax0 (k i j : nat) :
  emin0 < emax0 -> (i < j <= S k)%nat ->
  let eb := map (fun i => inject_Z (Z.of_nat i)
                          * ((emax0 - emin0) / inject_Z (Z.of_nat (S k)))
                          + emin0) (seq 0 (S k)) ++ [emax0] in
  nth i eb 0 < nth j eb 0.
Proof.
  intros Hlt Hij eb. unfold eb.
  rewrite !grid_edge_formula by lia.
  pose proof (inject_Z_pos k) as Hk.
  assert (Hs : 0 < (emax0 - emin0) / inject_Z (Z.of_nat (S k))).
  { apply Qlt_shift_div_l; auto. lra. }
  assert (Hi : inject_Z (Z.of_nat i) < inject_Z (Z.of_nat j)).
  { rewrite <- Zlt_Qlt. lia. }
  nra.
Qed.

(** C5.  For [emin < emax] and [nchan > 0] the constructor succeeds; the
    bin edges are [nchan+1] values, first [emin], last [emax], the [i]-th
    one [emin + i*(emax-emin)/nchan], strictly increasing; there are [nchan]
    widths and [nchan] centers, each width the difference of its two edges
    and each center their midpoint. *)
Theorem energy_grid_well_formed (emin0 emax0 : Q) (nchan0 : Z) :
  emin0 < emax0 -> (0 < nchan0)%Z ->
  exists m, SpectralModel_init emin0 emax0 nchan0 = Ok m /\
    let n := Z.to_nat nchan0 in
    length (ebins m) = S n /\
    nth 0 (ebins m) 0 == emin0 /\
    nth n (ebins m) 0 == emax0 /\
    (forall i, (i <= n)%nat ->
       nth i (ebins m) 0
       == emin0 + inject_Z (Z.of_nat i) * ((emax0 - emin0) / inject_Z nchan0)) /\
    (forall i j, (i < j <= n)%nat -> nth i (ebins m) 0 < nth j (ebins m) 0) /\
    length (de m) = n /\
    length (emid m) = n /\
    (forall i, (i < n)%nat ->
       nth i (de m) 0 == nth (S i) (ebins m) 0 - nth i (ebins m) 0 /\
       nth i (emid m) 0
       == (1 # 2) * (nth i (ebins m) 0 + nth (S i) (ebins m) 0)).
Proof.
  intros Hlt Hn.
  destruct (Z.to_nat nchan0) as [|k] eqn:Hk; [lia|].
  assert (Hz : nchan0 = Z.of_nat (S k)) by lia. subst nchan0.
  rewrite SpectralModel_init_pos. cbv zeta.
  eexists; split; [reflexivity|]. cbn [ebins de emid].
  set (eb := map _ (seq 0 (S k)) ++ [emax0]).
  assert (Hlen : length eb = S (S k)).
  { unfold eb. rewrite length_app, length_map, length_seq. simpl. lia. }
  split; [exact Hlen|].
  split; [unfold eb; rewrite grid_edge_formula by lia; simpl; ring|].
  split; [unfold eb; now rewrite nth_linspace_last|].
  split; [intros i Hi; unfold eb; now apply grid_edge_formula|].
  split; [intros i j Hij; now apply grid_edge_lt|].
  split; [rewrite np_diff_length; lia|].
  split.
  { rewrite length_map. unfold vadd.
    rewrite map2_length, tl_length, removelast_len. lia. }
  intros i Hi. split.
  - rewrite nth_np_diff by lia. reflexivity.
  - rewrite (nth_indep _ 0 ((1 # 2) * 0))
      by (rewrite length_map; unfold vadd;
          rewrite map2_length, tl_length, removelast_len; lia).
    rewrite (map_nth (fun s => (1 # 2) * s)). unfold vadd.
    rewrite (nth_map2 Qplus _ _ i 0 0 0)
      by (rewrite ?tl_length, ?removelast_len; lia).
    rewrite nth_tl, nth_removelast by lia. ring.
Qed.

(** The grid of energies 1 to 3 keV in four channels. *)
Lemma energy_grid_well_formed_witness :
  exists m, SpectralModel_init 1 3 4 = Ok m /\
    let n := Z.to_nat 4 in
    length (ebins m) = S n /\
    nth 0 (ebins m) 0 == 1 /\
    nth n (ebins m) 0 == 3 /\
    (forall i, (i <= n)%nat ->
       nth i (ebins m) 0
       == 1 + inject_Z (Z.of_nat i) * ((3 - 1) / inject_Z 4)) /\
    (forall i j, (i < j <= n)%nat -> nth i (ebins m) 0 < nth j (ebins m) 0) /\
    length (de m) = n /\
    length (emid m) = n /\
    (forall i, (i < n)%nat ->
       nth i (de m) 0 == nth (S i) (ebins m) 0 - nth i (ebins m) 0 /\
       nth i (emid m) 0
       == (1 # 2) * (nth i (ebins m) 0 + nth (S i) (ebins m) 0)).
Proof.
  apply (energy_grid_well_formed 1 3 4); [reflexivity | lia].
Defined.

(** C7 as the code has it.  The constructor checks nothing itself: whatever
    [emin] and [emax] are it succeeds as soon as [nchan >= -1], storing its
    three arguments, and the only failure is the [ValueError] that
    [np.linspace] raises for a negative sample count, [nchan < -1]. *)
Theorem SpectralModel_init_range (emin0 emax0 : Q) (nchan0 : Z) :
  match SpectralModel_init emin0 emax0 nchan0 with
  | Ok m => (-1 <= nchan0)%Z /\ emin m = emin0 /\ emax m = emax0
            /\ nchan m = nchan0
  | Raise e => (nchan0 < -1)%Z /\ e = ValueError
  end.
Proof.
  unfold SpectralModel_init, np_linspace.
  destruct (Z.ltb_spec (nchan0 + 1) 0) as [H|H]; simpl.
  - split; [lia | reflexivity].
  - destruct (Z.to_nat (nchan0 + 1)) as [|[|k]]; simpl;
      (split; [lia | auto]).
Qed.

(** C7 fails as stated: a grid with [emax <= emin], and a grid with no
    channel, are both constructed without any error. *)
Lemma SpectralModel_init_accepts_bad_range :
  (1 <= 2 /\ forall e, SpectralModel_init 2 1 3 <> Raise e) /\
  ((0 <= 0)%Z /\ forall e, SpectralModel_init 1 2 0 <> Raise e).
Proof.
  split; (split; [discriminate || lia | intros e; vm_compute; discriminate]).
Qed.

(** ** Binary search *)

Lemma Qltb_lt x y : Qltb x y = true <-> x < y.
Proof.
  unfold Qltb. rewrite negb_true_iff, <- not_true_iff_false, Qle_bool_iff.
  split; [apply Qnot_le_lt | apply Qlt_not_le].
Qed.

Lemma Qltb_ge x y : Qltb x y = false <-> y <= x.
Proof.
  unfold Qltb. rewrite negb_false_iff. apply Qle_bool_iff.
Qed.

Lemma Qle_bool_gt x y : Qle_bool x y = false <-> y < x.
Proof.
  rewrite <- not_true_iff_false, Qle_bool_iff.
  split; [apply Qnot_le_lt | apply Qlt_not_le].
Qed.

(** On a predicate that holds on an initial segment of [0, n) and nowhere
    after it, the search returns the length of that segment, and it never
    runs out of turns. *)
Lemma bsearch_spec (p : nat -> bool) (n : nat) :
  (forall i j, (i <= j < n)%nat -> p j = true -> p i = true) ->
  forall fuel lo hi,
    (hi - lo <= fuel)%nat -> (lo <= hi <= n)%nat ->
    (forall i, (i < lo)%nat -> p i = true) ->
    (forall i, (hi <= i < n)%nat -> p i = false) ->
    let r := bsearch p fuel lo hi in
    (lo <= r <= hi)%nat /\
    (forall i, (i < r)%nat -> p i = true) /\
    (forall i, (r <= i < n)%nat -> p i = false).
Proof.
  intros Hmono fuel.
  induction fuel as [|fuel IH]; intros lo hi Hfuel Hrange Hlo Hhi;
    cbn [bsearch]; cbv zeta.
  - assert (lo = hi) by lia. subst. repeat split; auto; lia.
  - destruct (Nat.ltb_spec lo hi) as [Hlt|Hge].
    + set (mid := (lo + (hi - lo) / 2)%nat).
      assert (Hmid : (lo <= mid < hi)%nat).
      { unfold mid. split; [lia|].
        assert ((hi - lo) / 2 < hi - lo)%nat
          by (apply Nat.div_lt; lia). lia. }
      destruct (p mid) eqn:Hp.
      * destruct (IH (S mid) hi) as (Hr & Ht & Hf); try lia; auto.
        { intros i Hi. apply (Hmono i mid); auto. lia. }
        repeat split; auto; lia.
      * destruct (IH lo mid) as (Hr & Ht & Hf); try lia; auto.
        { intros i Hi. destruct (p i) eqn:Hpi; auto.
          rewrite (Hmono mid i) in Hp; [discriminate | lia | auto]. }
        repeat split; auto; lia.
    + assert (lo = hi) by lia. subst. repeat split; auto; lia.
Qed.

Lemma bsearch_unique (p : nat -> bool) (n r k : nat) :
  (r <= n)%nat -> (k <= n)%nat ->
  (forall i, (i < r)%nat -> p i = true) ->
  (forall i, (r <= i < n)%nat -> p i = false) ->
  (forall i, (i < k)%nat -> p i = true) ->
  (forall i, (k <= i < n)%nat -> p i = false) ->
  r = k.
Proof.
  intros Hr Hk Ht Hf Ht' Hf'.
  destruct (Nat.lt_trichotomy r k) as [H|[H|H]]; auto.
  - specialize (Ht' r H). rewrite Hf in Ht'; [discriminate | lia].
  - specialize (Ht k H). rewrite Hf' in Ht; [discriminate | lia].
Qed.

(** [side='left'] on an increasing array: the number of entries strictly
    below [v]. *)
Lemma searchsorted_left_spec (a : list Q) (v : Q) :
  increasing a ->
  exists r, searchsorted_left a v = Z.of_nat r /\ (r <= length a)%nat /\
    (forall i, (i < r)%nat -> nth i a 0 < v) /\
    (forall i, (r <= i < length a)%nat -> v <= nth i a 0).
Proof.
  intros Hinc. unfold searchsorted_left.
  assert (Hmono : forall i j, (i <= j < length a)%nat ->
            Qltb (nth j a 0) v = true -> Qltb (nth i a 0) v = true).
  { intros i j Hij Hj. apply Qltb_lt in Hj. apply Qltb_lt.
    eapply Qle_lt_trans; [apply (Hinc i j Hij) | exact Hj]. }
  destruct (bsearch_spec _ _ Hmono (length a) 0%nat (length a))
    as (Hr & Ht & Hf); try lia.
  eexists; split; [reflexivity|]. split; [lia|]. split.
  - intros i Hi. apply Qltb_lt. now apply Ht.
  - intros i Hi. apply Qltb_ge. now apply Hf.
Qed.

(** [side='right'] on an increasing array: the number of entries at or
    below [v]. *)
Lemma searchsorted_right_spec (a : list Q) (v : Q) :
  increasing a ->
  exists r, searchsorted_right a v = Z.of_nat r /\ (r <= length a)%nat /\
    (forall i, (i < r)%nat -> nth i a 0 <= v) /\
    (forall i, (r <= i < length a)%nat -> v < nth i a 0).
Proof.
  intros Hinc. unfold searchsorted_right.
  assert (Hmono : forall i j, (i <= j < length a)%nat ->
            Qle_bool (nth j a 0) v = true -> Qle_bool (nth i a 0) v = true).
  { intros i j Hij Hj. apply Qle_bool_iff in Hj. apply Qle_bool_iff.
    eapply Qle_trans; [apply (Hinc i j Hij) | exact Hj]. }
  destruct (bsearch_spec _ _ Hmono (length a) 0%nat (length a))
    as (Hr & Ht & Hf); try lia.
  eexists; split; [reflexivity|]. split; [lia|]. split.
  - intros i Hi. apply Qle_bool_iff. now apply Ht.
  - intros i Hi. apply Qle_bool_gt. now apply Hf.
Qed.

(** ** Preparation *)

Lemma field_kT_inv h tv : field_kT h = Ok tv -> h = ParameterHDU tv.
Proof. destruct h; simpl; congruence. Qed.

Lemma line_rows_inv h rows : line_rows h = Ok rows -> h = LineHDU rows.
Proof. destruct h; simpl; congruence. Qed.

Lemma pyfits_open_inv fs path h :
  pyfits_open fs path = Ok h -> fs path = Some (FitsFile h).
Proof.
  unfold pyfits_open. destruct (fs path) as [[hdus|e c]|]; congruence.
Qed.

Lemma Prepared_view g fs zobs s :
  Prepared g fs zobs s ->
  exists lh ch tv lo hi, PreparedView g fs zobs s lh ch tv lo hi.
Proof.
  intros (root & e0 & e1 & n & vers & tb & o & log & Hinit & Hprep).
  unfold init in Hinit.
  destruct (SpectralModel_init e0 e1 n) as [b|e] eqn:Hb; simpl in Hinit;
    [|discriminate].
  injection Hinit as <-.
  unfold prepare_spectrum, bind, gets, attr, modify, lift, open_table in Hprep.
  cbn [self mylog linefile cocofile] in Hprep.
  destruct (pyfits_open fs _) as [lh|e] eqn:Hlh in Hprep;
    [| destruct e; simpl in Hprep; discriminate].
  cbn in Hprep.
  destruct (pyfits_open fs _) as [ch|e] eqn:Hch in Hprep;
    [| destruct e; simpl in Hprep; discriminate].
  cbn in Hprep.
  destruct (getitem lh 1) as [h1|e] eqn:Hh1; [|discriminate].
  destruct (field_kT h1) as [tv|e] eqn:Htv; [|discriminate].
  apply field_kT_inv in Htv. subst h1.
  cbn in Hprep.
  destruct (np_min _) as [lo|e] eqn:Hlo in Hprep; [|discriminate].
  cbn in Hprep.
  destruct (np_max _) as [hi|e] eqn:Hhi in Hprep; [|discriminate].
  cbn in Hprep.
  destruct (Qeq_bool (1 + zobs) 0) eqn:Hz; [discriminate|].
  injection Hprep as <-.
  exists lh, ch, tv, lo, hi.
  constructor; cbn; auto.
  - now exists e0, e1, n.
  - now apply pyfits_open_inv.
  - now apply pyfits_open_inv.
  - now apply Qeq_bool_neq.
Qed.

Lemma np_linspace_length start stop num a :
  np_linspace start stop num = Ok a ->
  (0 <= num)%Z /\ length a = Z.to_nat num.
Proof.
  unfold np_linspace.
  destruct (Z.ltb_spec num 0) as [H|H]; [discriminate|].
  destruct (Z.to_nat num) as [|[|k]]; intros [= <-]; split; auto.
  cbn [length]. rewrite length_app, length_map, length_seq. simpl. lia.
Qed.

Lemma grid_shape e0 e1 n b :
  SpectralModel_init e0 e1 n = Ok b ->
  nchan b = n /\ (-1 <= n)%Z /\
  length (ebins b) = Z.to_nat (n + 1) /\
  length (de b) = Z.to_nat n /\
  length (emid b) = Z.to_nat n.
Proof.
  unfold SpectralModel_init.
  destruct (np_linspace e0 e1 (n + 1)) as [eb|e] eqn:Heb; [|discriminate].
  apply np_linspace_length in Heb. destruct Heb as [Hn Hlen].
  cbn [rbind]. intros [= <-]. cbn [nchan ebins de emid].
  rewrite length_map, np_diff_length. unfold vadd.
  rewrite map2_length, tl_length, removelast_len, Hlen.
  repeat split; lia.
Qed.

Lemma np_min_nonempty a lo : np_min a = Ok lo -> a <> [].
Proof. destruct a; simpl; congruence. Qed.

(** A prepared object has at least the one edge that [wvbins.min()] needs,
    so its channel count is not negative and its arrays have the lengths
    that [__init__] gave them. *)
Lemma prepared_shape g fs zobs s lh ch tv lo hi :
  PreparedView g fs zobs s lh ch tv lo hi ->
  let n := nchan (base (self s)) in
  (0 <= n)%Z /\
  length (ebins (base (self s))) = S (Z.to_nat n) /\
  length (de (base (self s))) = Z.to_nat n /\
  length (emid (base (self s))) = Z.to_nat n.
Proof.
  intros V n.
  destruct (pv_grid _ _ _ _ _ _ _ _ _ V) as (e0 & e1 & n0 & Hb).
  apply grid_shape in Hb. destruct Hb as (Hn & Hge & He & Hd & Hm).
  fold n in Hn. subst n0.
  pose proof (np_min_nonempty _ _ (pv_min _ _ _ _ _ _ _ _ _ V)) as Hne.
  rewrite (pv_wvbins _ _ _ _ _ _ _ _ _ V) in Hne.
  assert (Hlen : length (ebins (base (self s))) <> 0%nat).
  { intros H0. apply Hne. apply length_zero_iff_nil in H0.
    now rewrite H0. }
  repeat split; try lia.
Qed.

(** ** Methods that only read *)

Lemma readonly_ret {X} (x : X) : readonly (ret x).
Proof. intros s; reflexivity. Qed.

Lemma readonly_raise {X} e : readonly (@raise X e).
Proof. intros s; reflexivity. Qed.

Lemma readonly_lift {X} (r : result X) : readonly (lift r).
Proof. intros s; reflexivity. Qed.

Lemma readonly_gets {X} (f : t -> X) : readonly (gets f).
Proof. intros s; reflexivity. Qed.

Lemma readonly_attr {X} (f : t -> option X) : readonly (attr f).
Proof. intros s; unfold attr; destruct (f (self s)); reflexivity. Qed.

Lemma readonly_bind {X Y} (m : M X) (k : X -> M Y) :
  readonly m -> (forall x, readonly (k x)) -> readonly (bind m k).
Proof.
  intros Hm Hk s. unfold bind. specialize (Hm s).
  destruct (m s) as [[x|e] s']; simpl in *; subst; auto. apply Hk.
Qed.

Create HintDb readonly.
#[local] Hint Resolve readonly_ret readonly_raise readonly_lift readonly_gets
  readonly_attr : readonly.

Ltac readonly_steps :=
  repeat (apply readonly_bind; [auto with readonly | intros ]);
  auto with readonly.

Lemma readonly_line_spectrum g elem tindex :
  readonly (line_spectrum g elem tindex).
Proof.
  unfold line_spectrum. readonly_steps.
  match goal with |- readonly (if ?b then _ else _) => destruct b end;
    readonly_steps.
Qed.

Lemma readonly_curve_on_grid n e c : readonly (curve_on_grid n e c).
Proof. unfold curve_on_grid. readonly_steps. Qed.

Lemma readonly_make_spectrum g elem tindex :
  readonly (_make_spectrum g elem tindex).
Proof.
  unfold _make_spectrum.
  repeat (apply readonly_bind;
          [auto using readonly_line_spectrum with readonly | intros ]).
  match goal with |- readonly (match ?o with _ => _ end) => destruct o end;
    auto with readonly.
  repeat (apply readonly_bind;
          [auto using readonly_curve_on_grid with readonly | intros ]).
  auto with readonly.
Qed.

Lemma readonly_accumulate g elems tindex l r :
  readonly (accumulate g elems tindex l r).
Proof.
  revert l r; induction elems as [|e rest IH]; intros l r; simpl.
  - auto with readonly.
  - repeat (apply readonly_bind;
            [auto using readonly_make_spectrum | intros ]).
    apply IH.
Qed.

Lemma readonly_get_spectrum g kT : readonly (get_spectrum g kT).
Proof.
  unfold get_spectrum. readonly_steps.
  match goal with |- readonly (if ?b then _ else _) => destruct b end;
    auto with readonly.
  repeat (apply readonly_bind;
          [auto using readonly_accumulate with readonly | intros ]).
  auto with readonly.
Qed.

Lemma readonly_run {X} (m : M X) s : readonly m -> m s = (fst (m s), s).
Proof.
  intros H. specialize (H s). destruct (m s); simpl in *; now subst.
Qed.

(** ** Indexing *)

Lemma py_index_nat n i : (i < n)%nat -> py_index n (Z.of_nat i) = Some i.
Proof.
  intros H. unfold py_index.
  destruct (Z.leb_spec 0 (Z.of_nat i)); [|lia].
  destruct (Z.ltb_spec (Z.of_nat i) (Z.of_nat n)); [|lia].
  simpl. now rewrite Nat2Z.id.
Qed.


Lemma py_index_bound n i k : py_index n i = Some k -> (k < n)%nat.
Proof.
  unfold py_index.
  destruct (Z.leb_spec 0 i); destruct (Z.ltb_spec i (Z.of_nat n)); simpl;
    try (intros [= <-]; lia);
    destruct (Z.leb_spec (- Z.of_nat n) i); destruct (Z.ltb_spec i 0); simpl;
    try discriminate; intros [= <-]; lia.
Qed.

Lemma getitem_nat (a : list Q) i :
  (i < length a)%nat -> getitem a (Z.of_nat i) = Ok (nth i a 0).
Proof.
  intros H. unfold getitem. rewrite py_index_nat by auto.
  destruct (nth_error a i) as [x|] eqn:Hx.
  - now rewrite (nth_error_nth _ _ 0 Hx).
  - apply nth_error_None in Hx. lia.
Qed.

(** ** The two outcomes of [get_spectrum] *)

Lemma get_spectrum_outside g s kT tv :
  Tvals (self s) = Some tv ->
  (0 <= nchan (base (self s)))%Z ->
  (temperature_index tv kT >= Z.of_nat (length tv) - 1
   \/ temperature_index tv kT < 0)%Z ->
  let zeros := repeat 0 (Z.to_nat (nchan (base (self s)))) in
  get_spectrum g kT s = (Ok (zeros, zeros), s).
Proof.
  intros HT Hn Hout zeros.
  unfold get_spectrum, bind, gets, lift, attr, ret. cbv beta iota.
  rewrite HT, (np_zeros_ok _ Hn). cbv beta iota.
  match goal with |- context [if ?b then _ else _] =>
    assert (Hb : b = true) end.
  { apply orb_true_iff. destruct Hout as [H|H]; [left | right].
    - apply Z.geb_le. lia.
    - apply Z.ltb_lt. lia. }
  now rewrite Hb.
Qed.

Lemma accumulate_sums g elems ti s :
  forall l r L R,
    sum_spectra g elems (ti + 2) l s = Ok L ->
    sum_spectra g elems (ti + 3) r s = Ok R ->
    accumulate g elems ti l r s = (Ok (L, R), s).
Proof.
  induction elems as [|e rest IH]; intros l r L R HL HR; simpl in *.
  - now injection HL as <-; injection HR as <-.
  - unfold bind.
    rewrite (readonly_run _ s (readonly_make_spectrum g e (ti + 2))).
    destruct (fst (_make_spectrum g e (ti + 2) s)) as [vl|]; [|discriminate].
    rewrite (readonly_run _ s (readonly_make_spectrum g e (ti + 3))).
    destruct (fst (_make_spectrum g e (ti + 3) s)) as [vr|]; [|discriminate].
    now apply IH.
Qed.

Lemma get_spectrum_bracket g s kT tv (i : nat) cl cr ml mr :
  Tvals (self s) = Some tv ->
  dTvals (self s) = Some (np_diff tv) ->
  (0 <= nchan (base (self s)))%Z ->
  (S i < length tv)%nat ->
  temperature_index tv kT = Z.of_nat i ->
  let zeros := repeat 0 (Z.to_nat (nchan (base (self s)))) in
  let dT := (kT - nth i tv 0) / (nth (S i) tv 0 - nth i tv 0) in
  sum_spectra g (cosmic_elem (self s)) (Z.of_nat i + 2) zeros s = Ok cl ->
  sum_spectra g (cosmic_elem (self s)) (Z.of_nat i + 3) zeros s = Ok cr ->
  sum_spectra g (metal_elem (self s)) (Z.of_nat i + 2) zeros s = Ok ml ->
  sum_spectra g (metal_elem (self s)) (Z.of_nat i + 3) zeros s = Ok mr ->
  get_spectrum g kT s = (Ok (blend cl cr dT, blend ml mr dT), s).
Proof.
  intros HT HdT Hn Hi Hti zeros dT Hcl Hcr Hml Hmr.
  unfold zeros, dT in *. clear zeros dT.
  unfold get_spectrum, bind, gets, lift, attr, ret. cbv beta iota.
  rewrite HT, (np_zeros_ok _ Hn). cbv beta iota.
  rewrite Hti.
  match goal with |- context [if ?b then _ else _] =>
    assert (Hb : b = false) end.
  { apply orb_false_iff. split.
    - rewrite Z.geb_leb. apply Z.leb_gt. lia.
    - apply Z.ltb_ge. lia. }
  rewrite Hb.
  rewrite getitem_nat by lia. rewrite HdT. cbv beta iota.
  rewrite getitem_nat by (rewrite np_diff_length; lia).
  rewrite (accumulate_sums _ _ _ _ _ _ _ _ Hcl Hcr). cbv beta iota.
  rewrite (accumulate_sums _ _ _ _ _ _ _ _ Hml Hmr). cbv beta iota.
  cbn [fst snd]. rewrite nth_np_diff by lia. reflexivity.
Qed.

(** ** The temperature lookup *)

Lemma searchsorted_left_count (a : list Q) (v : Q) (r : nat) :
  (r <= length a)%nat ->
  (forall i, (i < r)%nat -> nth i a 0 < v) ->
  (forall i, (r <= i < length a)%nat -> v <= nth i a 0) ->
  searchsorted_left a v = Z.of_nat r.
Proof.
  intros Hr Hlt Hge. unfold searchsorted_left. f_equal.
  set (p := fun i => Qltb (nth i a 0) v).
  assert (Ht : forall i, (i < r)%nat -> p i = true).
  { intros i Hi. apply Qltb_lt. auto. }
  assert (Hf : forall i, (r <= i < length a)%nat -> p i = false).
  { intros i Hi. apply Qltb_ge. auto. }
  assert (Hmono : forall i j, (i <= j < length a)%nat ->
            p j = true -> p i = true).
  { intros i j Hij Hj. apply Ht.
    destruct (Nat.lt_ge_cases j r); [lia|].
    rewrite Hf in Hj by lia. discriminate. }
  destruct (bsearch_spec p _ Hmono (length a) 0%nat (length a))
    as (Hb & Ht' & Hf'); try lia.
  apply (bsearch_unique p (length a)); auto; lia.
Qed.

Lemma searchsorted_right_count (a : list Q) (v : Q) (r : nat) :
  (r <= length a)%nat ->
  (forall i, (i < r)%nat -> nth i a 0 <= v) ->
  (forall i, (r <= i < length a)%nat -> v < nth i a 0) ->
  searchsorted_right a v = Z.of_nat r.
Proof.
  intros Hr Hle Hgt. unfold searchsorted_right. f_equal.
  set (p := fun i => Qle_bool (nth i a 0) v).
  assert (Ht : forall i, (i < r)%nat -> p i = true).
  { intros i Hi. apply Qle_bool_iff. auto. }
  assert (Hf : forall i, (r <= i < length a)%nat -> p i = false).
  { intros i Hi. apply Qle_bool_gt. auto. }
  assert (Hmono : forall i j, (i <= j < length a)%nat ->
            p j = true -> p i = true).
  { intros i j Hij Hj. apply Ht.
    destruct (Nat.lt_ge_cases j r); [lia|].
    rewrite Hf in Hj by lia. discriminate. }
  destruct (bsearch_spec p _ Hmono (length a) 0%nat (length a))
    as (Hb & Ht' & Hf'); try lia.
  apply (bsearch_unique p (length a)); auto; lia.
Qed.

Lemma Forall_nth_Q (P : Q -> Prop) (a : list Q) :
  Forall P a -> forall i, (i < length a)%nat -> P (nth i a 0).
Proof. intros H i Hi. rewrite Forall_forall in H. apply H, nth_In, Hi. Qed.

Lemma temperature_index_below tv kT :
  Forall (fun T => kT <= T) tv -> temperature_index tv kT = (-1)%Z.
Proof.
  intros H. unfold temperature_index.
  rewrite (searchsorted_left_count tv kT 0).
  - reflexivity.
  - lia.
  - intros i Hi. lia.
  - intros i Hi. apply (Forall_nth_Q _ _ H). lia.
Qed.

Lemma temperature_index_above tv kT :
  Forall (fun T => T < kT) tv ->
  temperature_index tv kT = (Z.of_nat (length tv) - 1)%Z.
Proof.
  intros H. unfold temperature_index.
  rewrite (searchsorted_left_count tv kT (length tv)).
  - reflexivity.
  - lia.
  - intros i Hi. now apply (Forall_nth_Q _ _ H).
  - intros i Hi. lia.
Qed.

Lemma temperature_index_bracket tv kT (i : nat) :
  increasing tv -> (S i < length tv)%nat ->
  nth i tv 0 < kT -> kT <= nth (S i) tv 0 ->
  temperature_index tv kT = Z.of_nat i.
Proof.
  intros Hinc Hi Hlo Hhi. unfold temperature_index.
  rewrite (searchsorted_left_count tv kT (S i)).
  - lia.
  - lia.
  - intros j Hj. eapply Qle_lt_trans; [apply (Hinc j i); lia | exact Hlo].
  - intros j Hj. eapply Qle_trans; [exact Hhi | apply (Hinc (S i) j); lia].
Qed.

(** ** Claims on the temperature lookup *)

(** C1 as the code has it.  On a prepared model, a query temperature at or
    below every tabulated temperature (so at or below the minimum), or
    strictly above every one of them (so strictly above the maximum), makes
    [get_spectrum] return two all-zero arrays of [nchan] entries, without
    error and without touching the object. *)
Theorem get_spectrum_outside_table g fs zobs s kT tv :
  Prepared g fs zobs s ->
  Tvals (self s) = Some tv ->
  Forall (fun T => kT <= T) tv \/ Forall (fun T => T < kT) tv ->
  let zeros := repeat 0 (Z.to_nat (nchan (base (self s)))) in
  (0 <= nchan (base (self s)))%Z /\
  get_spectrum g kT s = (Ok (zeros, zeros), s).
Proof.
  intros HP HT Hout zeros.
  destruct (Prepared_view _ _ _ _ HP) as (lh & ch & tv' & lo & hi & V).
  destruct (prepared_shape _ _ _ _ _ _ _ _ _ V) as (Hn & _).
  split; [exact Hn|].
  apply (get_spectrum_outside g s kT tv HT Hn).
  destruct Hout as [H|H].
  - right. rewrite (temperature_index_below _ _ H). lia.
  - left. rewrite (temperature_index_above _ _ H). lia.
Qed.

Lemma increasingb_spec a : increasingb a = true -> increasing a.
Proof.
  induction a as [|x [|y rest] IH]; intros H i j Hij; simpl in Hij.
  - lia.
  - assert (i = 0%nat /\ j = 0%nat) as [-> ->] by lia. apply Qle_refl.
  - cbn [increasingb] in H. apply andb_true_iff in H. destruct H as [Hxy Hr].
    apply Qle_bool_iff in Hxy. specialize (IH Hr).
    destruct j as [|j]; [assert (i = 0%nat) as -> by lia; apply Qle_refl|].
    destruct i as [|i].
    + eapply Qle_trans; [exact Hxy|].
      apply (IH 0%nat j). simpl. lia.
    + apply (IH i j). simpl. lia.
Qed.

(** ** The example tables *)

Lemma example_prepared_rest :
  Prepared example_globals example_fs 0 (example_state 0).
Proof.
  exists "/atomdb"%string, 1, 5, 4%Z, "2.0.2"%string, false, example_object, [].
  split; vm_compute; reflexivity.
Qed.

Lemma example_prepared_redshifted :
  Prepared example_globals example_fs 1 (example_state 1).
Proof.
  exists "/atomdb"%string, 1, 5, 4%Z, "2.0.2"%string, false, example_object, [].
  split; vm_compute; reflexivity.
Qed.

(** Below the table: half of the lowest tabulated temperature. *)
Lemma get_spectrum_outside_table_witness :
  let s := example_state 0 in
  let zeros := repeat 0 (Z.to_nat (nchan (base (self s)))) in
  (0 <= nchan (base (self s)))%Z /\
  get_spectrum example_globals (1 # 2) s = (Ok (zeros, zeros), s).
Proof.
  apply (get_spectrum_outside_table example_globals example_fs 0
           (example_state 0) (1 # 2) [1; 2; 3]).
  - exact example_prepared_rest.
  - reflexivity.
  - left. repeat constructor; discriminate.
Defined.

(** C1 fails as stated at the maximum tabulated temperature: with the grid
    [1, 2, 3] the query [kT = 3] is interpolated between the last two
    blocks and returns the lines of the last one. *)
Lemma get_spectrum_at_maximum_not_zero :
  Prepared example_globals example_fs 0 (example_state 0) /\
  Tvals (self (example_state 0)) = Some [1; 2; 3] /\
  fst (get_spectrum example_globals 3 (example_state 0))
  = Ok ([2; 0; 0; 0], [0; 0; 0; 0]).
Proof.
  split; [exact example_prepared_rest|].
  split; vm_compute; reflexivity.
Qed.

(** ** Array lengths along [_make_spectrum] *)

(** Case analysis on the innermost scrutinee of a run that returned. *)
Ltac chew H :=
  repeat (cbv beta iota in H; cbn [fst snd] in H;
          match type of H with
          | context [match ?x with _ => _ end] =>
              lazymatch x with
              | context [match _ with _ => _ end] => fail
              | _ => destruct x eqn:?; try discriminate
              end
          end).

Lemma vscale_length a c : length (vscale a c) = length a.
Proof. apply length_map. Qed.

Lemma add_at_length k a vec : length (add_at k a vec) = length vec.
Proof.
  revert k; induction vec as [|x rest IH]; intros [|k]; simpl; auto.
Qed.

Lemma iadd_item_length vec i a out :
  iadd_item vec i a = Ok out -> length out = length vec.
Proof.
  unfold iadd_item. destruct (py_index _ i); [|discriminate].
  intros [= <-]. apply add_at_length.
Qed.

Lemma deposit_length ie : forall amp vec out,
  deposit vec ie amp = Ok out -> length out = length vec.
Proof.
  induction ie as [|i ie IH]; intros [|a amp] vec out; simpl;
    try (intros [= <-]; reflexivity).
  destruct (iadd_item vec i a) as [vec'|] eqn:Hi; simpl; [|discriminate].
  intros H. rewrite (IH _ _ _ H). now apply iadd_item_length in Hi.
Qed.

Lemma broaden_length g edges E0 : forall sig amp vec,
  length edges = S (length vec) ->
  length (broaden g vec edges E0 sig amp) = length vec.
Proof.
  induction E0 as [|E E0 IH]; intros [|s sig] [|a amp] vec Hlen; simpl; auto.
  rewrite IH; unfold vadd;
    rewrite map2_length, vscale_length, np_diff_length, length_map; lia.
Qed.

Lemma line_spectrum_length g s elem block v :
  (0 <= nchan (base (self s)))%Z ->
  length (ebins (base (self s))) = S (Z.to_nat (nchan (base (self s)))) ->
  fst (line_spectrum g elem block s) = Ok v ->
  length v = Z.to_nat (nchan (base (self s))).
Proof.
  intros Hn He H.
  unfold line_spectrum, bind, gets, attr, lift, ret in H.
  rewrite (np_zeros_ok _ Hn) in H.
  chew H.
  - injection H as <-. rewrite broaden_length; rewrite repeat_length; auto.
  - apply deposit_length in H. now rewrite repeat_length in H.
Qed.

Lemma np_interp_length x xp fp y :
  np_interp x xp fp = Ok y -> length y = length x.
Proof.
  unfold np_interp. destruct (length xp =? 0)%nat; [discriminate|].
  destruct (negb _); [discriminate|]. intros [= <-]. apply length_map.
Qed.

Lemma curve_on_grid_length s n e c v :
  length (de (base (self s))) = length (emid (base (self s))) ->
  fst (curve_on_grid n e c s) = Ok v ->
  length v = length (emid (base (self s))).
Proof.
  intros Hlen H.
  unfold curve_on_grid, bind, gets, attr, lift, ret in H.
  chew H. injection H as <-.
  match goal with Hy : np_interp _ _ _ = Ok _ |- _ =>
    apply np_interp_length in Hy; unfold vmul; rewrite map2_length, Hy end.
  lia.
Qed.

Lemma make_spectrum_length g s elem block v :
  (0 <= nchan (base (self s)))%Z ->
  length (ebins (base (self s))) = S (Z.to_nat (nchan (base (self s)))) ->
  length (de (base (self s))) = Z.to_nat (nchan (base (self s))) ->
  length (emid (base (self s))) = Z.to_nat (nchan (base (self s))) ->
  fst (_make_spectrum g elem block s) = Ok v ->
  length v = Z.to_nat (nchan (base (self s))).
Proof.
  intros Hn He Hd Hm H.
  unfold _make_spectrum, bind, gets, attr, lift, ret in H.
  rewrite (np_zeros_ok _ Hn) in H. cbv beta iota in H.
  rewrite (readonly_run _ s (readonly_line_spectrum g elem block)) in H.
  destruct (fst (line_spectrum g elem block s)) as [vec|] eqn:Hvec;
    [|discriminate].
  apply line_spectrum_length in Hvec; auto.
  cbv beta iota in H.
  destruct (coco_handle (self s)) as [ch|]; [|discriminate].
  cbv beta iota in H.
  destruct (getitem ch block) as [chdu|]; [|discriminate].
  destruct (coco_rows chdu) as [crows|]; [|discriminate].
  destruct (find _ crows) as [row|].
  - rewrite (readonly_run _ s (readonly_curve_on_grid _ _ _)) in H.
    destruct (fst (curve_on_grid (N_Cont row) _ _ s)) as [cont|] eqn:Hc;
      [|discriminate].
    rewrite (readonly_run _ s (readonly_curve_on_grid _ _ _)) in H.
    destruct (fst (curve_on_grid (N_Pseudo row) _ _ s)) as [ps|] eqn:Hp;
      [|discriminate].
    apply curve_on_grid_length in Hc; [|lia].
    apply curve_on_grid_length in Hp; [|lia].
    injection H as <-. unfold vadd.
    rewrite !map2_length, repeat_length. lia.
  - injection H as <-. unfold vadd. rewrite map2_length, repeat_length. lia.
Qed.

Lemma sum_spectra_length g s block elems : forall acc out,
  (0 <= nchan (base (self s)))%Z ->
  length (ebins (base (self s))) = S (Z.to_nat (nchan (base (self s)))) ->
  length (de (base (self s))) = Z.to_nat (nchan (base (self s))) ->
  length (emid (base (self s))) = Z.to_nat (nchan (base (self s))) ->
  length acc = Z.to_nat (nchan (base (self s))) ->
  sum_spectra g elems block acc s = Ok out ->
  length out = Z.to_nat (nchan (base (self s))).
Proof.
  induction elems as [|e rest IH]; intros acc out Hn He Hd Hm Hacc H;
    simpl in H.
  - now injection H as <-.
  - destruct (fst (_make_spectrum g e block s)) as [v|] eqn:Hv;
      [|discriminate].
    apply make_spectrum_length in Hv; auto.
    apply (IH (vadd acc v) out); auto.
    unfold vadd. rewrite map2_length. lia.
Qed.

(** With [dT == 1] the blend is its right operand. *)
Lemma blend_right l : forall r dT,
  length l = length r -> dT == 1 -> Forall2 Qeq (blend l r dT) r.
Proof.
  induction l as [|x l IH]; intros [|y r] dT Hlen HdT; simpl in *;
    try discriminate; constructor.
  - rewrite HdT. ring.
  - apply IH; auto.
Qed.

Lemma Forall_of_nth (P : Q -> Prop) (a : list Q) :
  (forall j, (j < length a)%nat -> P (nth j a 0)) -> Forall P a.
Proof.
  intros H. apply Forall_forall. intros x Hx.
  destruct (In_nth _ _ 0 Hx) as (j & Hj & <-). auto.
Qed.

(** C2 as the code has it.  On a prepared model with an increasing grid,
    let [kT] equal the grid temperature [T[i]].  If [i = 0] the lookup
    gives [tindex = -1] and both components are all zero.  If [i = k+1] and
    [T[k] < T[i]], the lookup gives [tindex = k], the fraction [dT] is 1,
    and each component equals the [_make_spectrum] sum at table block
    [i+2], which the code reaches as the right block [tindex+3] with weight
    1, the left block [tindex+2] getting weight 0. *)
Theorem get_spectrum_on_grid_point g fs zobs s tv kT (i : nat) :
  Prepared g fs zobs s ->
  Tvals (self s) = Some tv ->
  increasing tv ->
  (i < length tv)%nat ->
  kT == nth i tv 0 ->
  let zeros := repeat 0 (Z.to_nat (nchan (base (self s)))) in
  (i = 0%nat ->
     temperature_index tv kT = (-1)%Z /\
     get_spectrum g kT s = (Ok (zeros, zeros), s)) /\
  (forall k cl cr ml mr,
     i = S k -> nth k tv 0 < nth i tv 0 ->
     sum_spectra g (cosmic_elem (self s)) (Z.of_nat k + 2) zeros s = Ok cl ->
     sum_spectra g (cosmic_elem (self s)) (Z.of_nat i + 2) zeros s = Ok cr ->
     sum_spectra g (metal_elem (self s)) (Z.of_nat k + 2) zeros s = Ok ml ->
     sum_spectra g (metal_elem (self s)) (Z.of_nat i + 2) zeros s = Ok mr ->
     temperature_index tv kT = Z.of_nat k /\
     (kT - nth k tv 0) / (nth (S k) tv 0 - nth k tv 0) == 1 /\
     exists c m,
       get_spectrum g kT s = (Ok (c, m), s) /\
       Forall2 Qeq c cr /\ Forall2 Qeq m mr).
Proof.
  intros HP HT Hinc Hi HkT zeros.
  destruct (Prepared_view _ _ _ _ HP) as (lh & ch & tv' & lo & hi & V).
  destruct (prepared_shape _ _ _ _ _ _ _ _ _ V) as (Hn & He & Hd & Hm).
  pose proof (pv_dTvals _ _ _ _ _ _ _ _ _ V) as HdT.
  pose proof (pv_Tvals _ _ _ _ _ _ _ _ _ V) as HT'.
  rewrite HT in HT'. injection HT' as <-.
  split.
  - intros ->.
    assert (Hall : Forall (fun T => kT <= T) tv).
    { apply Forall_of_nth. intros j Hj. rewrite HkT. apply Hinc. lia. }
    split; [now apply temperature_index_below|].
    apply (get_spectrum_outside g s kT tv HT Hn).
    right. rewrite (temperature_index_below _ _ Hall). lia.
  - intros k cl cr ml mr -> Hlt Hcl Hcr Hml Hmr.
    replace (Z.of_nat (S k) + 2)%Z with (Z.of_nat k + 3)%Z in Hcr, Hmr by lia.
    assert (Hti : temperature_index tv kT = Z.of_nat k).
    { apply temperature_index_bracket; auto.
      - now rewrite HkT.
      - rewrite HkT. apply Qle_refl. }
    assert (Hone : (kT - nth k tv 0) / (nth (S k) tv 0 - nth k tv 0) == 1).
    { rewrite HkT. field. lra. }
    split; [exact Hti|]. split; [exact Hone|].
    eexists _, _. split.
    + now apply (get_spectrum_bracket g s kT tv k cl cr ml mr).
    + split; apply blend_right; auto.
      * rewrite (sum_spectra_length _ _ _ _ _ _ Hn He Hd Hm
                   (repeat_length _ _) Hcl).
        now rewrite (sum_spectra_length _ _ _ _ _ _ Hn He Hd Hm
                       (repeat_length _ _) Hcr).
      * rewrite (sum_spectra_length _ _ _ _ _ _ Hn He Hd Hm
                   (repeat_length _ _) Hml).
        now rewrite (sum_spectra_length _ _ _ _ _ _ Hn He Hd Hm
                       (repeat_length _ _) Hmr).
Qed.

(** The middle temperature of the example grid: the result is the sum at
    table block 3. *)
Lemma get_spectrum_on_grid_point_witness :
  let s := example_state 0 in
  temperature_index [1; 2; 3] 2 = 0%Z /\
  (2 - nth 0 [1; 2; 3] 0) / (nth 1 [1; 2; 3] 0 - nth 0 [1; 2; 3] 0) == 1 /\
  exists c m,
    get_spectrum example_globals 2 s = (Ok (c, m), s) /\
    Forall2 Qeq c (example_sum 0 (cosmic_elem (self s)) 3) /\
    Forall2 Qeq m (example_sum 0 (metal_elem (self s)) 3).
Proof.
  refine (proj2 (get_spectrum_on_grid_point example_globals example_fs 0
                   (example_state 0) [1; 2; 3] 2 1 _ _ _ _ _)
            0%nat (example_sum 0 (cosmic_elem (self (example_state 0))) 2) _
            (example_sum 0 (metal_elem (self (example_state 0))) 2) _
            _ _ _ _ _ _).
  - exact example_prepared_rest.
  - reflexivity.
  - apply increasingb_spec. reflexivity.
  - simpl. lia.
  - reflexivity.
  - reflexivity.
  - reflexivity.
  - vm_compute. reflexivity.
  - vm_compute. reflexivity.
  - vm_compute. reflexivity.
  - vm_compute. reflexivity.
Defined.

(** C2 fails as stated.  At [kT = T[0] = 1], a grid temperature that is not
    the last, the result is all zero although the sum at the left table
    block 2 is not; and at [kT = T[1] = 2] the lookup gives [tindex = 0],
    not 1, and the fraction is 1, not 0. *)
Lemma get_spectrum_at_grid_point_not_left :
  let s := example_state 0 in
  Prepared example_globals example_fs 0 s /\
  Tvals (self s) = Some [1; 2; 3] /\
  fst (get_spectrum example_globals 1 s) = Ok ([0; 0; 0; 0], [0; 0; 0; 0]) /\
  sum_spectra example_globals (cosmic_elem (self s)) 2 (repeat 0 4) s
  = Ok (example_sum 0 (cosmic_elem (self s)) 2) /\
  ~ nth 1 (example_sum 0 (cosmic_elem (self s)) 2) 0 == 0 /\
  temperature_index [1; 2; 3] 2 = 0%Z /\
  ~ (2 - nth 0 [1; 2; 3] 0) / (nth 1 [1; 2; 3] 0 - nth 0 [1; 2; 3] 0) == 0.
Proof.
  split; [exact example_prepared_rest|].
  repeat split; try (vm_compute; reflexivity);
    intros H; vm_compute in H; discriminate.
Qed.

(** ** Lines without broadening *)

Lemma nth_add_at k a vec j :
  (k < length vec)%nat ->
  nth j (add_at k a vec) 0
  = if (k =? j)%nat then nth j vec 0 + a else nth j vec 0.
Proof.
  revert k j; induction vec as [|x rest IH]; intros [|k] [|j] H;
    simpl in *; try lia; auto.
  apply IH. lia.
Qed.

Lemma select_lines_In elem lo hi rows r :
  In r (select_lines elem lo hi rows) <->
  In r rows /\ element r = elem /\ lo < lambda r /\ lambda r < hi.
Proof.
  unfold select_lines. rewrite filter_In, !andb_true_iff, !Qltb_lt, Z.eqb_eq.
  tauto.
Qed.

(** The loop adds every amplitude to one entry: if no index is out of
    range it returns, and entry [j] has grown by the amplitudes of the
    lines whose index is [j]. *)
Lemma deposit_spec (chan : LineRow -> Z) sel : forall vec,
  (forall r, In r sel -> py_index (length vec) (chan r) <> None) ->
  exists out,
    deposit vec (map chan sel) (map epsilon sel) = Ok out /\
    length out = length vec /\
    forall j, (j < length vec)%nat ->
      nth j out 0 == nth j vec 0 + amplitude_in (length vec) chan j sel.
Proof.
  induction sel as [|r sel IH]; intros vec Hok.
  - exists vec. split; [reflexivity|]. split; [reflexivity|].
    intros j _. unfold amplitude_in. simpl. ring.
  - simpl. unfold iadd_item.
    destruct (py_index (length vec) (chan r)) as [k|] eqn:Hk;
      [|exfalso; apply (Hok r); [now left | exact Hk]].
    cbn [rbind].
    destruct (IH (add_at k (epsilon r) vec)) as (out & Hout & Hlen & Hnth).
    { rewrite add_at_length. intros r' Hr'. apply Hok. now right. }
    rewrite add_at_length in *.
    exists out. split; [exact Hout|]. split; [exact Hlen|].
    intros j Hj. rewrite (Hnth j Hj).
    rewrite nth_add_at by (eapply py_index_bound; eauto).
    unfold amplitude_in. cbn [filter]. rewrite Hk.
    destruct (k =? j)%nat; cbn [map fold_right]; ring.
Qed.

Lemma line_spectrum_unbroadened g s elem block lh rows lo hi sf :
  (0 <= nchan (base (self s)))%Z ->
  thermal_broad (self s) = false ->
  line_handle (self s) = Some lh ->
  getitem lh block = Ok (LineHDU rows) ->
  minlam (self s) = Some lo ->
  maxlam (self s) = Some hi ->
  scale_factor (self s) = Some sf ->
  let sel := select_lines elem lo hi rows in
  line_spectrum g elem block s
  = (deposit (repeat 0 (Z.to_nat (nchan (base (self s)))))
       (map (fun r => channel_of (ebins (base (self s))) (line_energy g sf r))
            sel)
       (map epsilon sel), s).
Proof.
  intros Hn Htb Hlh Hblock Hlo Hhi Hsf sel. unfold sel.
  unfold line_spectrum, bind, gets, attr, lift, ret. cbv beta iota.
  rewrite Hlh, Hblock. cbn [line_rows]. rewrite Hlo, Hhi.
  rewrite (np_zeros_ok _ Hn), Hsf, Htb. cbv beta iota.
  now rewrite map_map.
Qed.

(** Where the search puts an energy that is not below the first edge. *)
Lemma channel_of_bin (edges : list Q) (E0 : Q) :
  increasing edges -> (0 < length edges)%nat -> nth 0 edges 0 <= E0 ->
  exists k, channel_of edges E0 = Z.of_nat k /\ (k < length edges)%nat /\
    nth k edges 0 <= E0 /\
    forall j, (k < j < length edges)%nat -> E0 < nth j edges 0.
Proof.
  intros Hinc Hlen H0. unfold channel_of.
  destruct (searchsorted_right_spec edges E0 Hinc) as (r & Hr & Hle & Hin & Hout).
  rewrite Hr.
  destruct r as [|k].
  - exfalso. specialize (Hout 0%nat). apply (Qlt_not_le _ _ (Hout ltac:(lia))).
    exact H0.
  - exists k. split; [lia|]. split; [lia|]. split.
    + apply Hin. lia.
    + intros j Hj. apply Hout. lia.
Qed.

Lemma channel_of_below (edges : list Q) (E0 : Q) :
  increasing edges -> (0 < length edges)%nat -> E0 < nth 0 edges 0 ->
  channel_of edges E0 = (-1)%Z.
Proof.
  intros Hinc Hlen H0. unfold channel_of.
  rewrite (searchsorted_right_count edges E0 0).
  - reflexivity.
  - lia.
  - intros i Hi. lia.
  - intros i Hi. eapply Qlt_le_trans; [exact H0 | apply Hinc; lia].
Qed.

(** C4.  In [_make_spectrum] without thermal broadening, on a prepared
    model and a line block [rows]:
    - the selected lines are exactly the rows of the element whose rest
      wavelength is strictly between [minlam] and [maxlam];
    - the line array is what the loop [vec[i] += a] leaves, run on the
      indices [searchsorted(ebins, E0, 'right') - 1] of the energies
      [E0 = hc/lambda*scale_factor] and on the amplitudes; with no continuum
      record for the element it is the whole result of [_make_spectrum];
    - when no index is out of range the loop returns, and every channel
      holds the sum of the amplitudes of the lines whose index it is, so
      each line went to one channel;
    - on increasing edges, the index of a line whose energy is not below
      the first edge is that of the rightmost edge at or below [E0]. *)
Theorem make_spectrum_lines_unbroadened g fs zobs s elem block lh rows lo hi sf :
  Prepared g fs zobs s ->
  thermal_broad (self s) = false ->
  line_handle (self s) = Some lh ->
  getitem lh block = Ok (LineHDU rows) ->
  minlam (self s) = Some lo ->
  maxlam (self s) = Some hi ->
  scale_factor (self s) = Some sf ->
  let n := Z.to_nat (nchan (base (self s))) in
  let edges := ebins (base (self s)) in
  let sel := select_lines elem lo hi rows in
  let E0 := fun r => hc g / lambda r * sf in
  let chan := fun r => channel_of edges (E0 r) in
  let loop := deposit (repeat 0 n) (map chan sel) (map epsilon sel) in
  (forall r, In r sel <->
     In r rows /\ element r = elem /\ lo < lambda r /\ lambda r < hi) /\
  line_spectrum g elem block s = (loop, s) /\
  (forall ch crows,
     coco_handle (self s) = Some ch ->
     getitem ch block = Ok (CocoHDU crows) ->
     find (fun r => (coco_Z r =? elem)%Z && (rmJ r =? 0)%Z) crows = None ->
     _make_spectrum g elem block s
     = (rbind loop (fun vec => Ok (vadd (repeat 0 n) vec)), s)) /\
  ((forall r, In r sel -> py_index n (chan r) <> None) ->
   exists vec, loop = Ok vec /\ length vec = n /\
     forall j, (j < n)%nat -> nth j vec 0 == amplitude_in n chan j sel) /\
  (increasing edges ->
   forall r, In r sel -> nth 0 edges 0 <= E0 r ->
   exists k, chan r = Z.of_nat k /\ (k < length edges)%nat /\
     nth k edges 0 <= E0 r /\
     forall j, (k < j < length edges)%nat -> E0 r < nth j edges 0).
Proof.
  intros HP Htb Hlh Hblock Hlo Hhi Hsf n edges sel E0 chan loop.
  destruct (Prepared_view _ _ _ _ HP) as (lh' & ch' & tv & lo' & hi' & V).
  destruct (prepared_shape _ _ _ _ _ _ _ _ _ V) as (Hn & He & Hd & Hm).
  assert (Hline : line_spectrum g elem block s = (loop, s)).
  { apply (line_spectrum_unbroadened g s elem block lh rows lo hi sf); auto. }
  split; [intros r; apply select_lines_In|].
  split; [exact Hline|].
  split; [|split].
  - intros ch crows Hch Hcb Hfind.
    unfold _make_spectrum, bind, gets, attr, lift, ret. cbv beta iota.
    rewrite (np_zeros_ok _ Hn). cbv beta iota. rewrite Hline.
    destruct loop as [vec|e]; [|reflexivity].
    cbv beta iota. rewrite Hch, Hcb. cbn [coco_rows]. now rewrite Hfind.
  - intros Hok.
    destruct (deposit_spec chan sel (repeat 0 n)) as (vec & Hv & Hlen & Hnth).
    { now rewrite repeat_length. }
    rewrite repeat_length in *.
    exists vec. split; [exact Hv|]. split; [exact Hlen|].
    intros j Hj. rewrite (Hnth j Hj).
    rewrite nth_repeat. ring.
  - intros Hinc r Hr H0. apply channel_of_bin; auto.
    unfold edges. rewrite He. lia.
Qed.

(** On the example tables at rest, the hydrogen line of block 3 (3.5 keV,
    amplitude 5) goes to channel 2 and nowhere else; the wavelength bounds
    are [hc/5] and [hc/1] as the object stores them. *)
Lemma make_spectrum_lines_unbroadened_witness :
  let s := example_state 0 in
  let rows :=
    [ {| element := 1; lambda := example_wavelength (7 # 2); epsilon := 5 |};
      {| element := 26; lambda := example_wavelength (9 # 2); epsilon := 3 |} ] in
  let sel := select_lines 1 (123984193 # 50000000) (495936772 # 40000000) rows in
  let chan := fun r => channel_of (ebins (base (self s)))
                         (hc example_globals / lambda r * (1 / (1 + 0))) in
  exists vec,
    deposit (repeat 0 (Z.to_nat (nchan (base (self s)))))
      (map chan sel) (map epsilon sel) = Ok vec /\
    length vec = Z.to_nat (nchan (base (self s))) /\
    forall j, (j < Z.to_nat (nchan (base (self s))))%nat ->
      nth j vec 0
      == amplitude_in (Z.to_nat (nchan (base (self s)))) chan j sel.
Proof.
  refine (proj1 (proj2 (proj2 (proj2
            (make_spectrum_lines_unbroadened example_globals example_fs 0
               (example_state 0) 1 3 example_line_file _
               (123984193 # 50000000) (495936772 # 40000000) (1 / (1 + 0))
               _ _ _ _ _ _ _)))) _).
  - exact example_prepared_rest.
  - reflexivity.
  - reflexivity.
  - reflexivity.
  - vm_compute. reflexivity.
  - vm_compute. reflexivity.
  - vm_compute. reflexivity.
  - intros r Hr. vm_compute in Hr. destruct Hr as [<-|[]].
    vm_compute. discriminate.
Defined.

(** ** Lines shifted below the grid *)

Lemma np_min_In a lo : np_min a = Ok lo -> In lo a.
Proof.
  destruct a as [|x rest]; simpl; [discriminate|]. intros [= <-].
  revert x. induction rest as [|y rest IH]; intros x; simpl; auto.
  destruct (IH (if Qltb y x then y else x)) as [H|H]; auto.
  destruct (Qltb y x); auto.
Qed.

(** The edges that [__init__] lays from [emin] to [emax]. *)
Lemma init_grid_edges e0 e1 n0 b :
  SpectralModel_init e0 e1 n0 = Ok b -> e0 < e1 -> (0 < n0)%Z ->
  (forall i j, (i < j <= Z.to_nat n0)%nat ->
     nth i (ebins b) 0 < nth j (ebins b) 0) /\
  nth 0 (ebins b) 0 == e0 /\
  nth (Z.to_nat n0) (ebins b) 0 == e1 /\
  emin b = e0 /\ emax b = e1.
Proof.
  intros Hb Hlt Hn.
  destruct (Z.to_nat n0) as [|k] eqn:Hk; [lia|].
  assert (Hz : n0 = Z.of_nat (S k)) by lia. subst n0.
  rewrite SpectralModel_init_pos in Hb. cbv zeta in Hb.
  assert (Heb : ebins b
                = map (fun i => inject_Z (Z.of_nat i)
                                * ((e1 - e0) / inject_Z (Z.of_nat (S k)))
                                + e0) (seq 0 (S k)) ++ [e1])
    by (injection Hb as <-; reflexivity).
  assert (Hmin : emin b = e0) by (injection Hb as <-; reflexivity).
  assert (Hmax : emax b = e1) by (injection Hb as <-; reflexivity).
  rewrite Heb.
  split; [intros i j Hij; now apply (grid_edge_lt e0 e1 k i j)|].
  split; [rewrite grid_edge_formula by lia; simpl; ring|].
  split; [now rewrite nth_linspace_last | auto].
Qed.

Lemma strictly_increasing_increasing (a : list Q) :
  (forall i j, (i < j < length a)%nat -> nth i a 0 < nth j a 0) ->
  increasing a.
Proof.
  intros H i j Hij. destruct (Nat.eq_dec i j) as [->|Hne].
  - apply Qle_refl.
  - apply Qlt_le_weak, H. lia.
Qed.

Lemma wavelength_bound (hc0 e e1 : Q) :
  0 < hc0 -> 0 < e -> e <= e1 -> hc0 / e1 <= hc0 / e.
Proof.
  intros Hh He Hle.
  apply Qle_shift_div_l; [exact He|].
  setoid_replace (hc0 / e1 * e) with (hc0 * e / e1) by (field; lra).
  apply Qle_shift_div_r; [lra | nra].
Qed.

Lemma init_fields e0 e1 n0 b :
  SpectralModel_init e0 e1 n0 = Ok b ->
  emin b = e0 /\ emax b = e1 /\ nchan b = n0.
Proof.
  unfold SpectralModel_init.
  destruct (np_linspace e0 e1 (n0 + 1)); cbn [rbind]; [|discriminate].
  intros [= <-]. auto.
Qed.

(** ** Repeated queries *)

(** C9.  [get_spectrum] only reads: whatever the state, the object (energy
    grid, wavelength bounds, temperature grid, scale factor, table handles)
    and the log are after the call what they were before it, so a second
    call with the same [kT] runs on the same state and returns the same
    outcome, the same pair of components when the first call returned one. *)
Theorem get_spectrum_repeatable g kT s :
  let first := get_spectrum g kT s in
  let second := get_spectrum g kT (snd first) in
  snd first = s /\
  snd second = s /\
  fst second = fst first /\
  (forall c m, fst first = Ok (c, m) -> fst second = Ok (c, m)).
Proof.
  intros first second.
  assert (H1 : snd first = s) by apply readonly_get_spectrum.
  assert (H2 : second = first) by (unfold second; now rewrite H1).
  rewrite H2. repeat split; auto.
Qed.

(** Two queries at 1.5 keV on the example tables. *)
Lemma get_spectrum_repeatable_witness :
  let s := example_state 0 in
  let first := get_spectrum example_globals (3 # 2) s in
  let second := get_spectrum example_globals (3 # 2) (snd first) in
  snd first = s /\
  snd second = s /\
  fst second = fst first /\
  (forall c m, fst first = Ok (c, m) -> fst second = Ok (c, m)).
Proof.
  exact (get_spectrum_repeatable example_globals (3 # 2) (example_state 0)).
Defined.

(** ** Absorption *)

Lemma Q2R_zero : Q2R 0 = 0%R.
Proof. unfold Q2R. simpl. lra. Qed.

Lemma exp_le_one (x : R) : (x <= 0)%R -> (0 <= exp x <= 1)%R.
Proof.
  intros Hx. split; [left; apply exp_pos|].
  destruct Hx as [Hx | Hx]; [|subst x].
  - left. rewrite <- exp_0. now apply exp_increasing.
  - right. apply exp_0.
Qed.

Lemma absorb_init_fields fs filename nH0 o :
  TableAbsorbModel.init fs filename nH0 = Ok o ->
  exists energy,
    fs filename = Some (H5File energy (TableAbsorbModel.sigma o)) /\
    TableAbsorbModel.nH o = nH0 * inject_Z (10 ^ 22) /\
    nchan (TableAbsorbModel.base o)
    = Z.of_nat (length (TableAbsorbModel.sigma o)).
Proof.
  unfold TableAbsorbModel.init.
  destruct (fs filename) as [[hdus|energy cross]|]; try discriminate.
  destruct (np_min energy) as [e0|]; cbn [rbind]; [|discriminate].
  destruct (np_max energy) as [e1|]; cbn [rbind]; [|discriminate].
  destruct (SpectralModel_init e0 e1 _) as [b|] eqn:Hb; cbn [rbind];
    [|discriminate].
  intros [= <-]. exists energy.
  destruct (init_fields _ _ _ _ Hb) as (_ & _ & Hn).
  cbn [TableAbsorbModel.sigma TableAbsorbModel.nH TableAbsorbModel.base].
  now rewrite Hn.
Qed.

(** C6 as the code has it.  A constructed [TableAbsorbModel] stores the
    column density [nH * 10^22] and the cross sections of the table, one per
    channel, and [get_spectrum] is [exp(-sigma * column_density)] entry by
    entry.  If [nH] and every cross section are nonnegative, every returned
    value lies in [0, 1]; at [nH = 0] every returned value is 1. *)
Theorem absorb_spectrum_beer_lambert fs filename nH0 o :
  TableAbsorbModel.init fs filename nH0 = Ok o ->
  TableAbsorbModel.nH o = nH0 * inject_Z (10 ^ 22) /\
  length (TableAbsorbModel.get_spectrum o)
  = Z.to_nat (nchan (TableAbsorbModel.base o)) /\
  TableAbsorbModel.get_spectrum o
  = map (fun sg => exp (- (Q2R sg * Q2R (TableAbsorbModel.nH o))))
        (TableAbsorbModel.sigma o) /\
  (0 <= nH0 -> Forall (fun sg => 0 <= sg) (TableAbsorbModel.sigma o) ->
   Forall (fun y => 0 <= y <= 1)%R (TableAbsorbModel.get_spectrum o)) /\
  (nH0 == 0 ->
   Forall (fun y => y = 1%R) (TableAbsorbModel.get_spectrum o)).
Proof.
  intros Ho.
  destruct (absorb_init_fields _ _ _ _ Ho) as (energy & _ & HnH & Hn).
  split; [exact HnH|].
  unfold TableAbsorbModel.get_spectrum.
  split; [rewrite length_map, Hn; lia|].
  split.
  { apply map_ext. intros sg. now rewrite Q2R_mult, Q2R_opp, Ropp_mult_distr_l. }
  split.
  - intros HnH0 Hsig. apply Forall_map.
    eapply Forall_impl; [|exact Hsig]. cbv beta. intros sg Hsg.
    apply exp_le_one. rewrite <- Q2R_zero. apply Qle_Rle.
    rewrite HnH.
    assert (Hbig : 0 <= inject_Z (10 ^ 22)).
    { replace 0 with (inject_Z 0) by reflexivity. rewrite <- Zle_Qle.
      apply Z.pow_nonneg. lia. }
    generalize dependent (inject_Z (10 ^ 22)). intros c _ Hc.
    assert (Hprod : 0 <= nH0 * c) by (apply Qmult_le_0_compat; auto).
    setoid_replace (- sg * (nH0 * c)) with (- (sg * (nH0 * c))) by ring.
    assert (Hall : 0 <= sg * (nH0 * c)) by (apply Qmult_le_0_compat; auto).
    lra.
  - intros HnH0. apply Forall_map. apply Forall_forall. intros sg _.
    rewrite <- exp_0. f_equal. rewrite <- Q2R_zero. apply Qeq_eqR.
    rewrite HnH, HnH0. ring.
Qed.

(** The table of three cross sections 1, 2, 3 behind a tenth of the unit
    column density. *)
Lemma absorb_spectrum_beer_lambert_witness :
  exists o,
    TableAbsorbModel.init example_fs "/atomdb/abs_table.h5" (1 # 10) = Ok o /\
    TableAbsorbModel.nH o = (1 # 10) * inject_Z (10 ^ 22) /\
    length (TableAbsorbModel.get_spectrum o)
    = Z.to_nat (nchan (TableAbsorbModel.base o)) /\
    TableAbsorbModel.get_spectrum o
    = map (fun sg => exp (- (Q2R sg * Q2R (TableAbsorbModel.nH o))))
          (TableAbsorbModel.sigma o) /\
    (0 <= 1 # 10 -> Forall (fun sg => 0 <= sg) (TableAbsorbModel.sigma o) ->
     Forall (fun y => 0 <= y <= 1)%R (TableAbsorbModel.get_spectrum o)) /\
    (1 # 10 == 0 ->
     Forall (fun y => y = 1%R) (TableAbsorbModel.get_spectrum o)).
Proof.
  eexists. split; [vm_compute; reflexivity|].
  apply (absorb_spectrum_beer_lambert example_fs "/atomdb/abs_table.h5" (1 # 10)).
  vm_compute. reflexivity.
Defined.

(** C6 fails as stated: a table may hold a negative cross section, and
    then a nonnegative [nH] gives a value above 1. *)
Lemma absorb_spectrum_above_one :
  exists o,
    TableAbsorbModel.init example_fs "/atomdb/bad_table.h5" 1 = Ok o /\
    0 <= 1 /\
    ~ Forall (fun y => 0 <= y <= 1)%R (TableAbsorbModel.get_spectrum o).
Proof.
  eexists. split; [vm_compute; reflexivity|]. split; [discriminate|].
  unfold TableAbsorbModel.get_spectrum.
  cbn [TableAbsorbModel.sigma TableAbsorbModel.nH map].
  intros H. inversion H as [|y l [_ Hle] _]. subst.
  assert (Hpos : (0 < Q2R (- (-1 # 1) * (10000000000000000000000 # 1)))%R).
  { rewrite <- Q2R_zero. apply Qlt_Rlt. reflexivity. }
  apply exp_increasing in Hpos. rewrite exp_0 in Hpos. lra.
Qed.

(** ** Missing table files *)

Lemma init_unprepared g root e0 e1 n vers tb o :
  init g root e0 e1 n vers tb = Ok o ->
  line_handle o = None /\ coco_handle o = None /\ Tvals o = None /\
  dTvals o = None /\ minlam o = None /\ maxlam o = None /\
  scale_factor o = None.
Proof.
  unfold init. destruct (SpectralModel_init e0 e1 n); cbn [rbind];
    [|discriminate].
  intros [= <-]. cbn. repeat split.
Qed.

(** C8 as the code has it.  The constructor of [TableApecModel] opens no
    file and leaves every prepared attribute unset.  If the line file is
    missing, [prepare_spectrum] logs and raises the [IOError] and the object
    is as the constructor left it.  If only the continuum file is missing,
    [prepare_spectrum] logs and raises the [IOError] after storing the line
    handle, the other prepared attributes staying unset.  For
    [TableAbsorbModel] a missing file makes the constructor itself raise the
    [IOError], so no object exists, and its [prepare_spectrum] never
    raises. *)
Theorem missing_table_raises g fs root e0 e1 n vers tb o log zobs :
  init g root e0 e1 n vers tb = Ok o ->
  let st := {| self := o; mylog := log |} in
  let line_msg := ("LINE file " ++ linefile o ++ " does not exist")%string in
  let coco_msg := ("COCO file " ++ cocofile o ++ " does not exist")%string in
  (line_handle o = None /\ coco_handle o = None /\ Tvals o = None /\
   dTvals o = None /\ minlam o = None /\ maxlam o = None /\
   scale_factor o = None) /\
  (fs (linefile o) = None ->
   prepare_spectrum fs zobs st
   = (Raise (IOError line_msg),
      {| self := o; mylog := log ++ [line_msg] |})) /\
  (forall lh,
     fs (linefile o) = Some (FitsFile lh) -> fs (cocofile o) = None ->
     prepare_spectrum fs zobs st
     = (Raise (IOError coco_msg),
        {| self := set_line_handle lh o; mylog := log ++ [coco_msg] |})) /\
  (forall filename nH0,
     fs filename = None ->
     TableAbsorbModel.init fs filename nH0
     = Raise (IOError ("File does not exist: " ++ filename ++ ".")%string)) /\
  (forall a, TableAbsorbModel.prepare_spectrum a = (Ok tt, a)).
Proof.
  intros Ho st line_msg coco_msg.
  split; [exact (init_unprepared _ _ _ _ _ _ _ _ Ho)|].
  split; [|split; [|split]].
  - intros Hfs.
    unfold prepare_spectrum, bind, gets, open_table, pyfits_open, st.
    cbn [self mylog]. now rewrite Hfs.
  - intros lh Hline Hcoco.
    unfold prepare_spectrum, bind, gets, modify, open_table, pyfits_open, st.
    cbn [self mylog]. rewrite Hline. cbn [ret self mylog].
    change (cocofile (set_line_handle lh o)) with (cocofile o).
    now rewrite Hcoco.
  - intros filename nH0 Hfs. unfold TableAbsorbModel.init. now rewrite Hfs.
  - reflexivity.
Qed.

(** The example object where no file exists. *)
Lemma missing_table_raises_witness :
  let msg := "LINE file /atomdb/apec_v2.0.2_line.fits does not exist"%string in
  (line_handle example_object = None /\ coco_handle example_object = None /\
   Tvals example_object = None /\ dTvals example_object = None /\
   minlam example_object = None /\ maxlam example_object = None /\
   scale_factor example_object = None) /\
  prepare_spectrum no_files 0 {| self := example_object; mylog := [] |}
  = (Raise (IOError msg), {| self := example_object; mylog := [msg] |}).
Proof.
  pose proof (missing_table_raises example_globals no_files "/atomdb" 1 5 4
                "2.0.2" false example_object [] 0) as H.
  cbv zeta in H.
  destruct H as (Hunset & Hline & _); [vm_compute; reflexivity|].
  split; [exact Hunset|]. exact (Hline eq_refl).
Defined.

(** C8 fails as stated.  For the absorption model the error of a missing
    file is raised by the constructor, before any [prepare_spectrum]; and
    for the emission model, when only the continuum file is missing, the
    failed [prepare_spectrum] leaves the line handle set. *)
Lemma missing_table_not_only_at_prepare :
  (no_files "/atomdb/abs_table.h5"%string = None /\
   TableAbsorbModel.init no_files "/atomdb/abs_table.h5" 1
   = Raise (IOError "File does not exist: /atomdb/abs_table.h5.")) /\
  (line_only_fs (cocofile example_object) = None /\
   fst (example_run line_only_fs 0)
   = Raise (IOError "COCO file /atomdb/apec_v2.0.2_coco.fits does not exist") /\
   line_handle (self (snd (example_run line_only_fs 0)))
   = Some example_line_file).
Proof.
  repeat split; vm_compute; reflexivity.
Qed.

(** * Further properties of the code *)

(** ** Minimum and maximum of an array *)

Lemma fold_min_le (t : list Q) : forall x,
  let m := fold_left (fun m y => if Qltb y m then y else m) t x in
  m <= x /\ forall y, In y t -> m <= y.
Proof.
  induction t as [|z t IH]; intros x; simpl.
  - split; [apply Qle_refl | tauto].
  - destruct (IH (if Qltb z x then z else x)) as (H1 & H2).
    destruct (Qltb z x) eqn:Hz.
    + apply Qltb_lt in Hz. split; [lra|].
      intros y [<-|Hy]; auto.
    + apply Qltb_ge in Hz. split; [exact H1|].
      intros y [<-|Hy]; [lra | auto].
Qed.

Lemma np_min_le a lo : np_min a = Ok lo -> forall y, In y a -> lo <= y.
Proof.
  destruct a as [|x t]; simpl; [discriminate|]. intros [= <-] y [<-|Hy].
  - exact (proj1 (fold_min_le t x)).
  - exact (proj2 (fold_min_le t x) y Hy).
Qed.

Lemma fold_max_ge (t : list Q) : forall x,
  let m := fold_left (fun m y => if Qltb m y then y else m) t x in
  x <= m /\ forall y, In y t -> y <= m.
Proof.
  induction t as [|z t IH]; intros x; simpl.
  - split; [apply Qle_refl | tauto].
  - destruct (IH (if Qltb x z then z else x)) as (H1 & H2).
    destruct (Qltb x z) eqn:Hz.
    + apply Qltb_lt in Hz. split; [lra|].
      intros y [<-|Hy]; auto.
    + apply Qltb_ge in Hz. split; [exact H1|].
      intros y [<-|Hy]; [lra | auto].
Qed.

Lemma np_max_ge a hi : np_max a = Ok hi -> forall y, In y a -> y <= hi.
Proof.
  destruct a as [|x t]; simpl; [discriminate|]. intros [= <-] y [<-|Hy].
  - exact (proj1 (fold_max_ge t x)).
  - exact (proj2 (fold_max_ge t x) y Hy).
Qed.

Lemma np_max_In a hi : np_max a = Ok hi -> In hi a.
Proof.
  destruct a as [|x rest]; simpl; [discriminate|]. intros [= <-].
  revert x. induction rest as [|y rest IH]; intros x; simpl; auto.
  destruct (IH (if Qltb x y then y else x)) as [H|H]; auto.
  destruct (Qltb x y); auto.
Qed.

(** ** Preparation that goes through *)

Lemma prepared_edges g fs zobs s lh ch tv lo hi :
  PreparedView g fs zobs s lh ch tv lo hi ->
  emin (base (self s)) < emax (base (self s)) ->
  (0 < nchan (base (self s)))%Z ->
  let edges := ebins (base (self s)) in
  let n := Z.to_nat (nchan (base (self s))) in
  (forall i j, (i < j <= n)%nat -> nth i edges 0 < nth j edges 0) /\
  length edges = S n /\
  nth 0 edges 0 == emin (base (self s)) /\
  nth n edges 0 == emax (base (self s)).
Proof.
  intros V Hlt Hn edges n.
  destruct (prepared_shape _ _ _ _ _ _ _ _ _ V) as (_ & He & _ & _).
  destruct (pv_grid _ _ _ _ _ _ _ _ _ V) as (e0 & e1 & n0 & Hb).
  destruct (init_fields _ _ _ _ Hb) as (H0 & H1 & H2). subst e0 e1 n0.
  destruct (init_grid_edges _ _ _ _ Hb Hlt Hn) as (Hinc & Hfirst & Hlast & _).
  repeat split; auto.
Qed.

(** X1.  [prepare_spectrum] goes through on a constructed object with a
    nonnegative channel count as soon as both table files open, block 1 of
    the line file carries the [kT] column and [zobs] is not [-1]: it
    returns without logging, leaves the grid and the broadening flag as
    they were, and has set the handles, the temperature grid, its
    differences, the two wavelength bounds and the scale factor
    [1/(1+zobs)]. *)
Theorem prepare_spectrum_succeeds
    g fs root e0 e1 n vers tb o log zobs lh ch tv :
  init g root e0 e1 n vers tb = Ok o ->
  (0 <= n)%Z ->
  fs (linefile o) = Some (FitsFile lh) ->
  fs (cocofile o) = Some (FitsFile ch) ->
  getitem lh 1 = Ok (ParameterHDU tv) ->
  ~ 1 + zobs == 0 ->
  exists s lo hi,
    prepare_spectrum fs zobs {| self := o; mylog := log |} = (Ok tt, s) /\
    mylog s = log /\
    base (self s) = base o /\
    thermal_broad (self s) = thermal_broad o /\
    PreparedView g fs zobs s lh ch tv lo hi.
Proof.
  intros Ho Hn Hline Hcoco Hblock Hz.
  pose proof Ho as Ho'. unfold init in Ho'.
  destruct (SpectralModel_init e0 e1 n) as [b|] eqn:Hb; cbn [rbind] in Ho';
    [|discriminate].
  assert (Hbase : base o = b) by (injection Ho' as <-; reflexivity).
  assert (Hwv : wvbins o = map (fun e => hc g / e) (rev (ebins b)))
    by (injection Ho' as <-; reflexivity).
  assert (Hce : cosmic_elem o
                = [1; 2; 3; 4; 5; 9; 11; 15; 17; 19; 21; 22; 23; 24; 25; 27;
                   29; 30]%Z) by (injection Ho' as <-; reflexivity).
  assert (Hme : metal_elem o
                = [6; 7; 8; 10; 12; 13; 14; 16; 18; 20; 26; 28]%Z)
    by (injection Ho' as <-; reflexivity).
  assert (HA : A o = atomic_masses) by (injection Ho' as <-; reflexivity).
  clear Ho'.
  destruct (grid_shape _ _ _ _ Hb) as (_ & _ & Hlen & _).
  destruct (np_min (wvbins o)) as [lo|] eqn:Hlo.
  2:{ exfalso. rewrite Hwv in Hlo.
      destruct (ebins b) as [|x t] eqn:He; [simpl in Hlen; lia|].
      destruct (rev (x :: t)) as [|y r] eqn:Hr; [|discriminate].
      apply (f_equal (@length Q)) in Hr. rewrite length_rev in Hr.
      discriminate. }
  destruct (np_max (wvbins o)) as [hi|] eqn:Hhi.
  2:{ destruct (wvbins o); discriminate. }
  assert (Hzb : Qeq_bool (1 + zobs) 0 = false).
  { apply not_true_iff_false. intros H. apply Hz. now apply Qeq_bool_iff. }
  eexists _, lo, hi.
  split.
  { unfold prepare_spectrum, bind, gets, attr, modify, lift, open_table,
      pyfits_open, ret.
    cbn [self mylog]. rewrite Hline. cbv beta iota. cbn [self mylog].
    change (cocofile (set_line_handle lh o)) with (cocofile o).
    rewrite Hcoco. cbv beta iota. cbn [self mylog].
    cbn [line_handle set_coco_handle set_line_handle].
    rewrite Hblock. cbn [field_kT]. cbv beta iota.
    cbn -[np_min np_max getitem Qeq_bool np_diff Qdiv Qplus Qmult].
    rewrite Hlo.
    cbn -[np_min np_max getitem Qeq_bool np_diff Qdiv Qplus Qmult].
    rewrite Hhi, Hzb. reflexivity. }
  cbn [self mylog]. split; [reflexivity|].
  split; [reflexivity|]. split; [reflexivity|].
  constructor; cbn; auto.
  - exists e0, e1, n. now rewrite Hbase.
  - now rewrite Hbase in *.
Qed.

(** The example object under the example files, at rest. *)
Lemma prepare_spectrum_succeeds_witness :
  exists s lo hi,
    prepare_spectrum example_fs 0 {| self := example_object; mylog := [] |}
    = (Ok tt, s) /\
    mylog s = [] /\
    base (self s) = base example_object /\
    thermal_broad (self s) = thermal_broad example_object /\
    PreparedView example_globals example_fs 0 s
      example_line_file example_coco_file [1; 2; 3] lo hi.
Proof.
  apply (prepare_spectrum_succeeds example_globals example_fs
           "/atomdb" 1 5 4 "2.0.2" false example_object [] 0
           example_line_file example_coco_file [1; 2; 3]).
  - vm_compute. reflexivity.
  - lia.
  - vm_compute. reflexivity.
  - vm_compute. reflexivity.
  - reflexivity.
  - discriminate.
Defined.

(** ** The wavelength window *)

Lemma Qdiv_compat_r (a x y : Q) : x == y -> a / x == a / y.
Proof. intros H. now rewrite H. Qed.

(** X2.  On a prepared model with [hc > 0], [0 < emin < emax] and
    [nchan > 0] the two wavelength bounds are the images of the two ends of
    the energy grid: [minlam == hc/emax] and [maxlam == hc/emin], and
    [minlam < maxlam]. *)
Theorem wavelength_window g fs zobs s lo hi :
  Prepared g fs zobs s ->
  minlam (self s) = Some lo ->
  maxlam (self s) = Some hi ->
  0 < hc g ->
  0 < emin (base (self s)) ->
  emin (base (self s)) < emax (base (self s)) ->
  (0 < nchan (base (self s)))%Z ->
  lo == hc g / emax (base (self s)) /\
  hi == hc g / emin (base (self s)) /\
  lo < hi.
Proof.
  intros HP Hlo Hhi Hhc Hemin Hlt Hn.
  destruct (Prepared_view _ _ _ _ HP) as (lh & ch & tv & lo' & hi' & V).
  pose proof (pv_minlam _ _ _ _ _ _ _ _ _ V) as Hlo'.
  pose proof (pv_maxlam _ _ _ _ _ _ _ _ _ V) as Hhi'.
  rewrite Hlo in Hlo'. injection Hlo' as <-.
  rewrite Hhi in Hhi'. injection Hhi' as <-.
  destruct (prepared_edges _ _ _ _ _ _ _ _ _ V Hlt Hn)
    as (Hinc & Hlen & Hfirst & Hlast).
  set (edges := ebins (base (self s))) in *.
  set (n := Z.to_nat (nchan (base (self s)))) in *.
  pose proof (pv_min _ _ _ _ _ _ _ _ _ V) as Hmin.
  pose proof (pv_max _ _ _ _ _ _ _ _ _ V) as Hmax.
  rewrite (pv_wvbins _ _ _ _ _ _ _ _ _ V) in Hmin, Hmax. fold edges in Hmin, Hmax.
  assert (Hbetween : forall e, In e edges ->
            nth 0 edges 0 <= e /\ e <= nth n edges 0).
  { intros e He. destruct (In_nth _ _ 0 He) as (k & Hk & <-). split.
    - destruct k; [apply Qle_refl | apply Qlt_le_weak, Hinc; lia].
    - destruct (Nat.eq_dec k n) as [->|Hne]; [apply Qle_refl|].
      apply Qlt_le_weak, Hinc. lia. }
  assert (Hmem : forall k, (k < length edges)%nat ->
            In (hc g / nth k edges 0) (map (fun e => hc g / e) (rev edges))).
  { intros k Hk. apply in_map_iff. exists (nth k edges 0). split; auto.
    apply -> in_rev. now apply nth_In. }
  assert (Hlo_eq : lo == hc g / nth n edges 0).
  { apply Qle_antisym.
    - apply (np_min_le _ _ Hmin). apply Hmem. lia.
    - pose proof (np_min_In _ _ Hmin) as Hin.
      apply in_map_iff in Hin. destruct Hin as (e & <- & He).
      apply in_rev in He. destruct (Hbetween e He) as (H1 & H2).
      apply wavelength_bound; auto. lra. }
  assert (Hhi_eq : hi == hc g / nth 0 edges 0).
  { apply Qle_antisym.
    - pose proof (np_max_In _ _ Hmax) as Hin.
      apply in_map_iff in Hin. destruct Hin as (e & <- & He).
      apply in_rev in He. destruct (Hbetween e He) as (H1 & H2).
      apply wavelength_bound; auto. lra.
    - apply (np_max_ge _ _ Hmax). apply Hmem. lia. }
  assert (H1 : lo == hc g / emax (base (self s))).
  { rewrite Hlo_eq. now apply Qdiv_compat_r. }
  assert (H2 : hi == hc g / emin (base (self s))).
  { rewrite Hhi_eq. now apply Qdiv_compat_r. }
  split; [exact H1|]. split; [exact H2|].
  rewrite H1, H2.
  apply Qlt_shift_div_l; [lra|].
  setoid_replace (hc g / emax (base (self s)) * emin (base (self s)))
    with (hc g * emin (base (self s)) / emax (base (self s))) by (field; lra).
  apply Qlt_shift_div_r; [lra | nra].
Qed.

(** The example model: the window is [hc/5, hc/1]. *)
Lemma wavelength_window_witness :
  let s := example_state 0 in
  (123984193 # 50000000) == hc example_globals / emax (base (self s)) /\
  (495936772 # 40000000) == hc example_globals / emin (base (self s)) /\
  (123984193 # 50000000) < (495936772 # 40000000).
Proof.
  apply (wavelength_window example_globals example_fs 0 (example_state 0)).
  - exact example_prepared_rest.
  - vm_compute. reflexivity.
  - vm_compute. reflexivity.
  - reflexivity.
  - vm_compute. reflexivity.
  - vm_compute. reflexivity.
  - vm_compute. reflexivity.
Defined.

(** ** When the line loop returns and when it raises *)

Lemma py_index_in_range n i :
  (- Z.of_nat n <= i < Z.of_nat n)%Z -> py_index n i <> None.
Proof.
  intros H. unfold py_index.
  destruct (Z.leb_spec 0 i); destruct (Z.ltb_spec i (Z.of_nat n)); simpl;
    try discriminate; try lia.
  destruct (Z.leb_spec (- Z.of_nat n) i); destruct (Z.ltb_spec i 0); simpl;
    try discriminate; lia.
Qed.

Lemma py_index_past_end n : py_index n (Z.of_nat n) = None.
Proof.
  unfold py_index.
  destruct (Z.leb_spec 0 (Z.of_nat n)); [|lia].
  destruct (Z.ltb_spec (Z.of_nat n) (Z.of_nat n)); [lia|]. simpl.
  destruct (Z.leb_spec (- Z.of_nat n) (Z.of_nat n));
    destruct (Z.ltb_spec (Z.of_nat n) 0); simpl; auto; lia.
Qed.

(** One index out of range is enough for the loop to raise, wherever the
    line stands in the list. *)
Lemma deposit_raises (chan : LineRow -> Z) sel : forall vec r,
  In r sel -> py_index (length vec) (chan r) = None ->
  deposit vec (map chan sel) (map epsilon sel) = Raise IndexError.
Proof.
  induction sel as [|r0 sel IH]; intros vec r Hin Hbad; [destruct Hin|].
  simpl. unfold iadd_item.
  destruct (py_index (length vec) (chan r0)) as [k|] eqn:Hk; [|reflexivity].
  cbn [rbind]. destruct Hin as [->|Hin]; [congruence|].
  apply (IH _ r Hin). now rewrite add_at_length.
Qed.

Lemma example_prepared_blueshifted :
  Prepared example_globals example_fs (-1 # 2) (example_state (-1 # 2)).
Proof.
  exists "/atomdb"%string, 1, 5, 4%Z, "2.0.2"%string, false, example_object, [].
  split; vm_compute; reflexivity.
Qed.

(** X4.  Without thermal broadening, on a prepared model with [hc > 0],
    [0 < emin < emax] and [nchan > 0], a selected line whose computed
    energy [hc/lambda*scale_factor] is at or above the last bin edge gets
    the index [nchan], one past the end of the array: the line loop raises
    [IndexError], and so does [_make_spectrum].  ([hc > 0] and [0 < emin]
    keep the window [hc/emax], [hc/emin] away from a zero divisor.) *)
Theorem line_above_grid_raises g fs zobs s elem block lh rows lo hi sf r :
  Prepared g fs zobs s ->
  thermal_broad (self s) = false ->
  line_handle (self s) = Some lh ->
  getitem lh block = Ok (LineHDU rows) ->
  minlam (self s) = Some lo ->
  maxlam (self s) = Some hi ->
  scale_factor (self s) = Some sf ->
  0 < hc g ->
  0 < emin (base (self s)) ->
  emin (base (self s)) < emax (base (self s)) ->
  (0 < nchan (base (self s)))%Z ->
  In r (select_lines elem lo hi rows) ->
  emax (base (self s)) <= hc g / lambda r * sf ->
  channel_of (ebins (base (self s))) (hc g / lambda r * sf)
  = nchan (base (self s)) /\
  line_spectrum g elem block s = (Raise IndexError, s) /\
  _make_spectrum g elem block s = (Raise IndexError, s).
Proof.
  intros HP Htb Hlh Hblock Hlo Hhi Hsf _ _ Hlt Hn Hr Habove.
  destruct (Prepared_view _ _ _ _ HP) as (lh' & ch & tv & lo' & hi' & V).
  destruct (prepared_edges _ _ _ _ _ _ _ _ _ V Hlt Hn)
    as (Hinc & Hlen & Hfirst & Hlast).
  set (edges := ebins (base (self s))) in *.
  set (n := Z.to_nat (nchan (base (self s)))) in *.
  set (E0 := hc g / lambda r * sf) in *.
  assert (Hchan : channel_of edges E0 = Z.of_nat n).
  { unfold channel_of. rewrite (searchsorted_right_count edges E0 (S n)).
    - lia.
    - lia.
    - intros i Hi. apply Qle_trans with (nth n edges 0).
      + destruct (Nat.eq_dec i n) as [->|Hne]; [apply Qle_refl|].
        apply Qlt_le_weak, Hinc. lia.
      + rewrite Hlast. exact Habove.
    - intros i Hi. lia. }
  assert (Hline : line_spectrum g elem block s = (Raise IndexError, s)).
  { rewrite (line_spectrum_unbroadened g s elem block lh rows lo hi sf);
      auto; try lia.
    f_equal.
    apply (deposit_raises
             (fun r => channel_of edges (line_energy g sf r)) _ _ r Hr).
    rewrite repeat_length. unfold line_energy. fold E0. rewrite Hchan.
    apply py_index_past_end. }
  split; [rewrite Hchan; unfold n; lia|]. split; [exact Hline|].
  unfold _make_spectrum, bind, gets, lift. cbv beta iota.
  rewrite np_zeros_ok by lia. cbv beta iota. now rewrite Hline.
Qed.

(** The example tables seen at blueshift [zobs = -1/2]: the hydrogen line
    of block 2, at 2.5 keV at rest, is observed at 5 keV, the last edge. *)
Lemma line_above_grid_raises_witness :
  let s := example_state (-1 # 2) in
  let r := {| element := 1; lambda := example_wavelength (5 # 2);
              epsilon := 7 |} in
  channel_of (ebins (base (self s)))
    (hc example_globals / lambda r * (1 / (1 + (-1 # 2))))
  = nchan (base (self s)) /\
  line_spectrum example_globals 1 2 s = (Raise IndexError, s) /\
  _make_spectrum example_globals 1 2 s = (Raise IndexError, s).
Proof.
  apply (line_above_grid_raises example_globals example_fs (-1 # 2)
           (example_state (-1 # 2)) 1 2 example_line_file
           [ {| element := 1; lambda := example_wavelength (5 # 2);
                epsilon := 7 |} ]
           (123984193 # 50000000) (495936772 # 40000000)).
  - exact example_prepared_blueshifted.
  - reflexivity.
  - reflexivity.
  - reflexivity.
  - vm_compute. reflexivity.
  - vm_compute. reflexivity.
  - vm_compute. reflexivity.
  - reflexivity.
  - vm_compute. reflexivity.
  - vm_compute. reflexivity.
  - vm_compute. reflexivity.
  - vm_compute. left. reflexivity.
  - vm_compute. discriminate.
Defined.

(** ** Thermal broadening *)

Lemma broad_prepared : Prepared broad_globals example_fs 0 broad_state.
Proof.
  exists "/atomdb"%string, 1, 5, 4%Z, "2.0.2"%string, true, broad_object, [].
  split; vm_compute; reflexivity.
Qed.

Lemma vsum_vadd a : forall b,
  length a = length b -> vsum (vadd a b) == vsum a + vsum b.
Proof.
  induction a as [|x a IH]; intros [|y b] Hlen; simpl in *; try discriminate.
  - ring.
  - rewrite IH by lia. ring.
Qed.

Lemma vsum_vscale a c : vsum (vscale a c) == vsum a * c.
Proof.
  induction a as [|x a IH]; simpl; [ring|]. rewrite IH. ring.
Qed.

Lemma np_diff_cons2 x y t : np_diff (x :: y :: t) = (y - x) :: np_diff (y :: t).
Proof. reflexivity. Qed.

(** The differences of an array add up to its last entry minus its first. *)
Lemma vsum_np_diff c :
  (0 < length c)%nat ->
  vsum (np_diff c) == nth (length c - 1) c 0 - nth 0 c 0.
Proof.
  induction c as [|x [|y t] IH]; intros Hlen.
  - simpl in Hlen. lia.
  - simpl. ring.
  - rewrite np_diff_cons2. cbn [vsum fold_right].
    change (fold_right Qplus 0 (np_diff (y :: t))) with (vsum (np_diff (y :: t))).
    rewrite IH by (simpl; lia).
    replace (length (x :: y :: t) - 1)%nat with (S (length (y :: t) - 1))
      by (simpl; lia).
    cbn [nth]. ring.
Qed.

Lemma nth_map_Q (f : Q -> Q) (l : list Q) k :
  (k < length l)%nat -> nth k (map f l) 0 = f (nth k l 0).
Proof.
  intros H. rewrite (nth_indep _ 0 (f 0)) by now rewrite length_map.
  apply map_nth.
Qed.

Lemma vsum_broaden g edges E0 : forall sig amp vec,
  length edges = S (length vec) ->
  vsum (broaden g vec edges E0 sig amp)
  == vsum vec
     + profile_mass g (nth 0 edges 0) (nth (length vec) edges 0) E0 sig amp.
Proof.
  induction E0 as [|E E0 IH]; intros [|s sig] [|a amp] vec Hlen;
    cbn [broaden profile_mass]; try ring.
  assert (Hd : length (vscale (np_diff (map (norm_cdf g E s) edges)) a)
               = length vec).
  { rewrite vscale_length, np_diff_length, length_map. lia. }
  rewrite IH by (unfold vadd; rewrite map2_length; lia).
  rewrite vsum_vadd by lia.
  rewrite vsum_vscale, vsum_np_diff by (rewrite length_map; lia).
  rewrite length_map.
  rewrite !nth_map_Q by lia.
  replace (length (vadd vec (vscale (np_diff (map (norm_cdf g E s) edges)) a)))
    with (length vec) by (unfold vadd; rewrite map2_length; lia).
  replace (length edges - 1)%nat with (length vec) by lia.
  ring.
Qed.

Lemma line_spectrum_broadened g s elem block lh rows lo hi sf tv T Ael :
  (0 <= nchan (base (self s)))%Z ->
  thermal_broad (self s) = true ->
  line_handle (self s) = Some lh ->
  getitem lh block = Ok (LineHDU rows) ->
  minlam (self s) = Some lo ->
  maxlam (self s) = Some hi ->
  scale_factor (self s) = Some sf ->
  Tvals (self s) = Some tv ->
  getitem tv block = Ok T ->
  getitem (A (self s)) elem = Ok Ael ->
  let sel := select_lines elem lo hi rows in
  let E0 := map (line_energy g sf) sel in
  let w := np_sqrt g (T * erg_per_keV g / (Ael * amu_cgs g)) in
  line_spectrum g elem block s
  = (Ok (broaden g (repeat 0 (Z.to_nat (nchan (base (self s)))))
           (ebins (base (self s))) E0
           (map (fun E => E * w / cl g) E0) (map epsilon sel)), s).
Proof.
  intros Hn Htb Hlh Hblock Hlo Hhi Hsf HT HTb HA sel E0 w.
  unfold line_spectrum, bind, gets, attr, lift, ret. cbv beta iota.
  rewrite Hlh, Hblock. cbn [line_rows]. rewrite Hlo, Hhi.
  rewrite (np_zeros_ok _ Hn), Hsf, Htb. cbv beta iota.
  rewrite HT, HTb, HA. reflexivity.
Qed.

(** X5.  With thermal broadening, on a prepared model, when the
    temperature [Tvals[block]] and the mass [A[elem]] can be read, the line
    part of [_make_spectrum] returns an array of [nchan] entries whose sum
    is, line by line, the amplitude times the part of the line's profile
    lying between the first and the last bin edge,
    [a * (cdf(ebins[-1]) - cdf(ebins[0]))]: whatever profile [cdf] is, the
    bins neither add to a line nor lose any of it inside the grid. *)
Theorem broadened_lines_keep_profile_mass
    g fs zobs s elem block lh rows lo hi tv T Ael :
  Prepared g fs zobs s ->
  thermal_broad (self s) = true ->
  line_handle (self s) = Some lh ->
  getitem lh block = Ok (LineHDU rows) ->
  minlam (self s) = Some lo ->
  maxlam (self s) = Some hi ->
  Tvals (self s) = Some tv ->
  getitem tv block = Ok T ->
  getitem (A (self s)) elem = Ok Ael ->
  let n := Z.to_nat (nchan (base (self s))) in
  let edges := ebins (base (self s)) in
  let sel := select_lines elem lo hi rows in
  let E0 := map (fun r => hc g / lambda r * (1 / (1 + zobs))) sel in
  let w := np_sqrt g (T * erg_per_keV g / (Ael * amu_cgs g)) in
  let sigma := map (fun E => E * w / cl g) E0 in
  exists vec,
    line_spectrum g elem block s = (Ok vec, s) /\
    length vec = n /\
    vsum vec
    == profile_mass g (nth 0 edges 0) (nth n edges 0) E0 sigma
         (map epsilon sel).
Proof.
  intros HP Htb Hlh Hblock Hlo Hhi HT HTb HA n edges sel E0 w sigma.
  destruct (Prepared_view _ _ _ _ HP) as (lh' & ch & tv' & lo' & hi' & V).
  destruct (prepared_shape _ _ _ _ _ _ _ _ _ V) as (Hn & He & _ & _).
  eexists. split.
  { apply (line_spectrum_broadened g s elem block lh rows lo hi
             (1 / (1 + zobs)) tv T Ael); auto.
    exact (pv_scale_factor _ _ _ _ _ _ _ _ _ V). }
  fold n. fold edges. fold sel.
  change (map (line_energy g (1 / (1 + zobs))) sel) with E0.
  fold w. fold sigma.
  split.
  - rewrite broaden_length; rewrite repeat_length; auto.
  - rewrite vsum_broaden by (rewrite repeat_length; exact He).
    rewrite repeat_length.
    assert (Hz : vsum (repeat 0 n) == 0).
    { clear. induction n as [|k IH]; simpl; [reflexivity|].
      change (fold_right Qplus 0 (repeat 0 k)) with (vsum (repeat 0 k)).
      rewrite IH. ring. }
    rewrite Hz. ring.
Qed.

(** Hydrogen in block 2 of the example tables, broadened. *)
Lemma broadened_lines_keep_profile_mass_witness :
  let s := broad_state in
  let n := Z.to_nat (nchan (base (self s))) in
  let edges := ebins (base (self s)) in
  let sel := select_lines 1 (123984193 # 50000000) (495936772 # 40000000)
               [ {| element := 1; lambda := example_wavelength (5 # 2);
                    epsilon := 7 |} ] in
  let E0 := map (fun r => hc broad_globals / lambda r * (1 / (1 + 0))) sel in
  let w := np_sqrt broad_globals
             (3 * erg_per_keV broad_globals
              / ((100794 # 100000) * amu_cgs broad_globals)) in
  let sigma := map (fun E => E * w / cl broad_globals) E0 in
  exists vec,
    line_spectrum broad_globals 1 2 s = (Ok vec, s) /\
    length vec = n /\
    vsum vec
    == profile_mass broad_globals (nth 0 edges 0) (nth n edges 0) E0 sigma
         (map epsilon sel).
Proof.
  apply (broadened_lines_keep_profile_mass broad_globals example_fs 0
           broad_state 1 2 example_line_file
           [ {| element := 1; lambda := example_wavelength (5 # 2);
                epsilon := 7 |} ]
           (123984193 # 50000000) (495936772 # 40000000) [1; 2; 3] 3
           (100794 # 100000)).
  - exact broad_prepared.
  - reflexivity.
  - reflexivity.
  - reflexivity.
  - vm_compute. reflexivity.
  - vm_compute. reflexivity.
  - reflexivity.
  - reflexivity.
  - reflexivity.
Defined.

Lemma getitem_past_end {X} (a : list X) i :
  (Z.of_nat (length a) <= i)%Z -> getitem a i = Raise IndexError.
Proof.
  intros H. unfold getitem, py_index.
  destruct (Z.leb_spec 0 i); [|lia].
  destruct (Z.ltb_spec i (Z.of_nat (length a))); [lia|]. simpl.
  destruct (Z.leb_spec (- Z.of_nat (length a)) i);
    destruct (Z.ltb_spec i 0); simpl; auto; lia.
Qed.

Lemma make_spectrum_broadened_past_grid g s elem block lh rows lo hi sf tv :
  (0 <= nchan (base (self s)))%Z ->
  thermal_broad (self s) = true ->
  line_handle (self s) = Some lh ->
  getitem lh block = Ok (LineHDU rows) ->
  minlam (self s) = Some lo ->
  maxlam (self s) = Some hi ->
  scale_factor (self s) = Some sf ->
  Tvals (self s) = Some tv ->
  (Z.of_nat (length tv) <= block)%Z ->
  _make_spectrum g elem block s = (Raise IndexError, s).
Proof.
  intros Hn Htb Hlh Hblock Hlo Hhi Hsf HT Hpast.
  unfold _make_spectrum, line_spectrum, bind, gets, attr, lift, ret.
  cbv beta iota.
  rewrite (np_zeros_ok _ Hn). cbv beta iota.
  rewrite Hlh, Hblock. cbn [line_rows]. rewrite Hlo, Hhi.
  cbv beta iota. rewrite Hsf, Htb. cbv beta iota.
  rewrite HT, (getitem_past_end tv block Hpast). reflexivity.
Qed.

(** X6.  With thermal broadening the width of a line is computed from
    [self.Tvals[tindex]], where [tindex] is the table block index that
    [get_spectrum] passes ([tindex+2] and [tindex+3]).  So on a prepared
    model [_make_spectrum] raises [IndexError] for every line block whose
    index is not below the number of tabulated temperatures, and
    [get_spectrum] raises [IndexError] for every [kT] in the last interval
    of an increasing temperature grid, whose left block has that index. *)
Theorem broadened_last_interval_raises g fs zobs s kT tv lh rows :
  Prepared g fs zobs s ->
  thermal_broad (self s) = true ->
  Tvals (self s) = Some tv ->
  line_handle (self s) = Some lh ->
  increasing tv ->
  (2 <= length tv)%nat ->
  nth (length tv - 2) tv 0 < kT ->
  kT <= nth (length tv - 1) tv 0 ->
  getitem lh (Z.of_nat (length tv)) = Ok (LineHDU rows) ->
  (forall elem,
     _make_spectrum g elem (Z.of_nat (length tv)) s = (Raise IndexError, s)) /\
  temperature_index tv kT = (Z.of_nat (length tv) - 2)%Z /\
  get_spectrum g kT s = (Raise IndexError, s).
Proof.
  intros HP Htb HT Hlh Hinc Hlen Hlo Hhi Hblock.
  destruct (Prepared_view _ _ _ _ HP) as (lh' & ch & tv' & lo & hi & V).
  destruct (prepared_shape _ _ _ _ _ _ _ _ _ V) as (Hn & _).
  pose proof (pv_Tvals _ _ _ _ _ _ _ _ _ V) as HT'.
  rewrite HT in HT'. injection HT' as <-.
  assert (Hmake : forall elem,
            _make_spectrum g elem (Z.of_nat (length tv)) s
            = (Raise IndexError, s)).
  { intros elem.
    apply (make_spectrum_broadened_past_grid g s elem _ lh rows lo hi
             (1 / (1 + zobs)) tv); auto; try lia.
    - exact (pv_minlam _ _ _ _ _ _ _ _ _ V).
    - exact (pv_maxlam _ _ _ _ _ _ _ _ _ V).
    - exact (pv_scale_factor _ _ _ _ _ _ _ _ _ V). }
  set (i := (length tv - 2)%nat).
  assert (Hti : temperature_index tv kT = Z.of_nat i).
  { apply temperature_index_bracket; auto; unfold i; try lia.
    replace (S (length tv - 2)) with (length tv - 1)%nat by lia. exact Hhi. }
  split; [exact Hmake|]. split; [rewrite Hti; unfold i; lia|].
  unfold get_spectrum, bind, gets, lift, attr, ret. cbv beta iota.
  rewrite HT, (np_zeros_ok _ Hn). cbv beta iota. rewrite Hti.
  match goal with |- context [if ?b then _ else _] =>
    assert (Hb : b = false) end.
  { apply orb_false_iff. split.
    - rewrite Z.geb_leb. apply Z.leb_gt. unfold i. lia.
    - apply Z.ltb_ge. lia. }
  rewrite Hb.
  rewrite getitem_nat by (unfold i; lia).
  rewrite (pv_dTvals _ _ _ _ _ _ _ _ _ V). cbv beta iota.
  rewrite getitem_nat by (rewrite np_diff_length; unfold i; lia).
  rewrite (pv_cosmic _ _ _ _ _ _ _ _ _ V).
  cbn [accumulate]. unfold bind.
  replace (Z.of_nat i + 2)%Z with (Z.of_nat (length tv)) by (unfold i; lia).
  rewrite Hmake. reflexivity.
Qed.

(** The broadened example model queried at [kT = 5/2], inside the last of
    its two table intervals. *)
Lemma broadened_last_interval_raises_witness :
  (forall elem,
     _make_spectrum broad_globals elem (Z.of_nat (length [1; 2; 3])) broad_state
     = (Raise IndexError, broad_state)) /\
  temperature_index [1; 2; 3] (5 # 2) = (Z.of_nat (length [1; 2; 3]) - 2)%Z /\
  get_spectrum broad_globals (5 # 2) broad_state
  = (Raise IndexError, broad_state).
Proof.
  apply (broadened_last_interval_raises broad_globals example_fs 0 broad_state
           (5 # 2) [1; 2; 3] example_line_file
           [ {| element := 1; lambda := example_wavelength (7 # 2);
                epsilon := 5 |};
             {| element := 26; lambda := example_wavelength (9 # 2);
                epsilon := 3 |} ]).
  - exact broad_prepared.
  - reflexivity.
  - reflexivity.
  - reflexivity.
  - apply increasingb_spec. reflexivity.
  - simpl. lia.
  - reflexivity.
  - discriminate.
  - reflexivity.
Defined.

(** ** The shape and the range of a returned spectrum *)

Lemma accumulate_length g s ti elems : forall l r out,
  (0 <= nchan (base (self s)))%Z ->
  length (ebins (base (self s))) = S (Z.to_nat (nchan (base (self s)))) ->
  length (de (base (self s))) = Z.to_nat (nchan (base (self s))) ->
  length (emid (base (self s))) = Z.to_nat (nchan (base (self s))) ->
  length l = Z.to_nat (nchan (base (self s))) ->
  length r = Z.to_nat (nchan (base (self s))) ->
  fst (accumulate g elems ti l r s) = Ok out ->
  length (fst out) = Z.to_nat (nchan (base (self s))) /\
  length (snd out) = Z.to_nat (nchan (base (self s))).
Proof.
  induction elems as [|e rest IH]; intros l r out Hn He Hd Hm Hl Hr H.
  - cbn in H. injection H as <-. auto.
  - cbn [accumulate] in H. unfold bind in H.
    rewrite (readonly_run _ s (readonly_make_spectrum g e (ti + 2))) in H.
    destruct (fst (_make_spectrum g e (ti + 2) s)) as [vl|] eqn:Hvl;
      [|discriminate].
    rewrite (readonly_run _ s (readonly_make_spectrum g e (ti + 3))) in H.
    destruct (fst (_make_spectrum g e (ti + 3) s)) as [vr|] eqn:Hvr;
      [|discriminate].
    apply make_spectrum_length in Hvl; auto.
    apply make_spectrum_length in Hvr; auto.
    apply (IH (vadd l vl) (vadd r vr)); auto;
      unfold vadd; rewrite map2_length; lia.
Qed.

Lemma blend_length l r dT :
  length (blend l r dT) = Nat.min (length l) (length r).
Proof.
  unfold blend, vadd. now rewrite map2_length, !vscale_length.
Qed.

(** X7.  Whenever [get_spectrum] returns on a prepared model, both
    components have exactly [nchan] entries, inside the table as well as
    outside it. *)
Theorem get_spectrum_shape g fs zobs s kT c m :
  Prepared g fs zobs s ->
  fst (get_spectrum g kT s) = Ok (c, m) ->
  length c = Z.to_nat (nchan (base (self s))) /\
  length m = Z.to_nat (nchan (base (self s))).
Proof.
  intros HP H.
  destruct (Prepared_view _ _ _ _ HP) as (lh & ch & tv & lo & hi & V).
  destruct (prepared_shape _ _ _ _ _ _ _ _ _ V) as (Hn & He & Hd & Hm).
  unfold get_spectrum, bind, gets, lift, attr, ret in H. cbv beta iota in H.
  rewrite (pv_Tvals _ _ _ _ _ _ _ _ _ V), (np_zeros_ok _ Hn) in H.
  cbv beta iota in H.
  match type of H with context [if ?b then _ else _] => destruct b end.
  - cbn in H. injection H as <- <-. now rewrite repeat_length.
  - destruct (getitem tv _) as [Ti|]; [|discriminate].
    rewrite (pv_dTvals _ _ _ _ _ _ _ _ _ V) in H. cbv beta iota in H.
    destruct (getitem (np_diff tv) _) as [dTi|]; [|discriminate].
    match type of H with context [accumulate g ?el ?ti ?l ?r s] =>
      rewrite (readonly_run _ s (readonly_accumulate g el ti l r)) in H;
      destruct (fst (accumulate g el ti l r s)) as [cc|] eqn:Hc;
        [|discriminate]
    end.
    match type of H with context [accumulate g ?el ?ti ?l ?r s] =>
      rewrite (readonly_run _ s (readonly_accumulate g el ti l r)) in H;
      destruct (fst (accumulate g el ti l r s)) as [mm|] eqn:Hmm;
        [|discriminate]
    end.
    apply accumulate_length in Hc; auto; try apply repeat_length.
    apply accumulate_length in Hmm; auto; try apply repeat_length.
    cbn in H. injection H as <- <-.
    rewrite !blend_length. lia.
Qed.

(** The example model between its first two temperatures. *)
Lemma get_spectrum_shape_witness :
  let s := example_state 0 in
  let dT := ((3 # 2) - 1) / (2 - 1) in
  length (blend (example_sum 0 (cosmic_elem (self s)) 2)
                (example_sum 0 (cosmic_elem (self s)) 3) dT)
  = Z.to_nat (nchan (base (self s))) /\
  length (blend (example_sum 0 (metal_elem (self s)) 2)
                (example_sum 0 (metal_elem (self s)) 3) dT)
  = Z.to_nat (nchan (base (self s))).
Proof.
  apply (get_spectrum_shape example_globals example_fs 0 (example_state 0)
           (3 # 2)).
  - exact example_prepared_rest.
  - vm_compute. reflexivity.
Defined.

Lemma nth_vscale a c j : nth j (vscale a c) 0 == nth j a 0 * c.
Proof.
  unfold vscale. destruct (Nat.lt_ge_cases j (length a)) as [H|H].
  - rewrite (nth_indep _ 0 (0 * c)) by now rewrite length_map.
    rewrite (map_nth (fun x => x * c)). reflexivity.
  - rewrite !nth_overflow by (rewrite ?length_map; lia). ring.
Qed.

Lemma nth_blend l r dT j :
  (j < length l)%nat -> (j < length r)%nat ->
  nth j (blend l r dT) 0 == nth j l 0 * (1 - dT) + nth j r 0 * dT.
Proof.
  intros Hl Hr. unfold blend, vadd.
  rewrite (nth_map2 Qplus _ _ j 0 0 0) by now rewrite vscale_length.
  now rewrite !nth_vscale.
Qed.

Lemma blend_between a b x dT :
  0 <= dT -> dT <= 1 -> x == a * (1 - dT) + b * dT -> between a b x.
Proof.
  intros H0 H1 Hx. unfold between. rewrite Hx. split; intros Hab; split; nra.
Qed.

(** X8.  On a prepared model with an increasing grid, for
    [T[i] < kT <= T[i+1]] the interpolation weight
    [dT = (kT - T[i]) / (T[i+1] - T[i])] lies in [(0, 1]], and in every
    channel each returned component lies between the values of its left and
    right block sums: the interpolation never overshoots, and a spectrum
    between two nonnegative blocks is nonnegative. *)
Theorem get_spectrum_between_blocks g fs zobs s kT tv (i : nat) cl cr ml mr :
  Prepared g fs zobs s ->
  Tvals (self s) = Some tv ->
  increasing tv ->
  (S i < length tv)%nat ->
  nth i tv 0 < kT -> kT <= nth (S i) tv 0 ->
  let n := Z.to_nat (nchan (base (self s))) in
  let zeros := repeat 0 n in
  let dT := (kT - nth i tv 0) / (nth (S i) tv 0 - nth i tv 0) in
  sum_spectra g (cosmic_elem (self s)) (Z.of_nat i + 2) zeros s = Ok cl ->
  sum_spectra g (cosmic_elem (self s)) (Z.of_nat i + 3) zeros s = Ok cr ->
  sum_spectra g (metal_elem (self s)) (Z.of_nat i + 2) zeros s = Ok ml ->
  sum_spectra g (metal_elem (self s)) (Z.of_nat i + 3) zeros s = Ok mr ->
  0 < dT /\ dT <= 1 /\
  exists c m,
    get_spectrum g kT s = (Ok (c, m), s) /\
    forall j, (j < n)%nat ->
      between (nth j cl 0) (nth j cr 0) (nth j c 0) /\
      between (nth j ml 0) (nth j mr 0) (nth j m 0) /\
      (0 <= nth j cl 0 -> 0 <= nth j cr 0 -> 0 <= nth j c 0) /\
      (0 <= nth j ml 0 -> 0 <= nth j mr 0 -> 0 <= nth j m 0).
Proof.
  intros HP HT Hinc Hi Hlo Hhi n zeros dT Hcl Hcr Hml Hmr.
  destruct (Prepared_view _ _ _ _ HP) as (lh & ch & tv' & lo & hi & V).
  destruct (prepared_shape _ _ _ _ _ _ _ _ _ V) as (Hn & He & Hd & Hm).
  pose proof (pv_dTvals _ _ _ _ _ _ _ _ _ V) as HdT.
  pose proof (pv_Tvals _ _ _ _ _ _ _ _ _ V) as HT'.
  rewrite HT in HT'. injection HT' as <-.
  assert (Hgap : 0 < nth (S i) tv 0 - nth i tv 0) by lra.
  assert (Hd0 : 0 < dT).
  { unfold dT. apply Qlt_shift_div_l; lra. }
  assert (Hd1 : dT <= 1).
  { unfold dT. apply Qle_shift_div_r; lra. }
  split; [exact Hd0|]. split; [exact Hd1|].
  pose proof (sum_spectra_length _ _ _ _ _ _ Hn He Hd Hm
                (repeat_length _ _) Hcl) as Lcl.
  pose proof (sum_spectra_length _ _ _ _ _ _ Hn He Hd Hm
                (repeat_length _ _) Hcr) as Lcr.
  pose proof (sum_spectra_length _ _ _ _ _ _ Hn He Hd Hm
                (repeat_length _ _) Hml) as Lml.
  pose proof (sum_spectra_length _ _ _ _ _ _ Hn He Hd Hm
                (repeat_length _ _) Hmr) as Lmr.
  fold n in Lcl, Lcr, Lml, Lmr.
  exists (blend cl cr dT), (blend ml mr dT). split.
  - apply (get_spectrum_bracket g s kT tv i cl cr ml mr); auto.
    now apply temperature_index_bracket.
  - intros j Hj.
    pose proof (nth_blend cl cr dT j ltac:(lia) ltac:(lia)) as Hc.
    pose proof (nth_blend ml mr dT j ltac:(lia) ltac:(lia)) as Hmm.
    split; [apply (blend_between _ _ _ dT); auto; lra|].
    split; [apply (blend_between _ _ _ dT); auto; lra|].
    split; intros Ha Hb.
    + rewrite Hc. nra.
    + rewrite Hmm. nra.
Qed.

(** The example model at [kT = 3/2]. *)
Lemma get_spectrum_between_blocks_witness :
  let s := example_state 0 in
  let n := Z.to_nat (nchan (base (self s))) in
  let dT := ((3 # 2) - nth 0 [1; 2; 3] 0)
            / (nth 1 [1; 2; 3] 0 - nth 0 [1; 2; 3] 0) in
  let cl := example_sum 0 (cosmic_elem (self s)) 2 in
  let cr := example_sum 0 (cosmic_elem (self s)) 3 in
  let ml := example_sum 0 (metal_elem (self s)) 2 in
  let mr := example_sum 0 (metal_elem (self s)) 3 in
  0 < dT /\ dT <= 1 /\
  exists c m,
    get_spectrum example_globals (3 # 2) s = (Ok (c, m), s) /\
    forall j, (j < n)%nat ->
      between (nth j cl 0) (nth j cr 0) (nth j c 0) /\
      between (nth j ml 0) (nth j mr 0) (nth j m 0) /\
      (0 <= nth j cl 0 -> 0 <= nth j cr 0 -> 0 <= nth j c 0) /\
      (0 <= nth j ml 0 -> 0 <= nth j mr 0 -> 0 <= nth j m 0).
Proof.
  apply (get_spectrum_between_blocks example_globals example_fs 0
           (example_state 0) (3 # 2) [1; 2; 3] 0).
  - exact example_prepared_rest.
  - reflexivity.
  - apply increasingb_spec. reflexivity.
  - simpl. lia.
  - reflexivity.
  - discriminate.
  - vm_compute. reflexivity.
  - vm_compute. reflexivity.
  - vm_compute. reflexivity.
  - vm_compute. reflexivity.
Defined.

(** ** The constructor of the absorption model *)

(** X9.  [TableAbsorbModel.__init__] on an existing table file.  An empty
    [energy] dataset makes it raise [ValueError] (the minimum of an empty
    array).  Otherwise it succeeds whatever the two datasets hold: the grid
    runs from the smallest to the largest entry of [energy], the channel
    count is the length of [cross_section] with one more bin edge, the
    cross sections are stored as read, and the length of [energy] is never
    compared with the channel count. *)
Theorem absorb_init_from_table fs filename nH0 energy cross_section :
  fs filename = Some (H5File energy cross_section) ->
  (energy = [] ->
   TableAbsorbModel.init fs filename nH0 = Raise ValueError) /\
  (energy <> [] ->
   exists o e0 e1,
     TableAbsorbModel.init fs filename nH0 = Ok o /\
     In e0 energy /\ In e1 energy /\
     (forall e, In e energy -> e0 <= e /\ e <= e1) /\
     emin (TableAbsorbModel.base o) = e0 /\
     emax (TableAbsorbModel.base o) = e1 /\
     nchan (TableAbsorbModel.base o) = Z.of_nat (length cross_section) /\
     length (ebins (TableAbsorbModel.base o)) = S (length cross_section) /\
     TableAbsorbModel.sigma o = cross_section /\
     TableAbsorbModel.filename o = filename).
Proof.
  intros Hfs. unfold TableAbsorbModel.init. rewrite Hfs. split.
  - intros ->. reflexivity.
  - intros Hne.
    destruct (np_min energy) as [e0|] eqn:H0;
      [|destruct energy; [congruence | discriminate]].
    destruct (np_max energy) as [e1|] eqn:H1;
      [|destruct energy; [congruence | discriminate]].
    cbn [rbind].
    destruct (SpectralModel_init e0 e1 (Z.of_nat (length cross_section)))
      as [b|e] eqn:Hb.
    2:{ exfalso. unfold SpectralModel_init, np_linspace in Hb.
        destruct (Z.ltb_spec (Z.of_nat (length cross_section) + 1) 0);
          [lia|].
        destruct (Z.to_nat (Z.of_nat (length cross_section) + 1))
          as [|[|k]]; discriminate. }
    cbn [rbind]. eexists _, e0, e1. split; [reflexivity|].
    destruct (init_fields _ _ _ _ Hb) as (Hmin & Hmax & Hn).
    destruct (grid_shape _ _ _ _ Hb) as (_ & _ & Hlen & _).
    cbn [TableAbsorbModel.base TableAbsorbModel.sigma TableAbsorbModel.filename].
    split; [exact (np_min_In _ _ H0)|].
    split; [exact (np_max_In _ _ H1)|].
    split.
    { intros e He. split;
        [exact (np_min_le _ _ H0 e He) | exact (np_max_ge _ _ H1 e He)]. }
    repeat split; auto. rewrite Hlen. lia.
Qed.

(** The example table: three energies, three cross sections. *)
Lemma absorb_init_from_table_witness :
  exists o e0 e1,
    TableAbsorbModel.init example_fs "/atomdb/abs_table.h5" (1 # 10) = Ok o /\
    In e0 [1; 2; 3] /\ In e1 [1; 2; 3] /\
    (forall e, In e [1; 2; 3] -> e0 <= e /\ e <= e1) /\
    emin (TableAbsorbModel.base o) = e0 /\
    emax (TableAbsorbModel.base o) = e1 /\
    nchan (TableAbsorbModel.base o) = Z.of_nat (length [1; 2; 3]) /\
    length (ebins (TableAbsorbModel.base o)) = S (length [1; 2; 3]) /\
    TableAbsorbModel.sigma o = [1; 2; 3] /\
    TableAbsorbModel.filename o = "/atomdb/abs_table.h5"%string.
Proof.
  refine (proj2 (absorb_init_from_table example_fs "/atomdb/abs_table.h5"
                   (1 # 10) [1; 2; 3] [1; 2; 3] _) _).
  - reflexivity.
  - discriminate.
Defined.

(** ** Uniform channels *)

(** X10.  For [nchan > 0], whatever [emin] and [emax] are, the grid built
    by [SpectralModel.__init__] is uniform: every bin width equals
    [(emax - emin)/nchan], the center of bin [i] is
    [emin + (i + 1/2)*(emax - emin)/nchan], and the widths add up to
    [emax - emin]. *)
Theorem energy_grid_uniform (emin0 emax0 : Q) (nchan0 : Z) :
  (0 < nchan0)%Z ->
  exists m, SpectralModel_init emin0 emax0 nchan0 = Ok m /\
    let width := (emax0 - emin0) / inject_Z nchan0 in
    (forall i, (i < Z.to_nat nchan0)%nat ->
       nth i (de m) 0 == width /\
       nth i (emid m) 0
       == emin0 + (inject_Z (Z.of_nat i) + (1 # 2)) * width) /\
    vsum (de m) == emax0 - emin0.
Proof.
  intros Hn.
  destruct (Z.to_nat nchan0) as [|k] eqn:Hk; [lia|].
  assert (Hz : nchan0 = Z.of_nat (S k)) by lia. subst nchan0.
  rewrite SpectralModel_init_pos. cbv zeta.
  eexists; split; [reflexivity|]. cbn [ebins de emid].
  set (eb := map _ (seq 0 (S k)) ++ [emax0]).
  assert (Hlen : length eb = S (S k)).
  { unfold eb. rewrite length_app, length_map, length_seq. simpl. lia. }
  assert (Hedge : forall i, (i <= S k)%nat ->
            nth i eb 0 == emin0 + inject_Z (Z.of_nat i)
                                  * ((emax0 - emin0) / inject_Z (Z.of_nat (S k)))).
  { intros i Hi. unfold eb. now apply grid_edge_formula. }
  pose proof (inject_Z_pos k) as Hpos.
  split.
  - intros i Hi.
    assert (HSi : inject_Z (Z.of_nat (S i)) == inject_Z (Z.of_nat i) + 1).
    { rewrite Nat2Z.inj_succ. unfold Z.succ. rewrite inject_Z_plus.
      reflexivity. }
    split.
    + rewrite nth_np_diff by lia.
      rewrite (Hedge (S i)), (Hedge i) by lia. rewrite HSi. field. lra.
    + rewrite (nth_indep _ 0 ((1 # 2) * 0))
        by (rewrite length_map; unfold vadd;
            rewrite map2_length, tl_length, removelast_len; lia).
      rewrite (map_nth (fun s => (1 # 2) * s)). unfold vadd.
      rewrite (nth_map2 Qplus _ _ i 0 0 0)
        by (rewrite ?tl_length, ?removelast_len; lia).
      rewrite nth_tl, nth_removelast by lia.
      rewrite (Hedge (S i)), (Hedge i) by lia. rewrite HSi. field. lra.
  - rewrite vsum_np_diff by lia. rewrite Hlen.
    replace (S (S k) - 1)%nat with (S k) by lia.
    rewrite (Hedge (S k)), (Hedge 0%nat) by lia.
    change (inject_Z (Z.of_nat 0)) with 0. field. lra.
Qed.

(** Four channels from 1 to 3 keV. *)
Lemma energy_grid_uniform_witness :
  exists m, SpectralModel_init 1 3 4 = Ok m /\
    let width := (3 - 1) / inject_Z 4 in
    (forall i, (i < Z.to_nat 4)%nat ->
       nth i (de m) 0 == width /\
       nth i (emid m) 0 == 1 + (inject_Z (Z.of_nat i) + (1 # 2)) * width) /\
    vsum (de m) == 3 - 1.
Proof.
  apply (energy_grid_uniform 1 3 4). lia.
Defined.

(** ** The element sets *)

Lemma Z_range_In (z : Z) (n : nat) :
  (1 <= z <= Z.of_nat n)%Z -> In z (map Z.of_nat (seq 1 n)).
Proof.
  intros H. apply in_map_iff. exists (Z.to_nat z). split; [lia|].
  apply in_seq. lia.
Qed.

(** X11.  In every constructed [TableApecModel] the trace set
    [cosmic_elem] and the metal set [metal_elem] split the atomic numbers 1
    to 30: no number is in both, none is listed twice, every number from 1
    to 30 is in one of them and nothing else is; and [self.A] holds a
    positive mass for each of them, so [A[element]] never raises for an
    element of either set. *)
Theorem element_sets_partition g root e0 e1 n vers tb o :
  init g root e0 e1 n vers tb = Ok o ->
  NoDup (cosmic_elem o ++ metal_elem o) /\
  (forall z, In z (cosmic_elem o) -> ~ In z (metal_elem o)) /\
  (forall z, (1 <= z <= 30)%Z <->
             In z (cosmic_elem o) \/ In z (metal_elem o)) /\
  (forall z, In z (cosmic_elem o) \/ In z (metal_elem o) ->
             exists a, getitem (A o) z = Ok a /\ 0 < a).
Proof.
  unfold init.
  destruct (SpectralModel_init e0 e1 n) as [b|]; cbn [rbind]; [|discriminate].
  intros [= <-]. cbn [cosmic_elem metal_elem A].
  set (ce := [1; 2; 3; 4; 5; 9; 11; 15; 17; 19; 21; 22; 23; 24; 25; 27; 29;
              30]%Z).
  set (me := [6; 7; 8; 10; 12; 13; 14; 16; 18; 20; 26; 28]%Z).
  assert (Hdup : NoDup (ce ++ me)).
  { unfold ce, me. cbn [app].
    repeat (constructor; [cbn [In]; intros H;
              repeat (destruct H as [H|H]; [discriminate|]); exact H|]).
    constructor. }
  assert (Hall : forall z, In z ce \/ In z me <-> In z (ce ++ me)).
  { intros z. symmetry. apply in_app_iff. }
  assert (Hcover : forall z, In z (map Z.of_nat (seq 1 30)) -> In z (ce ++ me)).
  { assert (Hb : forallb (fun z => existsb (Z.eqb z) (ce ++ me))
                   (map Z.of_nat (seq 1 30)) = true) by (vm_compute; reflexivity).
    intros z Hz. rewrite forallb_forall in Hb. specialize (Hb z Hz).
    apply existsb_exists in Hb. destruct Hb as (y & Hy & Heq).
    apply Z.eqb_eq in Heq. now subst. }
  assert (Hmass : forall z, In z (ce ++ me) ->
            (1 <= z <= 30)%Z /\
            exists a, getitem atomic_masses z = Ok a /\ 0 < a).
  { intros z Hz. unfold ce, me in Hz. cbn [app In] in Hz.
    repeat (destruct Hz as [<-|Hz];
            [split; [lia|]; eexists; split; [vm_compute; reflexivity|];
             reflexivity|]).
    destruct Hz. }
  split; [exact Hdup|]. split; [|split].
  - intros z Hc Hm.
    assert (Hb : forallb (fun z => negb (existsb (Z.eqb z) me)) ce = true)
      by (vm_compute; reflexivity).
    rewrite forallb_forall in Hb. specialize (Hb z Hc).
    apply negb_true_iff in Hb.
    assert (Ht : existsb (Z.eqb z) me = true).
    { apply existsb_exists. exists z. split; [exact Hm | apply Z.eqb_refl]. }
    congruence.
  - intros z. split.
    + intros Hz. apply Hall, Hcover. now apply (Z_range_In z 30).
    + intros Hz. apply Hall in Hz. now apply Hmass.
  - intros z Hz. apply Hall in Hz. now apply Hmass.
Qed.

(** The example object. *)
Lemma element_sets_partition_witness :
  NoDup (cosmic_elem example_object ++ metal_elem example_object) /\
  (forall z, In z (cosmic_elem example_object) ->
             ~ In z (metal_elem example_object)) /\
  (forall z, (1 <= z <= 30)%Z <->
             In z (cosmic_elem example_object)
             \/ In z (metal_elem example_object)) /\
  (forall z, In z (cosmic_elem example_object)
             \/ In z (metal_elem example_object) ->
             exists a, getitem (A example_object) z = Ok a /\ 0 < a).
Proof.
  apply (element_sets_partition example_globals "/atomdb" 1 5 4 "2.0.2" false).
  vm_compute. reflexivity.
Defined.

(** ** Continuum records without points *)

Lemma sparse_prepared : Prepared example_globals sparse_fs 0 sparse_state.
Proof.
  exists "/atomdb"%string, 1, 5, 4%Z, "2.0.2"%string, false, example_object, [].
  split; vm_compute; reflexivity.
Qed.

Lemma curve_on_grid_empty s e c sf :
  scale_factor (self s) = Some sf ->
  curve_on_grid 0 e c s = (Raise ValueError, s).
Proof.
  intros Hsf. unfold curve_on_grid, bind, gets, attr, lift, ret.
  rewrite Hsf. reflexivity.
Qed.

(** X12.  On a prepared model, when the line part of [_make_spectrum]
    returns and the continuum block holds a record of the element (with
    [rmJ == 0]): if the record announces no continuum point
    ([N_Cont == 0]), [np.interp] is given empty sample arrays and
    [_make_spectrum] raises [ValueError]; and if the continuum curve is laid
    on the grid but the record announces no pseudo-continuum point
    ([N_Pseudo == 0]), it raises [ValueError] at the second curve. *)
Theorem empty_continuum_record_raises
    g fs zobs s elem block vec ch crows row :
  Prepared g fs zobs s ->
  fst (line_spectrum g elem block s) = Ok vec ->
  coco_handle (self s) = Some ch ->
  getitem ch block = Ok (CocoHDU crows) ->
  find (fun r => (coco_Z r =? elem)%Z && (rmJ r =? 0)%Z) crows = Some row ->
  (N_Cont row = 0%Z ->
   _make_spectrum g elem block s = (Raise ValueError, s)) /\
  (forall cont,
     fst (curve_on_grid (N_Cont row) (E_Cont row) (Continuum row) s) = Ok cont ->
     N_Pseudo row = 0%Z ->
     _make_spectrum g elem block s = (Raise ValueError, s)).
Proof.
  intros HP Hvec Hch Hblock Hfind.
  destruct (Prepared_view _ _ _ _ HP) as (lh & ch' & tv & lo & hi & V).
  destruct (prepared_shape _ _ _ _ _ _ _ _ _ V) as (Hn & _).
  pose proof (pv_scale_factor _ _ _ _ _ _ _ _ _ V) as Hsf.
  assert (Hunfold :
            _make_spectrum g elem block s
            = bind (curve_on_grid (N_Cont row) (E_Cont row) (Continuum row))
                (fun cont =>
                   bind (curve_on_grid (N_Pseudo row) (E_Pseudo row)
                           (Pseudo row))
                     (fun ps =>
                        ret (vadd (vadd (vadd (repeat 0 (Z.to_nat
                               (nchan (base (self s))))) vec) cont) ps))) s).
  { unfold _make_spectrum at 1. unfold bind at 1 2 3. unfold gets at 1.
    unfold lift at 1. cbv beta iota. rewrite (np_zeros_ok _ Hn).
    cbv beta iota.
    rewrite (readonly_run _ s (readonly_line_spectrum g elem block)), Hvec.
    cbv beta iota. unfold bind at 1 2 3. unfold attr at 1.
    rewrite Hch. unfold lift at 1 2. cbv beta iota.
    rewrite Hblock. cbn [coco_rows]. now rewrite Hfind. }
  rewrite Hunfold. split.
  - intros H0. rewrite H0. unfold bind at 1.
    now rewrite (curve_on_grid_empty s _ _ _ Hsf).
  - intros cont Hcont H0. unfold bind at 1.
    rewrite (readonly_run _ s (readonly_curve_on_grid _ _ _)), Hcont.
    rewrite H0. unfold bind at 1.
    now rewrite (curve_on_grid_empty s _ _ _ Hsf).
Qed.

(** Hydrogen in block 2 of the table with the empty record. *)
Lemma empty_continuum_record_raises_witness :
  _make_spectrum example_globals 1 2 sparse_state
  = (Raise ValueError, sparse_state).
Proof.
  refine (proj1 (empty_continuum_record_raises example_globals sparse_fs 0
                   sparse_state 1 2 [0; 7; 0; 0] sparse_coco_file _ _
                   _ _ _ _ _) _).
  - exact sparse_prepared.
  - vm_compute. reflexivity.
  - reflexivity.
  - reflexivity.
  - reflexivity.
  - reflexivity.
Defined.

(** ** Conservation of the line amplitudes *)

Lemma vsum_add_at vec : forall k a,
  (k < length vec)%nat -> vsum (add_at k a vec) == vsum vec + a.
Proof.
  induction vec as [|x rest IH]; intros [|k] a H; simpl in *; try lia.
  - ring.
  - change (fold_right Qplus 0 (add_at k a rest)) with (vsum (add_at k a rest)).
    rewrite IH by lia.
    change (fold_right Qplus 0 rest) with (vsum rest). ring.
Qed.

Lemma vsum_deposit ie : forall amp vec out,
  length ie = length amp ->
  deposit vec ie amp = Ok out ->
  vsum out == vsum vec + vsum amp.
Proof.
  induction ie as [|i ie IH]; intros [|a amp] vec out Hlen H;
    cbn [length deposit] in *; try discriminate.
  - injection H as <-. unfold vsum. simpl. ring.
  - unfold iadd_item in H.
    destruct (py_index (length vec) i) as [k|] eqn:Hk; [|discriminate].
    cbn [rbind] in H.
    apply IH in H; [|lia].
    apply py_index_bound in Hk.
    pose proof (vsum_add_at vec k a Hk) as Hadd.
    assert (Hcons : vsum (a :: amp) == a + vsum amp) by reflexivity.
    rewrite H, Hadd, Hcons. ring.
Qed.

Lemma vsum_zeros n : vsum (repeat 0 n) == 0.
Proof.
  induction n as [|k IH]; simpl; [reflexivity|].
  change (fold_right Qplus 0 (repeat 0 k)) with (vsum (repeat 0 k)).
  rewrite IH. ring.
Qed.

(** X13.  Without thermal broadening, whenever the line part of
    [_make_spectrum] returns on a prepared model, the entries of the array
    add up to the sum of the amplitudes of the selected lines: the binning
    moves amplitude between channels (a line shifted below the grid ends in
    the last one) but creates and loses none. *)
Theorem line_loop_conserves_amplitude g fs zobs s elem block lh rows lo hi vec :
  Prepared g fs zobs s ->
  thermal_broad (self s) = false ->
  line_handle (self s) = Some lh ->
  getitem lh block = Ok (LineHDU rows) ->
  minlam (self s) = Some lo ->
  maxlam (self s) = Some hi ->
  fst (line_spectrum g elem block s) = Ok vec ->
  vsum vec == vsum (map epsilon (select_lines elem lo hi rows)).
Proof.
  intros HP Htb Hlh Hblock Hlo Hhi Hvec.
  destruct (Prepared_view _ _ _ _ HP) as (lh' & ch & tv & lo' & hi' & V).
  destruct (prepared_shape _ _ _ _ _ _ _ _ _ V) as (Hn & _).
  rewrite (line_spectrum_unbroadened g s elem block lh rows lo hi
             (1 / (1 + zobs))) in Hvec; auto.
  2:{ exact (pv_scale_factor _ _ _ _ _ _ _ _ _ V). }
  cbn [fst] in Hvec.
  apply vsum_deposit in Hvec; [|now rewrite !length_map].
  rewrite Hvec, vsum_zeros. ring.
Qed.

(** Block 4 of the example tables at redshift 1: the line wraps to the last
    channel and its amplitude 2 is all there is. *)
Lemma line_loop_conserves_amplitude_witness :
  vsum [0; 0; 0; 0 + 2]
  == vsum (map epsilon
             (select_lines 1 (123984193 # 50000000) (495936772 # 40000000)
                [ {| element := 1; lambda := example_wavelength (3 # 2);
                     epsilon := 2 |} ])).
Proof.
  apply (line_loop_conserves_amplitude example_globals example_fs 1
           (example_state 1) 1 4 example_line_file).
  - exact example_prepared_redshifted.
  - reflexivity.
  - reflexivity.
  - reflexivity.
  - vm_compute. reflexivity.
  - vm_compute. reflexivity.
  - vm_compute. reflexivity.
Defined.

(** ** Preparing a model a second time *)

(** Two objects with the same attributes are the same object. *)
Lemma object_ext (a b : TableApecModel.t) :
  apec_root a = apec_root b -> apec_prefix a = apec_prefix b ->
  cocofile a = cocofile b -> linefile a = linefile b ->
  base a = base b -> wvbins a = wvbins b ->
  cosmic_elem a = cosmic_elem b -> metal_elem a = metal_elem b ->
  thermal_broad a = thermal_broad b -> A a = A b ->
  line_handle a = line_handle b -> coco_handle a = coco_handle b ->
  Tvals a = Tvals b -> dTvals a = dTvals b ->
  minlam a = minlam b -> maxlam a = maxlam b ->
  scale_factor a = scale_factor b ->
  a = b.
Proof.
  destruct a, b; cbn; intros; subst; reflexivity.
Qed.

Lemma state_ext (a b : State) :
  self a = self b -> mylog a = mylog b -> a = b.
Proof.
  destruct a, b; cbn; intros; subst; reflexivity.
Qed.

Ltac same_state :=
  apply state_ext; cbn [self mylog];
  [apply object_ext; cbn; reflexivity | reflexivity].

(** X14.  [prepare_spectrum] can be called again with another redshift: on
    a state that one call has left, a second call with [1 + z2] not zero
    returns, and leaves exactly the state that the same call leaves when it
    is the first.  Against the state it started from only the scale factor
    has changed; the handles, the temperature grid and the wavelength
    window are set again to what they were. *)
Theorem prepare_spectrum_again fs z1 z2 s0 s1 :
  prepare_spectrum fs z1 s0 = (Ok tt, s1) ->
  ~ 1 + z2 == 0 ->
  exists s2,
    prepare_spectrum fs z2 s1 = (Ok tt, s2) /\
    prepare_spectrum fs z2 s0 = (Ok tt, s2) /\
    s2 = {| self := set_scale_factor (1 / (1 + z2)) (self s1);
            mylog := mylog s1 |}.
Proof.
  intros Hprep Hz2. destruct s0 as [o log].
  assert (Hq : Qeq_bool (1 + z2) 0 = false).
  { destruct (Qeq_bool (1 + z2) 0) eqn:E; auto.
    apply Qeq_bool_eq in E. contradiction. }
  unfold prepare_spectrum, bind, gets, attr, modify, lift, open_table in *.
  cbn [self mylog linefile cocofile] in *.
  destruct (pyfits_open fs (linefile o)) as [lh|e] eqn:Hlh;
    [| destruct e; simpl in Hprep; discriminate].
  cbn in Hprep.
  destruct (pyfits_open fs (cocofile o)) as [ch|e] eqn:Hch;
    [| destruct e; simpl in Hprep; discriminate].
  cbn in Hprep.
  destruct (getitem lh 1) as [h1|e] eqn:Hh1; [|discriminate].
  destruct (field_kT h1) as [tv|e] eqn:Htv; [|discriminate].
  cbn in Hprep.
  destruct (np_min _) as [lo|e] eqn:Hlo in Hprep; [|discriminate].
  cbn in Hprep.
  destruct (np_max _) as [hi|e] eqn:Hhi in Hprep; [|discriminate].
  cbn in Hprep.
  destruct (Qeq_bool (1 + z1) 0) eqn:Hz; [discriminate|].
  injection Hprep as <-.
  cbn. rewrite Hlh. cbn. rewrite Hch. cbn. rewrite Hh1, Htv. cbn.
  rewrite Hlo, Hhi, Hq. cbn.
  eexists; split; [reflexivity|]. split.
  - apply (f_equal (pair (Ok tt))). same_state.
  - same_state.
Qed.

(** The example model prepared at redshift 1 and then at redshift 0 is the
    example model prepared at redshift 0. *)
Lemma prepare_spectrum_again_witness :
  exists s2,
    prepare_spectrum example_fs 0 (example_state 1) = (Ok tt, s2) /\
    prepare_spectrum example_fs 0 {| self := example_object; mylog := [] |}
      = (Ok tt, s2) /\
    s2 = {| self := set_scale_factor (1 / (1 + 0)) (self (example_state 1));
            mylog := mylog (example_state 1) |}.
Proof.
  apply (prepare_spectrum_again example_fs 1 0
           {| self := example_object; mylog := [] |} (example_state 1)).
  - vm_compute. reflexivity.
  - intro H. vm_compute in H. discriminate H.
Defined.

(** ** Nonnegative tables *)

Lemma nonneg_nth a i : nonneg a -> 0 <= nth i a 0.
Proof.
  intros H. destruct (Nat.lt_ge_cases i (length a)) as [Hi|Hi].
  - unfold nonneg in H. rewrite Forall_forall in H. apply H. now apply nth_In.
  - rewrite nth_overflow by lia. lra.
Qed.

Lemma nonneg_zeros n : nonneg (repeat 0 n).
Proof.
  apply Forall_forall. intros x Hx. apply repeat_spec in Hx. subst. lra.
Qed.

Lemma nonneg_firstn n : forall a, nonneg a -> nonneg (firstn n a).
Proof.
  induction n as [|n IH]; intros [|x a] H; simpl; try constructor.
  - now inversion H.
  - apply IH. now inversion H.
Qed.

Lemma nonneg_slice_to a n : nonneg a -> nonneg (slice_to a n).
Proof.
  intros H. unfold slice_to. destruct (0 <=? n)%Z; now apply nonneg_firstn.
Qed.

Lemma nonneg_map2 (f : Q -> Q -> Q) :
  (forall x y, 0 <= x -> 0 <= y -> 0 <= f x y) ->
  forall a b, nonneg a -> nonneg b -> nonneg (map2 f a b).
Proof.
  intros Hf. induction a as [|x a IH]; intros [|y b] Ha Hb; simpl;
    try constructor.
  - apply Hf; [now inversion Ha | now inversion Hb].
  - apply IH; [now inversion Ha | now inversion Hb].
Qed.

Lemma nonneg_vadd a b : nonneg a -> nonneg b -> nonneg (vadd a b).
Proof. apply nonneg_map2. intros; lra. Qed.

Lemma nonneg_vmul a b : nonneg a -> nonneg b -> nonneg (vmul a b).
Proof. apply nonneg_map2. intros; nra. Qed.

Lemma nonneg_add_at a : 0 <= a ->
  forall vec k, nonneg vec -> nonneg (add_at k a vec).
Proof.
  intros Ha. induction vec as [|x rest IH]; intros [|k] H; simpl;
    try constructor; inversion H; subst; auto.
  - lra.
  - now apply IH.
Qed.

Lemma nonneg_deposit ie : forall amp vec out,
  nonneg vec -> nonneg amp ->
  deposit vec ie amp = Ok out -> nonneg out.
Proof.
  induction ie as [|i ie IH]; intros [|a amp] vec out Hvec Hamp H;
    cbn [deposit] in H; try (injection H as <-; assumption).
  unfold iadd_item in H.
  destruct (py_index (length vec) i) as [k|]; [|discriminate].
  cbn [rbind] in H. inversion Hamp; subst.
  eapply IH; [| |exact H]; auto. now apply nonneg_add_at.
Qed.

Lemma increasing_vscale a c : 0 <= c -> increasing a -> increasing (vscale a c).
Proof.
  intros Hc Ha i j Hij. rewrite vscale_length in Hij.
  rewrite !nth_vscale. specialize (Ha i j Hij). nra.
Qed.

(** On increasing sample points the interpolant of nonnegative values is
    nonnegative: between two points it weighs their values with weights in
    [[0, 1]]. *)
Lemma interp1_nonneg xp fp x :
  increasing xp -> nonneg fp -> 0 <= interp1 xp fp x.
Proof.
  intros Hinc Hfp. unfold interp1.
  destruct (searchsorted_right_spec xp x Hinc) as (r & Hr & Hle & Hin & Hout).
  rewrite Hr.
  destruct (Z.eqb_spec (Z.of_nat r) 0) as [H0|H0];
    [now apply nonneg_nth|].
  destruct (Z.leb_spec (Z.of_nat (length xp)) (Z.of_nat r)) as [Hn|Hn];
    [now apply nonneg_nth|].
  replace (Z.to_nat (Z.of_nat r - 1)) with (r - 1)%nat by lia.
  replace (S (r - 1)) with r by lia.
  pose proof (Hin (r - 1)%nat ltac:(lia)) as Ht.
  pose proof (Hout r ltac:(lia)) as Hf.
  pose proof (nonneg_nth fp r Hfp) as F1.
  pose proof (nonneg_nth fp (r - 1) Hfp) as F0.
  set (x0 := nth (r - 1) xp 0) in *. set (x1 := nth r xp 0) in *.
  set (f0 := nth (r - 1) fp 0) in *. set (f1 := nth r fp 0) in *.
  assert (Hd : 0 < x1 - x0) by lra.
  assert (E : (f1 - f0) / (x1 - x0) * (x - x0) + f0
              == (f1 * (x - x0) + f0 * (x1 - x)) / (x1 - x0)).
  { field. lra. }
  rewrite E. apply Qle_shift_div_l; [exact Hd|]. nra.
Qed.

Lemma np_interp_nonneg x xp fp y :
  increasing xp -> nonneg fp -> np_interp x xp fp = Ok y -> nonneg y.
Proof.
  intros Hinc Hfp. unfold np_interp.
  destruct (length xp =? 0)%nat; [discriminate|].
  destruct (negb _); [discriminate|]. intros [= <-].
  apply Forall_forall. intros v Hv. apply in_map_iff in Hv.
  destruct Hv as (u & <- & _). now apply interp1_nonneg.
Qed.

Lemma curve_on_grid_nonneg s n e c v sf :
  scale_factor (self s) = Some sf -> 0 <= sf ->
  increasing (slice_to e n) ->
  nonneg (de (base (self s))) -> nonneg c ->
  fst (curve_on_grid n e c s) = Ok v -> nonneg v.
Proof.
  intros Hsf Hpos Hinc Hde Hc H.
  unfold curve_on_grid, bind, gets, attr, lift, ret in H.
  rewrite Hsf in H. chew H. injection H as <-.
  apply nonneg_vmul; auto.
  eapply np_interp_nonneg; [| |eassumption].
  - now apply increasing_vscale.
  - now apply nonneg_slice_to.
Qed.

Lemma grid_widths_nonneg e0 e1 n0 b :
  SpectralModel_init e0 e1 n0 = Ok b -> e0 <= e1 -> nonneg (de b).
Proof.
  intros Hb Hle.
  destruct (Z_lt_le_dec 0 n0) as [Hpos|Hneg].
  - destruct (Z.to_nat n0) as [|k] eqn:Hk; [lia|].
    assert (Hz : n0 = Z.of_nat (S k)) by lia. subst n0.
    rewrite SpectralModel_init_pos in Hb. cbv zeta in Hb.
    assert (Hde : de b
                  = np_diff
                      (map (fun i => inject_Z (Z.of_nat i)
                                     * ((e1 - e0) / inject_Z (Z.of_nat (S k)))
                                     + e0) (seq 0 (S k)) ++ [e1]))
      by (injection Hb as <-; reflexivity).
    rewrite Hde. clear Hde Hb.
    assert (Hlen : length (map (fun i => inject_Z (Z.of_nat i)
                                     * ((e1 - e0) / inject_Z (Z.of_nat (S k)))
                                     + e0) (seq 0 (S k)) ++ [e1]) = S (S k)).
    { rewrite length_app, length_map, length_seq. simpl. lia. }
    apply Forall_forall. intros x Hx.
    apply (In_nth _ _ 0) in Hx. destruct Hx as (i & Hi & <-).
    rewrite np_diff_length, Hlen in Hi.
    rewrite nth_np_diff by lia.
    rewrite !grid_edge_formula by lia.
    assert (HSi : inject_Z (Z.of_nat (S i)) == inject_Z (Z.of_nat i) + 1).
    { rewrite Nat2Z.inj_succ. unfold Z.succ. rewrite inject_Z_plus.
      reflexivity. }
    rewrite HSi.
    pose proof (inject_Z_pos k) as Hk0.
    assert (Hw : 0 <= (e1 - e0) / inject_Z (Z.of_nat (S k))).
    { apply Qle_shift_div_l; [exact Hk0|]. lra. }
    lra.
  - apply grid_shape in Hb. destruct Hb as (_ & _ & _ & Hd & _).
    replace (Z.to_nat n0) with 0%nat in Hd by lia.
    apply length_zero_iff_nil in Hd. rewrite Hd. constructor.
Qed.

Lemma nonneg_map_epsilon sel :
  (forall r, In r sel -> 0 <= epsilon r) -> nonneg (map epsilon sel).
Proof.
  intros H. apply Forall_forall. intros x Hx. apply in_map_iff in Hx.
  destruct Hx as (r & <- & Hr). now apply H.
Qed.

(** One block: the array of [_make_spectrum] has no negative entry when the
    bin widths, the line amplitudes of the block and its two tabulated
    curves have none, the scale factor is not negative and the sample
    energies of the curves are increasing. *)
Lemma make_spectrum_nonneg g s elem block lh rows ch crows sf v :
  (0 <= nchan (base (self s)))%Z ->
  nonneg (de (base (self s))) ->
  thermal_broad (self s) = false ->
  line_handle (self s) = Some lh ->
  getitem lh block = Ok (LineHDU rows) ->
  (forall r, In r rows -> 0 <= epsilon r) ->
  coco_handle (self s) = Some ch ->
  getitem ch block = Ok (CocoHDU crows) ->
  (forall r, In r crows -> nonneg (Continuum r) /\ nonneg (Pseudo r)) ->
  scale_factor (self s) = Some sf -> 0 <= sf ->
  (forall r, In r crows ->
     increasing (slice_to (E_Cont r) (N_Cont r)) /\
     increasing (slice_to (E_Pseudo r) (N_Pseudo r))) ->
  fst (_make_spectrum g elem block s) = Ok v ->
  nonneg v.
Proof.
  intros Hn Hde Htb Hlh Hblock Heps Hch Hcblock Hcurves Hsf Hpos Hsorted H.
  unfold _make_spectrum, bind, gets, attr, lift, ret in H.
  rewrite (np_zeros_ok _ Hn) in H. cbv beta iota in H.
  rewrite (readonly_run _ s (readonly_line_spectrum g elem block)) in H.
  destruct (fst (line_spectrum g elem block s)) as [vec|] eqn:Hvec;
    [|discriminate].
  assert (Hv : nonneg vec).
  { unfold line_spectrum, bind, gets, attr, lift, ret in Hvec.
    rewrite Hlh in Hvec. cbv beta iota in Hvec.
    rewrite Hblock in Hvec. cbn [line_rows] in Hvec.
    rewrite (np_zeros_ok _ Hn) in Hvec. chew Hvec; try congruence.
    eapply nonneg_deposit; [| |exact Hvec].
    - apply nonneg_zeros.
    - apply nonneg_map_epsilon. intros r Hr. apply Heps.
      now apply select_lines_In in Hr. }
  cbv beta iota in H. rewrite Hch in H. cbv beta iota in H.
  rewrite Hcblock in H. cbn [coco_rows] in H.
  pose proof (nonneg_zeros (Z.to_nat (nchan (base (self s))))) as Hz.
  destruct (find _ crows) as [row|] eqn:Hfind.
  - apply find_some in Hfind. destruct Hfind as [Hrow _].
    destruct (Hcurves row Hrow) as [Hc Hp].
    destruct (Hsorted row Hrow) as [Sc Sp].
    rewrite (readonly_run _ s (readonly_curve_on_grid _ _ _)) in H.
    destruct (fst (curve_on_grid (N_Cont row) _ _ s)) as [cont|] eqn:Ec;
      [|discriminate].
    rewrite (readonly_run _ s (readonly_curve_on_grid _ _ _)) in H.
    destruct (fst (curve_on_grid (N_Pseudo row) _ _ s)) as [ps|] eqn:Ep;
      [|discriminate].
    apply (curve_on_grid_nonneg _ _ _ _ _ sf) in Ec; auto.
    apply (curve_on_grid_nonneg _ _ _ _ _ sf) in Ep; auto.
    injection H as <-. repeat apply nonneg_vadd; auto.
  - injection H as <-. now apply nonneg_vadd.
Qed.

Lemma getitem_In {X} (a : list X) i x : getitem a i = Ok x -> In x a.
Proof.
  unfold getitem. destruct (py_index _ i) as [k|]; [|discriminate].
  destruct (nth_error a k) as [y|] eqn:Hy; [|discriminate].
  intros [= <-]. eapply nth_error_In; eauto.
Qed.

Lemma make_spectrum_nonneg_tables g s elem block lh ch sf v :
  (0 <= nchan (base (self s)))%Z ->
  nonneg (de (base (self s))) ->
  thermal_broad (self s) = false ->
  line_handle (self s) = Some lh -> nonneg_lines lh ->
  coco_handle (self s) = Some ch -> nonneg_curves ch ->
  scale_factor (self s) = Some sf -> 0 <= sf ->
  increasing_samples ch ->
  fst (_make_spectrum g elem block s) = Ok v ->
  nonneg v.
Proof.
  intros Hn Hde Htb Hlh Hlines Hch Hcurves Hsf Hpos Hsorted H.
  assert (Hl : exists rows, getitem lh block = Ok (LineHDU rows)).
  { unfold _make_spectrum, bind, gets, attr, lift, ret in H.
    rewrite (np_zeros_ok _ Hn) in H. cbv beta iota in H.
    rewrite (readonly_run _ s (readonly_line_spectrum g elem block)) in H.
    destruct (fst (line_spectrum g elem block s)) as [vec|] eqn:Hvec;
      [|discriminate].
    unfold line_spectrum, bind, gets, attr, lift, ret in Hvec.
    rewrite Hlh in Hvec. cbv beta iota in Hvec.
    destruct (getitem lh block) as [hdu|]; [|discriminate].
    destruct (line_rows hdu) as [rows|] eqn:Hrows; [|discriminate].
    apply line_rows_inv in Hrows. subst. now exists rows. }
  assert (Hc : exists crows, getitem ch block = Ok (CocoHDU crows)).
  { unfold _make_spectrum, bind, gets, attr, lift, ret in H.
    rewrite (np_zeros_ok _ Hn) in H. cbv beta iota in H.
    rewrite (readonly_run _ s (readonly_line_spectrum g elem block)) in H.
    destruct (fst (line_spectrum g elem block s)) as [vec|];
      [|discriminate].
    cbv beta iota in H. rewrite Hch in H. cbv beta iota in H.
    destruct (getitem ch block) as [chdu|]; [|discriminate].
    destruct (coco_rows chdu) as [crows|] eqn:Hrows; [|discriminate].
    destruct chdu; simpl in Hrows; try discriminate.
    injection Hrows as <-. eexists; reflexivity. }
  destruct Hl as (rows & Hl). destruct Hc as (crows & Hc).
  apply (make_spectrum_nonneg g s elem block lh rows ch crows sf v); auto.
  - intros r Hr. apply (Hlines rows r); auto. eapply getitem_In; eauto.
  - intros r Hr. apply (Hcurves crows r); auto. eapply getitem_In; eauto.
  - intros r Hr. apply (Hsorted crows r); auto. eapply getitem_In; eauto.
Qed.

Lemma accumulate_nonneg g s ti elems : forall l r L R,
  (forall elem block v,
     fst (_make_spectrum g elem block s) = Ok v -> nonneg v) ->
  nonneg l -> nonneg r ->
  fst (accumulate g elems ti l r s) = Ok (L, R) ->
  nonneg L /\ nonneg R.
Proof.
  induction elems as [|e rest IH]; intros l r L R Hmk Hl Hr H;
    cbn [accumulate] in H.
  - unfold ret in H. cbn [fst] in H. injection H as <- <-. now split.
  - unfold bind in H.
    rewrite (readonly_run _ s (readonly_make_spectrum g e (ti + 2))) in H.
    destruct (fst (_make_spectrum g e (ti + 2) s)) as [vl|] eqn:El;
      [|discriminate].
    rewrite (readonly_run _ s (readonly_make_spectrum g e (ti + 3))) in H.
    destruct (fst (_make_spectrum g e (ti + 3) s)) as [vr|] eqn:Er;
      [|discriminate].
    apply (IH _ _ L R Hmk) in H; auto;
      apply nonneg_vadd; auto; eapply Hmk; eauto.
Qed.

Lemma nonneg_vscale a c : 0 <= c -> nonneg a -> nonneg (vscale a c).
Proof.
  intros Hc Ha. apply Forall_forall. intros x Hx. apply in_map_iff in Hx.
  destruct Hx as (y & <- & Hy).
  unfold nonneg in Ha. rewrite Forall_forall in Ha. specialize (Ha y Hy). nra.
Qed.

Lemma nonneg_blend l r dT :
  0 <= dT -> dT <= 1 -> nonneg l -> nonneg r -> nonneg (blend l r dT).
Proof.
  intros H0 H1 Hl Hr. unfold blend.
  apply nonneg_vadd; apply nonneg_vscale; auto. lra.
Qed.

(** Inside an increasing table the search leaves [kT] in
    [(T[i], T[i+1]]]. *)
Lemma temperature_index_inside tv kT :
  increasing tv ->
  let ti := temperature_index tv kT in
  (0 <= ti)%Z -> (ti < Z.of_nat (length tv) - 1)%Z ->
  exists i, ti = Z.of_nat i /\ (S i < length tv)%nat /\
    nth i tv 0 < kT /\ kT <= nth (S i) tv 0.
Proof.
  intros Hinc. unfold temperature_index.
  destruct (searchsorted_left_spec tv kT Hinc) as (r & Hr & Hle & Hin & Hout).
  rewrite Hr. intros H0 H1. exists (r - 1)%nat.
  replace (S (r - 1)) with r by lia.
  split; [lia|]. split; [lia|]. split.
  - apply Hin. lia.
  - apply Hout. lia.
Qed.

(** X15.  On a prepared model without thermal broadening, with
    [emin <= emax], a redshift above [-1] and an increasing temperature
    grid, if the sample energies of every continuum record are increasing,
    no line of the line file has a negative amplitude and no record of the
    continuum file a negative continuum or pseudo-continuum value, then
    both arrays of every spectrum that [get_spectrum] returns are free of
    negative entries, at every temperature: binning, interpolation on the
    grid and interpolation between the blocks only ever weigh the tabulated
    values with nonnegative weights. *)
Theorem get_spectrum_nonnegative g fs zobs s kT tv lh ch c m :
  Prepared g fs zobs s ->
  emin (base (self s)) <= emax (base (self s)) ->
  0 < 1 + zobs ->
  thermal_broad (self s) = false ->
  Tvals (self s) = Some tv -> increasing tv ->
  line_handle (self s) = Some lh -> nonneg_lines lh ->
  coco_handle (self s) = Some ch -> nonneg_curves ch ->
  increasing_samples ch ->
  fst (get_spectrum g kT s) = Ok (c, m) ->
  nonneg c /\ nonneg m.
Proof.
  intros HP Hle Hz Htb HT Hinc Hlh Hlines Hch Hcurves Hsorted H.
  destruct (Prepared_view _ _ _ _ HP) as (lh' & ch' & tv' & lo & hi & V).
  destruct (prepared_shape _ _ _ _ _ _ _ _ _ V) as (Hn & _).
  pose proof (pv_Tvals _ _ _ _ _ _ _ _ _ V) as HT'.
  rewrite HT in HT'. injection HT' as <-.
  pose proof (pv_dTvals _ _ _ _ _ _ _ _ _ V) as HdT.
  pose proof (pv_scale_factor _ _ _ _ _ _ _ _ _ V) as Hsf.
  assert (Hpos : 0 <= 1 / (1 + zobs)).
  { apply Qle_shift_div_l; [exact Hz|]. lra. }
  assert (Hde : nonneg (de (base (self s)))).
  { destruct (pv_grid _ _ _ _ _ _ _ _ _ V) as (e0 & e1 & n0 & Hb).
    destruct (init_fields _ _ _ _ Hb) as (E0 & E1 & _).
    apply (grid_widths_nonneg e0 e1 n0); auto. now rewrite <- E0, <- E1. }
  assert (Hmk : forall elem block v,
            fst (_make_spectrum g elem block s) = Ok v -> nonneg v).
  { intros elem block v Hv.
    now apply (make_spectrum_nonneg_tables g s elem block lh ch
                 (1 / (1 + zobs)) v). }
  pose proof (nonneg_zeros (Z.to_nat (nchan (base (self s))))) as Hzs.
  unfold get_spectrum, bind, gets, lift, attr, ret in H.
  cbv beta iota in H.
  rewrite HT, (np_zeros_ok _ Hn) in H. cbv beta iota in H.
  destruct (Z.geb_spec (temperature_index tv kT) (Z.of_nat (length tv) - 1))
    as [Hge|Hlt]; cbn [orb] in H.
  { cbn [fst] in H. injection H as <- <-. now split. }
  destruct (Z.ltb_spec (temperature_index tv kT) 0) as [Hneg|Hnn].
  { cbn [fst] in H. injection H as <- <-. now split. }
  destruct (temperature_index_inside tv kT Hinc Hnn Hlt)
    as (i & Hi & Hlen & Hlo & Hhi).
  rewrite Hi in H.
  rewrite getitem_nat in H by lia. rewrite HdT in H. cbv beta iota in H.
  rewrite getitem_nat in H by (rewrite np_diff_length; lia).
  rewrite nth_np_diff in H by lia.
  rewrite (readonly_run _ s (readonly_accumulate _ _ _ _ _)) in H.
  destruct (fst (accumulate g (cosmic_elem (self s)) _ _ _ s))
    as [[cl cr]|] eqn:Ec; [|discriminate].
  cbv beta iota in H.
  rewrite (readonly_run _ s (readonly_accumulate _ _ _ _ _)) in H.
  destruct (fst (accumulate g (metal_elem (self s)) _ _ _ s))
    as [[ml mr]|] eqn:Em; [|discriminate].
  cbn [fst snd] in H. injection H as <- <-.
  apply accumulate_nonneg in Ec; auto. apply accumulate_nonneg in Em; auto.
  assert (Hgap : 0 < nth (S i) tv 0 - nth i tv 0) by lra.
  assert (Hd0 : 0 <= (kT - nth i tv 0) / (nth (S i) tv 0 - nth i tv 0)).
  { apply Qle_shift_div_l; lra. }
  assert (Hd1 : (kT - nth i tv 0) / (nth (S i) tv 0 - nth i tv 0) <= 1).
  { apply Qle_shift_div_r; lra. }
  split; apply nonneg_blend; tauto.
Qed.

Lemma example_lines_nonneg : nonneg_lines example_line_file.
Proof.
  intros rows r Hrows Hr. unfold example_line_file in Hrows.
  repeat (destruct Hrows as [Hrows|Hrows]; try discriminate Hrows);
    try contradiction;
    injection Hrows as <-;
    repeat (destruct Hr as [Hr|Hr]; try contradiction);
    subst r; cbn [epsilon]; lra.
Qed.

Lemma example_curves_nonneg : nonneg_curves example_coco_file.
Proof.
  intros rows r Hrows Hr. unfold example_coco_file in Hrows.
  repeat (destruct Hrows as [Hrows|Hrows]; try discriminate Hrows);
    try contradiction;
    injection Hrows as <-; simpl in Hr; try contradiction;
    repeat (destruct Hr as [Hr|Hr]; try contradiction);
    subst r; cbn [Continuum Pseudo]; unfold nonneg;
    split; repeat constructor; lra.
Qed.

Lemma example_samples_increasing : increasing_samples example_coco_file.
Proof.
  intros rows r Hrows Hr. unfold example_coco_file in Hrows.
  repeat (destruct Hrows as [Hrows|Hrows]; try discriminate Hrows);
    try contradiction;
    injection Hrows as <-; simpl in Hr; try contradiction;
    repeat (destruct Hr as [Hr|Hr]; try contradiction);
    subst r; split; apply increasingb_spec; reflexivity.
Qed.

(** The example tables at rest, asked for [kT = 3/2]. *)
Lemma get_spectrum_nonnegative_witness :
  let s := example_state 0 in
  let dT := ((3 # 2) - 1) / (2 - 1) in
  nonneg (blend (example_sum 0 (cosmic_elem (self s)) 2)
                (example_sum 0 (cosmic_elem (self s)) 3) dT) /\
  nonneg (blend (example_sum 0 (metal_elem (self s)) 2)
                (example_sum 0 (metal_elem (self s)) 3) dT).
Proof.
  apply (get_spectrum_nonnegative example_globals example_fs 0
           (example_state 0) (3 # 2) [1; 2; 3]
           example_line_file example_coco_file).
  - exact example_prepared_rest.
  - vm_compute. discriminate.
  - reflexivity.
  - reflexivity.
  - reflexivity.
  - apply increasingb_spec. reflexivity.
  - reflexivity.
  - exact example_lines_nonneg.
  - reflexivity.
  - exact example_curves_nonneg.
  - exact example_samples_increasing.
  - vm_compute. reflexivity.
Defined.

(** ** Absorbers in a row *)

Lemma exp_monotone (x y : R) : (x <= y)%R -> (exp x <= exp y)%R.
Proof.
  intros [H | H]; [left; now apply exp_increasing | right; now rewrite H].
Qed.

Lemma nth_absorb sg (n : Q) j :
  (j < length sg)%nat ->
  nth j (map (fun s => exp (Q2R (- s * n))) sg) 0%R
  = exp (Q2R (- nth j sg 0 * n)).
Proof.
  intros Hj.
  rewrite (nth_indep _ 0%R (exp (Q2R (- 0 * n)))) by now rewrite length_map.
  apply (map_nth (fun s => exp (Q2R (- s * n)))).
Qed.

(** X16.  Three [TableAbsorbModel]s built from the same table with the
    column densities [n1], [n2] and [n1 + n2]: the three spectra have one
    length, in every channel the transmission of the third is the product
    of the other two, and when no cross section is negative and [n1 <= n2]
    the second never transmits more than the first. *)
Theorem absorb_spectrum_composes fs filename n1 n2 o1 o2 o12 :
  TableAbsorbModel.init fs filename n1 = Ok o1 ->
  TableAbsorbModel.init fs filename n2 = Ok o2 ->
  TableAbsorbModel.init fs filename (n1 + n2) = Ok o12 ->
  let t1 := TableAbsorbModel.get_spectrum o1 in
  let t2 := TableAbsorbModel.get_spectrum o2 in
  let t12 := TableAbsorbModel.get_spectrum o12 in
  length t2 = length t1 /\ length t12 = length t1 /\
  (forall j, (j < length t1)%nat ->
     nth j t12 0%R = (nth j t1 0 * nth j t2 0)%R) /\
  (n1 <= n2 -> Forall (fun sg => 0 <= sg) (TableAbsorbModel.sigma o1) ->
   forall j, (j < length t1)%nat -> (nth j t2 0 <= nth j t1 0)%R).
Proof.
  intros H1 H2 H12 t1 t2 t12.
  destruct (absorb_init_fields _ _ _ _ H1) as (e1 & F1 & N1 & _).
  destruct (absorb_init_fields _ _ _ _ H2) as (e2 & F2 & N2 & _).
  destruct (absorb_init_fields _ _ _ _ H12) as (e12 & F12 & N12 & _).
  rewrite F1 in F2, F12.
  assert (S2 : TableAbsorbModel.sigma o2 = TableAbsorbModel.sigma o1)
    by congruence.
  assert (S12 : TableAbsorbModel.sigma o12 = TableAbsorbModel.sigma o1)
    by congruence.
  unfold t1, t2, t12, TableAbsorbModel.get_spectrum.
  rewrite S2, S12, N1, N2, N12. rewrite !length_map.
  assert (Hbig : 0 <= inject_Z (10 ^ 22)).
  { replace 0 with (inject_Z 0) by reflexivity. rewrite <- Zle_Qle.
    apply Z.pow_nonneg. lia. }
  generalize dependent (inject_Z (10 ^ 22)). intros c _ _ _ Hc.
  split; [reflexivity|]. split; [reflexivity|]. split.
  - intros j Hj. rewrite !nth_absorb by exact Hj.
    rewrite <- exp_plus. f_equal. rewrite <- Q2R_plus. apply Qeq_eqR. ring.
  - intros Hle Hsig j Hj. rewrite !nth_absorb by exact Hj.
    apply exp_monotone. apply Qle_Rle.
    assert (Hs : 0 <= nth j (TableAbsorbModel.sigma o1) 0).
    { rewrite Forall_forall in Hsig. apply Hsig. now apply nth_In. }
    assert (Hsc : 0 <= nth j (TableAbsorbModel.sigma o1) 0 * c)
      by (apply Qmult_le_0_compat; auto).
    nra.
Qed.

(** The example table with [0.1], [0.2] and [0.1 + 0.2] times [1e22]. *)
Lemma absorb_spectrum_composes_witness :
  exists o1 o2 o12,
    TableAbsorbModel.init example_fs "/atomdb/abs_table.h5" (1 # 10) = Ok o1 /\
    TableAbsorbModel.init example_fs "/atomdb/abs_table.h5" (2 # 10) = Ok o2 /\
    TableAbsorbModel.init example_fs "/atomdb/abs_table.h5"
      ((1 # 10) + (2 # 10)) = Ok o12 /\
    let t1 := TableAbsorbModel.get_spectrum o1 in
    let t2 := TableAbsorbModel.get_spectrum o2 in
    let t12 := TableAbsorbModel.get_spectrum o12 in
    length t2 = length t1 /\ length t12 = length t1 /\
    (forall j, (j < length t1)%nat ->
       nth j t12 0%R = (nth j t1 0 * nth j t2 0)%R) /\
    ((1 # 10) <= (2 # 10) ->
     Forall (fun sg => 0 <= sg) (TableAbsorbModel.sigma o1) ->
     forall j, (j < length t1)%nat -> (nth j t2 0 <= nth j t1 0)%R).
Proof.
  eexists _, _, _.
  split; [vm_compute; reflexivity|].
  split; [vm_compute; reflexivity|].
  split; [vm_compute; reflexivity|].
  apply (absorb_spectrum_composes example_fs "/atomdb/abs_table.h5"
           (1 # 10) (2 # 10));
    vm_compute; reflexivity.
Defined.

(** ** The interpolation law *)

(** C3.  On a prepared model with an increasing temperature grid, for [kT]
    strictly between [T[i]] and [T[i+1]] the lookup gives [tindex = i],
    [get_spectrum] returns, and in every channel [j] each returned
    component is [left[j]*(1-dT) + right[j]*dT], with
    [dT = (kT - T[i]) / (T[i+1] - T[i])] and [left], [right] the sums of
    [_make_spectrum] over the component's element set at the table blocks
    [i+2] and [i+3]. *)
Theorem get_spectrum_interpolates g fs zobs s kT tv (i : nat) cl cr ml mr :
  Prepared g fs zobs s ->
  Tvals (self s) = Some tv ->
  increasing tv ->
  (S i < length tv)%nat ->
  nth i tv 0 < kT -> kT < nth (S i) tv 0 ->
  let n := Z.to_nat (nchan (base (self s))) in
  let zeros := repeat 0 n in
  let dT := (kT - nth i tv 0) / (nth (S i) tv 0 - nth i tv 0) in
  sum_spectra g (cosmic_elem (self s)) (Z.of_nat i + 2) zeros s = Ok cl ->
  sum_spectra g (cosmic_elem (self s)) (Z.of_nat i + 3) zeros s = Ok cr ->
  sum_spectra g (metal_elem (self s)) (Z.of_nat i + 2) zeros s = Ok ml ->
  sum_spectra g (metal_elem (self s)) (Z.of_nat i + 3) zeros s = Ok mr ->
  temperature_index tv kT = Z.of_nat i /\
  exists c m,
    get_spectrum g kT s = (Ok (c, m), s) /\
    length c = n /\ length m = n /\
    forall j, (j < n)%nat ->
      nth j c 0 == nth j cl 0 * (1 - dT) + nth j cr 0 * dT /\
      nth j m 0 == nth j ml 0 * (1 - dT) + nth j mr 0 * dT.
Proof.
  intros HP HT Hinc Hi Hlo Hhi n zeros dT Hcl Hcr Hml Hmr.
  destruct (Prepared_view _ _ _ _ HP) as (lh & ch & tv' & lo & hi & V).
  destruct (prepared_shape _ _ _ _ _ _ _ _ _ V) as (Hn & He & Hd & Hm).
  pose proof (pv_dTvals _ _ _ _ _ _ _ _ _ V) as HdT.
  pose proof (pv_Tvals _ _ _ _ _ _ _ _ _ V) as HT'.
  rewrite HT in HT'. injection HT' as <-.
  assert (Hti : temperature_index tv kT = Z.of_nat i).
  { apply temperature_index_bracket; auto. now apply Qlt_le_weak. }
  split; [exact Hti|].
  pose proof (sum_spectra_length _ _ _ _ _ _ Hn He Hd Hm
                (repeat_length _ _) Hcl) as Lcl.
  pose proof (sum_spectra_length _ _ _ _ _ _ Hn He Hd Hm
                (repeat_length _ _) Hcr) as Lcr.
  pose proof (sum_spectra_length _ _ _ _ _ _ Hn He Hd Hm
                (repeat_length _ _) Hml) as Lml.
  pose proof (sum_spectra_length _ _ _ _ _ _ Hn He Hd Hm
                (repeat_length _ _) Hmr) as Lmr.
  fold n in Lcl, Lcr, Lml, Lmr.
  exists (blend cl cr dT), (blend ml mr dT).
  split; [now apply (get_spectrum_bracket g s kT tv i cl cr ml mr)|].
  split; [rewrite blend_length; lia|].
  split; [rewrite blend_length; lia|].
  intros j Hj. split; apply nth_blend; lia.
Qed.

(** Halfway between the first two tabulated temperatures. *)
Lemma get_spectrum_interpolates_witness :
  let s := example_state 0 in
  let n := Z.to_nat (nchan (base (self s))) in
  let dT := ((3 # 2) - nth 0 [1; 2; 3] 0)
            / (nth 1 [1; 2; 3] 0 - nth 0 [1; 2; 3] 0) in
  temperature_index [1; 2; 3] (3 # 2) = 0%Z /\
  exists c m,
    get_spectrum example_globals (3 # 2) s = (Ok (c, m), s) /\
    length c = n /\ length m = n /\
    forall j, (j < n)%nat ->
      nth j c 0 == nth j (example_sum 0 (cosmic_elem (self s)) 2) 0 * (1 - dT)
                   + nth j (example_sum 0 (cosmic_elem (self s)) 3) 0 * dT /\
      nth j m 0 == nth j (example_sum 0 (metal_elem (self s)) 2) 0 * (1 - dT)
                   + nth j (example_sum 0 (metal_elem (self s)) 3) 0 * dT.
Proof.
  apply (get_spectrum_interpolates example_globals example_fs 0
           (example_state 0) (3 # 2) [1; 2; 3] 0).
  - exact example_prepared_rest.
  - reflexivity.
  - apply increasingb_spec. reflexivity.
  - simpl. lia.
  - reflexivity.
  - reflexivity.
  - vm_compute. reflexivity.
  - vm_compute. reflexivity.
  - vm_compute. reflexivity.
  - vm_compute. reflexivity.
Defined.

(** ** Where a line lands *)

(** The index of an energy on strictly increasing edges, read off the
    energy itself. *)
Lemma channel_of_range (edges : list Q) (E0 : Q) (n : nat) :
  (forall i j, (i < j <= n)%nat -> nth i edges 0 < nth j edges 0) ->
  length edges = S n ->
  let i := channel_of edges E0 in
  (-1 <= i <= Z.of_nat n)%Z /\
  ((0 <= i)%Z <-> nth 0 edges 0 <= E0) /\
  ((i <= Z.of_nat n - 1)%Z <-> E0 < nth n edges 0).
Proof.
  intros Hinc Hlen i.
  assert (Hincr : increasing edges).
  { apply strictly_increasing_increasing. intros a b Hab.
    apply Hinc. lia. }
  destruct (searchsorted_right_spec edges E0 Hincr)
    as (k & Hk & Hkle & Hin & Hout).
  assert (Hi : i = (Z.of_nat k - 1)%Z) by (unfold i, channel_of; lia).
  split; [lia|]. split; split.
  - intros H0. apply Hin. lia.
  - intros H0. destruct k as [|k]; [|lia].
    exfalso. apply (Qlt_not_le E0 (nth 0 edges 0)); [apply Hout; lia|].
    exact H0.
  - intros H0. apply Hout. lia.
  - intros H0. destruct (Nat.eq_dec k (S n)) as [->|Hne]; [|lia].
    exfalso. apply (Qlt_not_le _ _ H0). apply Hin. lia.
Qed.


(** The line loop returns when every selected line has its energy below
    the last edge. *)
Lemma line_loop_below_last_edge g fs zobs s elem block lh rows lo hi :
  Prepared g fs zobs s ->
  thermal_broad (self s) = false ->
  line_handle (self s) = Some lh ->
  getitem lh block = Ok (LineHDU rows) ->
  minlam (self s) = Some lo ->
  maxlam (self s) = Some hi ->
  emin (base (self s)) < emax (base (self s)) ->
  (0 < nchan (base (self s)))%Z ->
  let n := Z.to_nat (nchan (base (self s))) in
  let edges := ebins (base (self s)) in
  let sel := select_lines elem lo hi rows in
  let chan := fun r => channel_of edges (hc g / lambda r * (1 / (1 + zobs))) in
  (forall r, In r sel ->
     hc g / lambda r * (1 / (1 + zobs)) < nth n edges 0) ->
  (forall r, In r sel -> (-1 <= chan r <= Z.of_nat n - 1)%Z) /\
  exists vec,
    line_spectrum g elem block s
    = (deposit (repeat 0 n) (map chan sel) (map epsilon sel), s) /\
    deposit (repeat 0 n) (map chan sel) (map epsilon sel) = Ok vec /\
    length vec = n /\
    forall j, (j < n)%nat -> nth j vec 0 == amplitude_in n chan j sel.
Proof.
  intros HP Htb Hlh Hblock Hlo Hhi Hlt Hn n edges sel chan Hbelow.
  destruct (Prepared_view _ _ _ _ HP) as (lh' & ch & tv & lo' & hi' & V).
  destruct (prepared_edges _ _ _ _ _ _ _ _ _ V Hlt Hn)
    as (Hinc & Hlen & _ & _).
  fold edges in Hinc, Hlen. fold n in Hinc, Hlen.
  assert (Hrange : forall r, In r sel ->
            (-1 <= chan r <= Z.of_nat n - 1)%Z).
  { intros r Hr.
    destruct (channel_of_range edges (hc g / lambda r * (1 / (1 + zobs))) n
                Hinc Hlen) as (Hr1 & _ & Hr3).
    fold (chan r) in Hr1, Hr3.
    pose proof (proj2 Hr3 (Hbelow r Hr)). lia. }
  split; [exact Hrange|].
  destruct (deposit_spec chan sel (repeat 0 n)) as (vec & Hv & Hvl & Hnth).
  { rewrite repeat_length. intros r Hr. apply py_index_in_range.
    specialize (Hrange r Hr). lia. }
  rewrite repeat_length in *.
  exists vec. split; [|split; [exact Hv|split; [exact Hvl|]]].
  - apply (line_spectrum_unbroadened g s elem block lh rows lo hi
             (1 / (1 + zobs))); auto; try lia.
    exact (pv_scale_factor _ _ _ _ _ _ _ _ _ V).
  - intros j Hj. rewrite (Hnth j Hj), nth_repeat. ring.
Qed.



(** ** When the line loop returns *)

(** X3.  Without thermal broadening, on a prepared model with [hc > 0],
    [0 < emin < emax] and [nchan > 0], the line loop of [_make_spectrum]
    returns exactly when every selected line has its computed energy
    [hc/lambda*scale_factor] strictly below the last bin edge; the array it
    returns has [nchan] entries, and every selected line then has an index
    between [-1] and [nchan-1].  ([hc > 0] and [0 < emin] keep the window
    [hc/emax], [hc/emin] away from a zero divisor.) *)
Theorem line_loop_returns_below_last_edge
    g fs zobs s elem block lh rows lo hi :
  Prepared g fs zobs s ->
  thermal_broad (self s) = false ->
  line_handle (self s) = Some lh ->
  getitem lh block = Ok (LineHDU rows) ->
  minlam (self s) = Some lo ->
  maxlam (self s) = Some hi ->
  0 < hc g ->
  0 < emin (base (self s)) ->
  emin (base (self s)) < emax (base (self s)) ->
  (0 < nchan (base (self s)))%Z ->
  let n := Z.to_nat (nchan (base (self s))) in
  let edges := ebins (base (self s)) in
  let sel := select_lines elem lo hi rows in
  let E0 := fun r => hc g / lambda r * (1 / (1 + zobs)) in
  let chan := fun r => channel_of edges (E0 r) in
  ((exists vec, fst (line_spectrum g elem block s) = Ok vec) <->
   (forall r, In r sel -> E0 r < nth n edges 0)) /\
  (forall vec, fst (line_spectrum g elem block s) = Ok vec ->
     length vec = n /\
     forall r, In r sel -> (-1 <= chan r <= nchan (base (self s)) - 1)%Z).
Proof.
  intros HP Htb Hlh Hblock Hlo Hhi _ _ Hlt Hn n edges sel E0 chan.
  destruct (Prepared_view _ _ _ _ HP) as (lh' & ch & tv & lo' & hi' & V).
  destruct (prepared_edges _ _ _ _ _ _ _ _ _ V Hlt Hn)
    as (Hinc & Hlen & _ & _).
  fold edges in Hinc, Hlen. fold n in Hinc, Hlen.
  assert (Hnn : nchan (base (self s)) = Z.of_nat n) by (unfold n; lia).
  assert (Honly : forall vec, fst (line_spectrum g elem block s) = Ok vec ->
            forall r, In r sel -> E0 r < nth n edges 0).
  { intros vec Hvec r Hr.
    destruct (Qlt_le_dec (E0 r) (nth n edges 0)) as [Hb|Ha]; [exact Hb|].
    exfalso.
    destruct (channel_of_range edges (E0 r) n Hinc Hlen) as (H1 & _ & H3).
    fold (chan r) in H1, H3.
    assert (Hc : chan r = Z.of_nat n).
    { destruct (Z_le_gt_dec (chan r) (Z.of_nat n - 1)) as [Hle|Hgt]; [|lia].
      exfalso. apply (Qlt_not_le _ _ (proj1 H3 Hle)). exact Ha. }
    rewrite (line_spectrum_unbroadened g s elem block lh rows lo hi
               (1 / (1 + zobs))) in Hvec; auto; try lia.
    2:{ exact (pv_scale_factor _ _ _ _ _ _ _ _ _ V). }
    cbn [fst] in Hvec.
    rewrite (deposit_raises
               (fun r => channel_of edges (line_energy g (1 / (1 + zobs)) r))
               _ _ r Hr) in Hvec; [discriminate|].
    rewrite repeat_length.
    change (channel_of edges (line_energy g (1 / (1 + zobs)) r))
      with (chan r).
    rewrite Hc. apply py_index_past_end. }
  split; [split|].
  - intros (vec & Hvec). exact (Honly vec Hvec).
  - intros Hbelow.
    destruct (line_loop_below_last_edge g fs zobs s elem block lh rows lo hi
                HP Htb Hlh Hblock Hlo Hhi Hlt Hn Hbelow)
      as (_ & vec & Hline & Hdep & _).
    exists vec. now rewrite Hline, Hdep.
  - intros vec Hvec.
    destruct (line_loop_below_last_edge g fs zobs s elem block lh rows lo hi
                HP Htb Hlh Hblock Hlo Hhi Hlt Hn (Honly vec Hvec))
      as (Hrange & vec' & Hline & Hdep & Hvl & _).
    rewrite Hline, Hdep in Hvec. cbn [fst] in Hvec. injection Hvec as <-.
    split; [exact Hvl|]. intros r Hr. rewrite Hnn. exact (Hrange r Hr).
Qed.

(** Block 4 of the example tables seen at redshift 1: the only selected
    line is computed at 0.75 keV, below the last edge 5 keV. *)
Lemma line_loop_returns_below_last_edge_witness :
  let s := example_state 1 in
  let n := Z.to_nat (nchan (base (self s))) in
  let edges := ebins (base (self s)) in
  let sel := select_lines 1 (123984193 # 50000000) (495936772 # 40000000)
               [ {| element := 1; lambda := example_wavelength (3 # 2);
                    epsilon := 2 |} ] in
  let E0 := fun r => hc example_globals / lambda r * (1 / (1 + 1)) in
  let chan := fun r => channel_of edges (E0 r) in
  ((exists vec, fst (line_spectrum example_globals 1 4 s) = Ok vec) <->
   (forall r, In r sel -> E0 r < nth n edges 0)) /\
  (forall vec, fst (line_spectrum example_globals 1 4 s) = Ok vec ->
     length vec = n /\
     forall r, In r sel -> (-1 <= chan r <= nchan (base (self s)) - 1)%Z).
Proof.
  apply (line_loop_returns_below_last_edge example_globals example_fs
           1 (example_state 1) 1 4 example_line_file).
  - exact example_prepared_redshifted.
  - reflexivity.
  - reflexivity.
  - reflexivity.
  - vm_compute. reflexivity.
  - vm_compute. reflexivity.
  - reflexivity.
  - vm_compute. reflexivity.
  - vm_compute. reflexivity.
  - vm_compute. reflexivity.
Defined.
